(** * Quantized-add operator (QLinearAddMsOp) and the torch [equal] conversion

    A shallow embedding of
    - [AIPUBuilder/Parser/ops/onnx_ops/contrib_ops.py]
      ([QLinearAddMsOp.__getattr__] and [QLinearAddMsOp.infer_shape]), and
    - [AIPUBuilder/Parser/front_end/torch/process.py]
      ([convert_to_bool], [convert_logical], [convert_equal],
      [convert_logical_not], [convert_add_sub] with [convert_add],
      [convert_sub] and [convert_rsub], [convert_conv], and of
      [convert_torch_to_onnx] the choice of the opset, the loop over the
      inputs and the names of the outputs with [_flatten_type]),
    together with the part of numpy's array semantics these functions use.

    Floating-point values are IEEE 754 values of the Standard Library's
    [SpecFloat] (binary64 is [prec = 53], [emax = 1024]); integers of a
    w-bit dtype are [Z] with the wrap-around written out. *)

From Stdlib Require Import ZArith Lia Bool List String Ascii.
From Stdlib Require Import Floats.SpecFloat.
From stdpp Require Import gmap strings list fin_maps.

Local Open Scope Z_scope.

(** ** Element types *)

Inductive iwidth := W8 | W16 | W32 | W64.
Inductive fwidth := F16 | F32 | F64.

(** numpy dtypes: bool, (un)signed integers of 8..64 bits, float16/32/64. *)
Inductive dtype :=
| DBool
| DInt (signed : bool) (w : iwidth)
| DFloat (w : fwidth).

Definition int8 := DInt true W8.
Definition uint8 := DInt false W8.
Definition int16 := DInt true W16.
Definition uint16 := DInt false W16.
Definition int32 := DInt true W32.
Definition uint32 := DInt false W32.
Definition int64 := DInt true W64.
Definition uint64 := DInt false W64.
Definition float16 := DFloat F16.
Definition float32 := DFloat F32.
Definition float64 := DFloat F64.

Global Instance iwidth_eq_dec : EqDecision iwidth.
Proof. solve_decision. Defined.
Global Instance fwidth_eq_dec : EqDecision fwidth.
Proof. solve_decision. Defined.
Global Instance dtype_eq_dec : EqDecision dtype.
Proof. solve_decision. Defined.

Definition bits (w : iwidth) : Z :=
  match w with W8 => 8 | W16 => 16 | W32 => 32 | W64 => 64 end.

(** [np.iinfo(dt).min] and [np.iinfo(dt).max] for an integer dtype. *)
Definition int_min (sg : bool) (w : iwidth) : Z :=
  if sg then - 2 ^ (bits w - 1) else 0.
Definition int_max (sg : bool) (w : iwidth) : Z :=
  if sg then 2 ^ (bits w - 1) - 1 else 2 ^ bits w - 1.

(** Two's-complement wrap-around of an integer into a w-bit dtype. *)
Definition wrap (sg : bool) (w : iwidth) (z : Z) : Z :=
  if sg then (z + 2 ^ (bits w - 1)) mod 2 ^ bits w - 2 ^ (bits w - 1)
  else z mod 2 ^ bits w.

Definition in_range (sg : bool) (w : iwidth) (z : Z) : Prop :=
  int_min sg w <= z <= int_max sg w.

(** ** Floating-point formats *)

Definition fprec (w : fwidth) : Z :=
  match w with F16 => 11 | F32 => 24 | F64 => 53 end.
Definition femax (w : fwidth) : Z :=
  match w with F16 => 16 | F32 => 128 | F64 => 1024 end.

(** Conversion of an integer to a float of the given format, rounding to
    nearest-even when the integer has more digits than the mantissa. *)
Definition Z2F (w : fwidth) (z : Z) : spec_float :=
  binary_normalize (fprec w) (femax w) z 0 false.

(** Conversion between float formats ([astype] between float dtypes). *)
Definition F2F (w : fwidth) (x : spec_float) : spec_float :=
  match x with
  | S754_finite s m e => binary_round (fprec w) (femax w) s m e
  | _ => x
  end.

(** Binary64 operations. *)
Definition f64_add := SFadd 53 1024.
Definition f64_mul := SFmul 53 1024.
Definition f64_div := SFdiv 53 1024.

(** Truncation toward zero of a float ([None] for infinities and NaN). *)
Definition F2Z_trunc (x : spec_float) : option Z :=
  match x with
  | S754_zero _ => Some 0
  | S754_finite s m e =>
      Some (cond_Zopp s (if 0 <=? e then Z.pos m * 2 ^ e
                         else Z.pos m / 2 ^ (- e)))
  | _ => None
  end.

(** Nearest integer to [a / b] (for [0 < b]), ties to the even one. *)
Definition Zrne_div (a b : Z) : Z :=
  let q := a / b in
  match 2 * (a mod b) ?= b with
  | Lt => q
  | Gt => q + 1
  | Eq => if Z.even q then q else q + 1
  end.

(** C [rint] in the default rounding mode, which [np.around] applies to
    floating-point arrays: round half to even, keeping the sign of zero. *)
Definition F_rint (w : fwidth) (x : spec_float) : spec_float :=
  match x with
  | S754_finite s m e =>
      if 0 <=? e then x
      else
        let n := Zrne_div (Z.pos m) (2 ^ (- e)) in
        if n =? 0 then S754_zero s
        else binary_normalize (fprec w) (femax w) (cond_Zopp s n) 0 false
  | _ => x
  end.

Definition F_is_nan (x : spec_float) : bool :=
  match x with S754_nan => true | _ => false end.

(** numpy's clip kernel for floats: [min(max(x, lo), hi)] where both
    [max] and [min] propagate a NaN first operand. *)
Definition F_clip (x lo hi : spec_float) : spec_float :=
  let t := if F_is_nan x || SFltb lo x then x else lo in
  if F_is_nan t || SFltb t hi then t else hi.

Definition Z_clip (x lo hi : Z) : Z := Z.min (Z.max x lo) hi.

(** ** Array elements and casts *)

(** An element is an integer (bool and integer dtypes; a bool is 0 or 1)
    or a float (float dtypes). *)
Inductive scalar :=
| SI (z : Z)
| SF (f : spec_float).

(** What a float-to-integer C cast yields is not defined for NaN,
    infinities and out-of-range values; numpy returns whatever the
    platform does.  The platform's choice is a parameter. *)
Class Platform := { cast_invalid : bool -> iwidth -> spec_float -> Z }.

(** A platform on which every invalid cast gives the "integer indefinite"
    bit pattern of the widest type. *)
Definition indefinite_platform : Platform :=
  {| cast_invalid := fun _ _ _ => - 2 ^ 63 |}.

Section Casts.
Context {P : Platform}.

Definition float_to_int (sg : bool) (w : iwidth) (x : spec_float) : Z :=
  match F2Z_trunc x with
  | Some z =>
      if (int_min sg w <=? z) && (z <=? int_max sg w) then z
      else wrap sg w (cast_invalid sg w x)
  | None => wrap sg w (cast_invalid sg w x)
  end.

Definition F_is_zero (x : spec_float) : bool :=
  match x with S754_zero _ => true | _ => false end.

(** [x.astype(t)] on one element. *)
Definition cast (t : dtype) (x : scalar) : scalar :=
  match t, x with
  | DBool, SI z => SI (if z =? 0 then 0 else 1)
  | DBool, SF f => SI (if F_is_zero f then 0 else 1)
  | DInt sg w, SI z => SI (wrap sg w z)
  | DInt sg w, SF f => SI (float_to_int sg w f)
  | DFloat w, SI z => SF (Z2F w z)
  | DFloat w, SF f => SF (F2F w f)
  end.
End Casts.

(** ** Type promotion ([np.promote_types]) *)

Definition wmax (a b : iwidth) : iwidth := if bits a <=? bits b then b else a.
Definition fmax (a b : fwidth) : fwidth := if fprec a <=? fprec b then b else a.

Definition wnext (w : iwidth) : option iwidth :=
  match w with W8 => Some W16 | W16 => Some W32 | W32 => Some W64 | W64 => None end.

Definition promote_int (s1 : bool) (w1 : iwidth) (s2 : bool) (w2 : iwidth) : dtype :=
  if Bool.eqb s1 s2 then DInt s1 (wmax w1 w2)
  else
    let '(ws, wu) := if s1 then (w1, w2) else (w2, w1) in
    if bits wu <? bits ws then DInt true ws
    else match wnext wu with
         | Some w => DInt true w
         | None => DFloat F64
         end.

Definition promote_int_float (w : iwidth) (f : fwidth) : dtype :=
  match f, w with
  | F64, _ => DFloat F64
  | F32, (W8 | W16) => DFloat F32
  | F32, _ => DFloat F64
  | F16, W8 => DFloat F16
  | F16, W16 => DFloat F32
  | F16, _ => DFloat F64
  end.

Definition promote_types (a b : dtype) : dtype :=
  match a, b with
  | DBool, t | t, DBool => t
  | DInt s1 w1, DInt s2 w2 => promote_int s1 w1 s2 w2
  | DInt _ w, DFloat f | DFloat f, DInt _ w => promote_int_float w f
  | DFloat f1, DFloat f2 => DFloat (fmax f1 f2)
  end.

(** Result dtype of [np.true_divide]: integers and booleans divide as
    float64. *)
Definition divide_type (a b : dtype) : dtype :=
  match promote_types a b with
  | DFloat f => DFloat f
  | _ => DFloat F64
  end.

(** ** Arrays *)

(** An n-dimensional array: element type, shape, and the elements in
    row-major order. *)
Record ndarray := mk_ndarray {
  dt : dtype;
  shape : list nat;
  data : list scalar
}.

(** Shapes broadcast when, aligned at the last axis, every pair of extents
    is equal or has a 1.  The shapes are given last axis first. *)
Fixpoint broadcast_rev (a b : list nat) : option (list nat) :=
  match a, b with
  | [], s | s, [] => Some s
  | x :: a', y :: b' =>
      match broadcast_rev a' b' with
      | None => None
      | Some s =>
          if (x =? y)%nat then Some (x :: s)
          else if (x =? 1)%nat then Some (y :: s)
          else if (y =? 1)%nat then Some (x :: s)
          else None
      end
  end.

Definition broadcast_shapes (a b : list nat) : option (list nat) :=
  match broadcast_rev (rev a) (rev b) with
  | Some s => Some (rev s)
  | None => None
  end.

(** Row-major position, in an array of shape [src], of the element seen at
    position [i] of its broadcast to shape [out] (both last axis first). *)
Fixpoint src_index (out src : list nat) (i : nat) : nat :=
  match out, src with
  | o :: out', s :: src' =>
      let r := src_index out' src' (i / o)%nat in
      if (s =? 1)%nat then r else (r * s + i mod o)%nat
  | _, _ => 0%nat
  end.

Definition numel (s : list nat) : nat := fold_right Nat.mul 1%nat s.

(** The elements of [a] as seen through a broadcast to shape [s]. *)
Definition broadcast_to (s : list nat) (a : ndarray) : list scalar :=
  map (fun i => nth (src_index (rev s) (rev (shape a)) i) (data a) (SI 0))
      (seq 0 (numel s)).

(** ** Exceptions and Python objects *)

Inductive exn :=
| AssertionError (msg : string)
| AttributeError
| TypeError
| ValueError
| KeyError
| OtherError (msg : string).

Inductive result (A : Type) :=
| Returns (a : A)
| Raises (e : exn).
Arguments Returns {A} a.
Arguments Raises {A} e.

Global Instance result_ret : MRet result := fun A a => Returns a.
Global Instance result_bind : MBind result := fun A B k r =>
  match r with
  | Returns a => k a
  | Raises e => Raises e
  end.

(** The Python values an attribute can hold here: [None], a numpy array,
    or a string (such as the node's name). *)
Inductive pyobj :=
| PNone
| PArr (a : ndarray)
| PStr (s : string).

Definition is_none (o : pyobj) : bool :=
  match o with PNone => true | _ => false end.

Section Numpy.
Context {P : Platform}.

(** [a.astype(t)] *)
Definition np_astype (t : dtype) (a : ndarray) : ndarray :=
  {| dt := t; shape := shape a; data := map (cast t) (data a) |}.

(** A binary ufunc: both operands are broadcast and cast to the loop
    dtype [lt], [f] is applied elementwise; [ValueError] when the shapes
    do not broadcast. *)
Definition np_binop (lt : dtype) (f : scalar -> scalar -> scalar)
           (a b : ndarray) : result ndarray :=
  match broadcast_shapes (shape a) (shape b) with
  | None => Raises ValueError
  | Some s =>
      Returns {| dt := lt; shape := s;
                 data := zip_with f (map (cast lt) (broadcast_to s a))
                                    (map (cast lt) (broadcast_to s b)) |}
  end.

Definition int_op (op : Z -> Z -> Z) (sg : bool) (w : iwidth) (x y : scalar) : scalar :=
  match x, y with
  | SI a, SI b => SI (wrap sg w (op a b))
  | _, _ => SI 0
  end.

Definition bool_op (op : bool -> bool -> bool) (x y : scalar) : scalar :=
  match x, y with
  | SI a, SI b => SI (if op (negb (a =? 0)) (negb (b =? 0)) then 1 else 0)
  | _, _ => SI 0
  end.

Definition float_op (op : Z -> Z -> spec_float -> spec_float -> spec_float)
           (w : fwidth) (x y : scalar) : scalar :=
  match x, y with
  | SF a, SF b => SF (op (fprec w) (femax w) a b)
  | _, _ => SF S754_nan
  end.

(** [a - b]; numpy refuses to subtract booleans. *)
Definition np_subtract (a b : ndarray) : result ndarray :=
  match promote_types (dt a) (dt b) with
  | DBool => Raises TypeError
  | DInt sg w => np_binop (DInt sg w) (int_op Z.sub sg w) a b
  | DFloat w => np_binop (DFloat w) (float_op SFsub w) a b
  end.

(** [a * b] *)
Definition np_multiply (a b : ndarray) : result ndarray :=
  match promote_types (dt a) (dt b) with
  | DBool => np_binop DBool (bool_op andb) a b
  | DInt sg w => np_binop (DInt sg w) (int_op Z.mul sg w) a b
  | DFloat w => np_binop (DFloat w) (float_op SFmul w) a b
  end.

(** [np.add(a, b)], [a + b] *)
Definition np_add (a b : ndarray) : result ndarray :=
  match promote_types (dt a) (dt b) with
  | DBool => np_binop DBool (bool_op orb) a b
  | DInt sg w => np_binop (DInt sg w) (int_op Z.add sg w) a b
  | DFloat w => np_binop (DFloat w) (float_op SFadd w) a b
  end.

(** [a / b] (true division) *)
Definition np_divide (a b : ndarray) : result ndarray :=
  match divide_type (dt a) (dt b) with
  | DFloat w => np_binop (DFloat w) (float_op SFdiv w) a b
  | _ => Raises TypeError
  end.

Definition around_elem (w : fwidth) (x : scalar) : scalar :=
  match x with
  | SF f => SF (F_rint w f)
  | SI z => SI z
  end.

(** [np.around(a)] with zero decimals: [rint] on floats, the identity on
    integers; booleans go through float16. *)
Definition np_around (a : ndarray) : ndarray :=
  match dt a with
  | DFloat w => {| dt := DFloat w; shape := shape a;
                   data := map (around_elem w) (data a) |}
  | DInt _ _ => a
  | DBool => np_astype float16 a
  end.

Definition clip_elem (t : dtype) (lo hi : Z) (x : scalar) : scalar :=
  match t, x with
  | DFloat w, SF f => SF (F_clip f (Z2F w lo) (Z2F w hi))
  | DInt sg w, SI z => SI (wrap sg w (Z_clip z lo hi))
  | _, _ => x
  end.

(** [np.clip(a, lo, hi)] with Python integers [lo] and [hi]. *)
Definition np_clip (a : ndarray) (lo hi : Z) : ndarray :=
  {| dt := dt a; shape := shape a;
     data := map (clip_elem (dt a) lo hi) (data a) |}.

(** [np.iinfo(t).min] and [.max]; [ValueError] unless [t] is an integer
    dtype. *)
Definition np_iinfo (t : dtype) : result (Z * Z) :=
  match t with
  | DInt sg w => Returns (int_min sg w, int_max sg w)
  | _ => Raises ValueError
  end.

Definition zero_of (t : dtype) : scalar :=
  match t with
  | DFloat _ => SF (S754_zero false)
  | _ => SI 0
  end.

(** [np.array(0, dtype=t)] *)
Definition np_zero (t : dtype) : ndarray :=
  {| dt := t; shape := []; data := [zero_of t] |}.
End Numpy.

(** ** Operator nodes *)

(** Modelled from the spec: the attribute kinds of [AttrType], whose
    declaration is in the base module [op.py]. *)
Inductive AttrType := INT | FLOAT | INT_LIST | FLOAT_LIST | STRING | TENSOR | ENUM.

(** [Attribute(name, {'type': ..., 'value': ...})] *)
Record Attribute := mk_attr {
  attr_name : string;
  attr_type : AttrType;
  attr_value : pyobj
}.

(** The state of an operator object that the two methods read and write:
    the attribute store [self.__dict__['_attr']], the tensors on the input
    edges (what [self.get_input_tensors()] returns; an edge whose tensor is
    not known contributes [None]), and the tensor on the output edge (what
    [self.set_out_tensor] writes). *)
Record node := mk_node {
  attr : gmap string Attribute;
  inputs : list (option ndarray);
  out_tensor : option ndarray
}.

(** Methods mutate the object and may raise; the mutations done before an
    exception persist. *)
Definition M (A : Type) : Type := node -> result A * node.

Definition mreturn {A} (a : A) : M A := fun n => (Returns a, n).
Definition mraise {A} (e : exn) : M A := fun n => (Raises e, n).
Definition mbind_M {A B} (c : M A) (k : A -> M B) : M B :=
  fun n => match c n with
           | (Returns a, n') => k a n'
           | (Raises e, n') => (Raises e, n')
           end.
(** [try: c except: h] *)
Definition try_except {A} (c : M A) (h : M A) : M A :=
  fun n => match c n with
           | (Returns a, n') => (Returns a, n')
           | (Raises _, n') => h n'
           end.
Definition lift {A} (r : result A) : M A := fun n => (r, n).
(** A read-only method of the object. *)
Definition self_call {A} (f : node -> result A) : M A := fun n => (f n, n).

Notation "'let!' x ':=' c 'in' k" := (mbind_M c (fun x => k))
  (at level 10, x pattern, c at level 100, k at level 200).

(** The base classes ([Op], [OnnxOp], [OpHasOneOutPort] of [op.py]) are
    outside the two files; what the subclass calls on them is a parameter.
    The base lookup [super().__getattr__] and the base [infer_shape] only
    read the object; the lookup has no source of values but the attribute
    store, and the base [infer_shape] looks at the input tensors only. *)
Class OpBase := {
  super_getattr : string -> node -> result pyobj;
  super_infer_shape : node -> result unit;
  super_init : gmap string Attribute -> M unit;
  update_attributes : gmap string Attribute -> M unit;
  check_required : node -> bool;
  super_getattr_store : forall item n v,
    super_getattr item n = Returns v -> v <> PNone ->
    exists a, attr n !! item = Some a /\ attr_value a = v;
  super_infer_shape_inputs : forall n n',
    inputs n = inputs n' -> super_infer_shape n = super_infer_shape n'
}.

Definition input_names : list string :=
  ["A"; "A_scale"; "A_zero_point"; "B"; "B_scale"; "B_zero_point";
   "C_scale"; "C_zero_point"]%string.

Definition zero_point_names : list string :=
  ["A_zero_point"; "B_zero_point"; "C_zero_point"]%string.

(** [item in names] *)
Definition str_in (item : string) (names : list string) : bool :=
  existsb (String.eqb item) names.

(** [names.index(item)] *)
Fixpoint index_of (item : string) (names : list string) : option nat :=
  match names with
  | [] => None
  | x :: rest =>
      if String.eqb item x then Some 0%nat
      else option_map S (index_of item rest)
  end.

(** [sub in s] on strings *)
Fixpoint contains (sub s : string) : bool :=
  String.prefix sub s ||
  match s with
  | EmptyString => false
  | String _ s' => contains sub s'
  end.

(** [self.__dict__['_attr'][item].value] *)
Definition store_lookup (item : string) : M pyobj :=
  fun n => match attr n !! item with
           | Some a => (Returns (attr_value a), n)
           | None => (Raises KeyError, n)
           end.

(** [self.__dict__['_attr'][item] = Attribute(item, {'type': AttrType.TENSOR, 'value': v})] *)
Definition store_tensor (item : string) (v : pyobj) : M unit :=
  fun n => (Returns tt,
            {| attr := <[item := mk_attr item TENSOR v]> (attr n);
               inputs := inputs n; out_tensor := out_tensor n |}).

Definition get_input_tensors : M (list (option ndarray)) :=
  fun n => (Returns (inputs n), n).

Definition set_out_tensor (t : ndarray) : M unit :=
  fun n => (Returns tt,
            {| attr := attr n; inputs := inputs n; out_tensor := Some t |}).

Definition of_option (o : option ndarray) : pyobj :=
  match o with Some a => PArr a | None => PNone end.

(** [o.dtype] *)
Definition py_dtype (o : pyobj) : result dtype :=
  match o with
  | PArr a => Returns (dt a)
  | _ => Raises AttributeError
  end.

Section QLinearAddMsOp.
Context {P : Platform} {B : OpBase}.

(** [QLinearAddMsOp.__init__] *)
Definition init (attr_dict : gmap string Attribute) : M unit :=
  let! _ := super_init attr_dict in
  let! _ := update_attributes attr_dict in
  let! ok := self_call (fun n => Returns (check_required n)) in
  if ok : bool then mreturn tt
  else mraise (AssertionError "QLinearAddMsOp is missing a required parameter.").

(** Lines 26-35 of [__getattr__]: the value at the item's input
    position, cached in the store; [None] when the item names no input
    or the position is beyond the inputs. *)
Definition from_input (item : string) : M pyobj :=
  match index_of item input_names with
  | Some item_idx =>
      let! ins := get_input_tensors in
      if (item_idx <? length ins)%nat then
        let ret := of_option (nth item_idx ins None) in
        let! ret :=
          if contains "scale" item then
            (* [np.array(ret).astype(np.float32)] *)
            match ret with
            | PArr a => mreturn (PArr (np_astype float32 a))
            | _ => mraise TypeError
            end
          else mreturn ret in
        let! _ := store_tensor item ret in
        mreturn ret
      else mreturn PNone
  | None => mreturn PNone
  end.

(** Lines 36-38 of [__getattr__]: the default of a zero point, with
    [self.A] given by [self_A]. *)
Definition default_zero_point (self_A : M pyobj) (item : string)
           (ret : pyobj) : M pyobj :=
  let! dflt :=
    if is_none ret && str_in item zero_point_names then
      let! a := self_A in mreturn (negb (is_none a))
    else mreturn false in
  if dflt : bool then
    let! a := self_A in
    let! t := lift (py_dtype a) in
    let ret := PArr (np_zero t) in
    let! _ := store_tensor item ret in
    mreturn ret
  else mreturn ret.

(** [QLinearAddMsOp.__getattr__] *)
Definition getattr_with (self_A : M pyobj) (item : string) : M pyobj :=
  let! ret := try_except (store_lookup item) (mreturn PNone) in
  let! ret :=
    try_except
      (if is_none ret then
         let! ret := from_input item in
         default_zero_point self_A item ret
       else mreturn ret)
      (mreturn PNone) in
  if is_none ret then self_call (super_getattr item) else mreturn ret.

(** The lookup of a zero point reads [self.A], which is again
    [__getattr__]; ["A"] is no zero point, so the nesting stops there. *)
Definition getattr_A : M pyobj :=
  getattr_with (mraise (OtherError "RecursionError")) "A".
Definition getattr (item : string) : M pyobj :=
  getattr_with getattr_A item.

(** [x.astype(t)] on a Python object *)
Definition py_astype (o : pyobj) (t : dtype) : result ndarray :=
  match o with
  | PArr a => Returns (np_astype t a)
  | _ => Raises AttributeError
  end.

(** [a op o] for an array [a] and a Python object [o] *)
Definition py_binop (op : ndarray -> ndarray -> result ndarray)
           (a : ndarray) (o : pyobj) : result ndarray :=
  match o with
  | PArr b => op a b
  | _ => Raises TypeError
  end.

Definition invalid_inputs_msg (name : pyobj) : string :=
  ("Meets invalid inputs length of QLinearAddMs op (" ++
   match name with
   | PStr s => s
   | PNone => "None"
   | PArr _ => "<array>"
   end ++ ")")%string.

(** [QLinearAddMsOp.infer_shape] *)
Definition infer_shape : M unit :=
  let! _ := self_call super_infer_shape in
  let! ins := get_input_tensors in
  let! _ :=
    if (7 <=? length ins)%nat then mreturn tt
    else
      let! name := getattr "name" in
      mraise (AssertionError (invalid_inputs_msg name)) in
  (* float_a *)
  let! A := getattr "A" in
  let! a32 := lift (py_astype A int32) in
  let! A_zero_point := getattr "A_zero_point" in
  let! da := lift (py_binop np_subtract a32 A_zero_point) in
  let! A_scale := getattr "A_scale" in
  let! float_a := lift (py_binop np_multiply da A_scale) in
  (* float_b *)
  let! B_ := getattr "B" in
  let! b32 := lift (py_astype B_ int32) in
  let! B_zero_point := getattr "B_zero_point" in
  let! db := lift (py_binop np_subtract b32 B_zero_point) in
  let! B_scale := getattr "B_scale" in
  let! float_b := lift (py_binop np_multiply db B_scale) in
  let! float_y := lift (np_add float_a float_b) in
  (* out_min, out_max *)
  let! czp := getattr "C_zero_point" in
  let! t := lift (py_dtype czp) in
  let! mm := lift (np_iinfo t) in
  let out_min := fst mm in
  let! czp := getattr "C_zero_point" in
  let! t := lift (py_dtype czp) in
  let! mm := lift (np_iinfo t) in
  let out_max := snd mm in
  (* out_tensor *)
  let! C_scale := getattr "C_scale" in
  let! q := lift (py_binop np_divide float_y C_scale) in
  let r := np_around q in
  let! czp := getattr "C_zero_point" in
  let! s := lift (py_binop np_add r czp) in
  let c := np_clip s out_min out_max in
  let! czp := getattr "C_zero_point" in
  let! t := lift (py_dtype czp) in
  let out := np_astype t c in
  set_out_tensor out.
End QLinearAddMsOp.

(** ** The torch front end: [convert_equal] *)

Module Torch.

(** A [torch._C.Value] is known by its identity; its static type comes
    from the traced graph. *)
Definition value := nat.

Inductive gattr :=
| AInt (z : Z)                 (* [name_i=z] *)
| ABoolTensor (b : bool).      (* [name_t=torch.tensor(b)] *)

Record gnode := mk_gnode {
  op_type : string;
  op_inputs : list value;
  op_attrs : list (string * gattr);
  op_output : value
}.

(** The graph under construction: the nodes emitted so far, in order, and
    the identity of the next value. *)
Record graph := mk_graph {
  nodes : list gnode;
  next_value : value
}.

(** [torch._C._onnx.TensorProtoDataType.BOOL] *)
Definition BOOL : Z := 9.

Section Convert.
(** [v.type().scalarType()] ([None] when unknown) and
    [helper._get_tensor_sizes(v)] ([None] when the rank is unknown, a
    [None] entry for a dynamic extent). *)
Variable scalarType : value -> option string.
Variable tensor_sizes : value -> option (list (option Z)).

(** [g.op(op_type, *inputs, **attrs)] appends a node and returns its
    output. *)
Definition g_op (op : string) (ins : list value)
           (attrs : list (string * gattr)) (g : graph) : value * graph :=
  let v := next_value g in
  (v, {| nodes := nodes g ++ [mk_gnode op ins attrs v];
         next_value := S v |}).

Definition convert_to_bool (input : value) (g : graph) : value * graph :=
  if bool_decide (scalarType input ≠ Some "Bool"%string)
  then g_op "Cast" [input] [("to"%string, AInt BOOL)] g
  else (input, g).

(** [convert_logical(g, input, other, op_type)]; [other = None] is the
    unary case. *)
Definition convert_logical (input : value) (other : option value)
           (op : string) (g : graph) : result (value * graph) :=
  if (0 <? String.length op)%nat then
    match other with
    | None =>
        let '(a, g) := convert_to_bool input g in
        Returns (g_op op [a] [] g)
    | Some other =>
        let '(a, g) := convert_to_bool input g in
        let '(b, g) := convert_to_bool other g in
        Returns (g_op op [a; b] [] g)
    end
  else Raises (AssertionError "Meets empty op_type in convert_logical!").

Definition convert_equal (input other : value) (g : graph)
  : result (value * graph) :=
  let input_shape := tensor_sizes input in
  let other_shape := tensor_sizes other in
  if bool_decide (input_shape ≠ other_shape) then
    Returns (g_op "Constant" [] [("value"%string, ABoolTensor false)] g)
  else
    '(equal, g) ← convert_logical input (Some other) "Equal" g;
    let '(not_equal, g) := g_op "Not" [equal] [] g in
    let '(reduce_sum, g) :=
      g_op "ReduceSum" [not_equal] [("keepdims"%string, AInt 0)] g in
    Returns (g_op "Not" [reduce_sum] [] g).
End Convert.

(** *** What the emitted operators compute

    Enough of the ONNX operators to run an emitted graph on flat tensors
    of integers (a boolean is 0 or 1). *)
Definition tensor := list Z.

Definition truthy (z : Z) : Z := if z =? 0 then 0 else 1.
Definition negate (z : Z) : Z := if z =? 0 then 1 else 0.

Definition eval_op (n : gnode) (args : list tensor) : option tensor :=
  match op_type n, args, op_attrs n with
  | "Constant"%string, [], [(_, ABoolTensor b)] => Some [if b then 1 else 0]
  | "Cast"%string, [x], [(_, AInt 9)] => Some (map truthy x)
  | "Equal"%string, [x; y], _ =>
      if (length x =? length y)%nat
      then Some (zip_with (fun a b => if a =? b then 1 else 0) x y)
      else None
  | "Not"%string, [x], _ => Some (map negate x)
  | "ReduceSum"%string, [x], _ => Some [fold_right Z.add 0 x]
  | _, _, _ => None
  end.

(** Run the nodes in emission order over an environment of known
    values. *)
Fixpoint eval_nodes (ns : list gnode) (env : gmap nat tensor)
  : option (gmap nat tensor) :=
  match ns with
  | [] => Some env
  | n :: rest =>
      args ← mapM (fun v => env !! v) (op_inputs n);
      t ← eval_op n args;
      eval_nodes rest (<[op_output n := t]> env)
  end.

Definition eval_value (g : graph) (env : gmap nat tensor) (v : value)
  : option tensor :=
  env' ← eval_nodes (nodes g) env; env' !! v.

End Torch.

(** ** Auxiliary notions for the statements *)

(** The store holds value [v] for [item]. *)
Definition stored (n : node) (item : string) (v : pyobj) : Prop :=
  exists a, attr n !! item = Some a /\ attr_value a = v.

(** [n'] has the inputs and output of [n] and every value (other than
    [None]) that the store of [n] holds. *)
Definition preserves (n n' : node) : Prop :=
  inputs n' = inputs n /\ out_tensor n' = out_tensor n /\
  forall k v, stored n k v -> v <> PNone -> stored n' k v.

Definition with_inputs (n : node) (ins : list (option ndarray)) : node :=
  {| attr := attr n; inputs := ins; out_tensor := out_tensor n |}.

(** A base class that does no more than the parameters require: the base
    lookup answers from the store, the base [infer_shape] does nothing. *)
Definition plain_getattr (item : string) (n : node) : result pyobj :=
  match attr n !! item with
  | Some a => Returns (attr_value a)
  | None => Returns PNone
  end.

Definition plain_base : OpBase.
Proof.
  refine
    {| super_getattr := plain_getattr;
       super_infer_shape := fun _ => Returns tt;
       super_init := fun _ => mreturn tt;
       update_attributes := fun d n =>
         (Returns tt, {| attr := d ∪ attr n; inputs := inputs n;
                         out_tensor := out_tensor n |});
       check_required := fun _ => true;
       super_getattr_store := _;
       super_infer_shape_inputs := fun _ _ _ => eq_refl |}.
  intros item n v H Hv. unfold plain_getattr in H.
  destruct (attr n !! item) as [a|] eqn:E.
  - exists a. split; [reflexivity | congruence].
  - congruence.
Defined.

(** *** Sample tensors and nodes *)

Definition vec (t : dtype) (l : list Z) : ndarray :=
  {| dt := t; shape := [length l]; data := map SI l |}.
Definition scalar_int (t : dtype) (z : Z) : ndarray :=
  {| dt := t; shape := []; data := [SI z] |}.
Definition scalar_f32 (x : spec_float) : ndarray :=
  {| dt := float32; shape := []; data := [SF x] |}.

(** 0.5 and 1.0 in binary32 *)
Definition f_half : spec_float := S754_finite false 8388608 (-24).
Definition f_one : spec_float := S754_finite false 8388608 (-23).

(** The scenario of the specification: A = [10, 20], B = [5, 5], both
    uint8 with scale 0.5 and zero point 0; output scale 1.0, zero point 0. *)
Definition scenario_node : node :=
  {| attr := ∅;
     inputs := [Some (vec uint8 [10; 20]); Some (scalar_f32 f_half);
                Some (scalar_int uint8 0);
                Some (vec uint8 [5; 5]); Some (scalar_f32 f_half);
                Some (scalar_int uint8 0);
                Some (scalar_f32 f_one); Some (scalar_int uint8 0)];
     out_tensor := None |}.

(** The scenario with the output scale declared as an attribute. *)
Definition declared_scale : Attribute :=
  mk_attr "C_scale" TENSOR (PArr (scalar_f32 f_half)).
Definition declared_node : node :=
  {| attr := {[ "C_scale"%string := declared_scale ]};
     inputs := inputs scenario_node;
     out_tensor := None |}.

(** A node with the first five inputs only: A is uint8, B is int8, and
    there is no zero point for B. *)
Definition five_inputs_node : node :=
  {| attr := ∅;
     inputs := [Some (vec uint8 [10; 20]); Some (scalar_f32 f_half);
                Some (scalar_int uint8 0);
                Some (vec int8 [5; 5]); Some (scalar_f32 f_half)];
     out_tensor := None |}.

(** *** A sample use of [convert_equal]

    Two int64 ("Long") tensors of static shape [1], known as values 0 and
    1 of a graph whose next value is 2; at run time they hold [2] and
    [3]. *)
Definition long_type : Torch.value -> option string := fun _ => Some "Long"%string.
Definition bool_type : Torch.value -> option string := fun _ => Some "Bool"%string.
Definition shape_1 : Torch.value -> option (list (option Z)) :=
  fun _ => Some [Some 1].
Definition two_args_graph : Torch.graph :=
  {| Torch.nodes := []; Torch.next_value := 2%nat |}.
Definition run_time_2_3 : gmap nat Torch.tensor :=
  {[ 0%nat := [2]; 1%nat := [3] ]}.

(** ** The arithmetic of [infer_shape] on arrays *)

Section Arithmetic.
Context {P : Platform}.

(** Lines 49 and 50: [(x.astype(np.int32) - zero_point) * scale]. *)
Definition dequantize (x zero_point scale : ndarray) : result ndarray :=
  d ← np_subtract (np_astype int32 x) zero_point;
  np_multiply d scale.

(** Lines 52 to 55:
    [np.clip(np.around(float_y / scale) + zero_point, out_min, out_max)
       .astype(zero_point.dtype)]
    with [out_min] and [out_max] from [np.iinfo(zero_point.dtype)]. *)
Definition requantize (float_y scale zero_point : ndarray) : result ndarray :=
  mm ← np_iinfo (dt zero_point);
  q ← np_divide float_y scale;
  s ← np_add (np_around q) zero_point;
  Returns (np_astype (dt zero_point) (np_clip s mm.1 mm.2)).

(** Lines 49 to 55 on the eight resolved attributes. *)
Definition qlinear_add (A A_zero_point A_scale B_ B_zero_point B_scale
                        C_scale C_zero_point : ndarray) : result ndarray :=
  float_a ← dequantize A A_zero_point A_scale;
  float_b ← dequantize B_ B_zero_point B_scale;
  float_y ← np_add float_a float_b;
  requantize float_y C_scale C_zero_point.
End Arithmetic.

Definition with_out (n : node) (t : ndarray) : node :=
  {| attr := attr n; inputs := inputs n; out_tensor := Some t |}.

(** The eight attributes are held by the store as the given arrays. *)
Definition resolved (n : node)
           (A Az As_ B_ Bz Bs Cs Cz : ndarray) : Prop :=
  stored n "A" (PArr A) /\ stored n "A_zero_point" (PArr Az) /\
  stored n "A_scale" (PArr As_) /\ stored n "B" (PArr B_) /\
  stored n "B_zero_point" (PArr Bz) /\ stored n "B_scale" (PArr Bs) /\
  stored n "C_scale" (PArr Cs) /\ stored n "C_zero_point" (PArr Cz).

(** An element of an array of an integer dtype: an integer within the
    range of the dtype. *)
Definition int_elem (sg : bool) (w : iwidth) (x : scalar) : Prop :=
  exists z, x = SI z /\ in_range sg w z.

(** An array of an integer dtype whose elements are within its range. *)
Definition int_array (sg : bool) (w : iwidth) (a : ndarray) : Prop :=
  dt a = DInt sg w /\ Forall (int_elem sg w) (data a).

(** The difference of two integer elements, without wrap-around. *)
Definition exact_sub (x y : scalar) : scalar :=
  match x, y with
  | SI a, SI b => SI (a - b)
  | _, _ => SI 0
  end.

(** The 8- and 16-bit widths. *)
Definition narrow (w : iwidth) : Prop := w = W8 \/ w = W16.

(** int32 arrays that make the int32 subtraction wrap. *)
Definition int32_lowest : ndarray := vec int32 [- 2147483648].
Definition int32_one : ndarray := scalar_int int32 1.

(** A float64 tensor holding 7.5 and NaN. *)
Definition float_y_sample : ndarray :=
  {| dt := float64; shape := [2%nat];
     data := [SF (F2F F64 (S754_finite false 15 (-1))); SF S754_nan] |}.

(** ** Requantization as the specification words it *)

(** [round(x)] to the nearest integer, halves to the even neighbour. *)
Definition round_half_even (x : spec_float) : Z :=
  match x with
  | S754_finite s m e =>
      cond_Zopp s (if 0 <=? e then Z.pos m * 2 ^ e
                   else Zrne_div (Z.pos m) (2 ^ (- e)))
  | _ => 0
  end.

(** [clip(round(q) + zero_point, dtype_min, dtype_max)] in the integers,
    for the quotient [q = float_y / scale_out]; an infinite quotient
    saturates, a NaN quotient has no rounding. *)
Definition requantize_spec (sg : bool) (w : iwidth) (q : spec_float) (zp : Z) : Z :=
  match q with
  | S754_infinity false => int_max sg w
  | S754_infinity true => int_min sg w
  | _ => Z_clip (round_half_even q + zp) (int_min sg w) (int_max sg w)
  end.

(** On array elements; an integer element stands for itself. *)
Definition requantize_spec_elem (sg : bool) (w : iwidth) (q zp : scalar) : scalar :=
  match q, zp with
  | SF f, SI z => SI (requantize_spec sg w f z)
  | SI n, SI z => SI (Z_clip (n + z) (int_min sg w) (int_max sg w))
  | _, SF _ => SI 0
  end.

(** A float64 tensor holding 7.5 and 12.5, and a float64 zero. *)
Definition float_y_scenario : ndarray :=
  {| dt := float64; shape := [2%nat];
     data := [SF (F2F F64 (S754_finite false 15 (-1)));
              SF (F2F F64 (S754_finite false 25 (-1)))] |}.
Definition float_zero : ndarray :=
  {| dt := float64; shape := []; data := [SF (S754_zero false)] |}.

(** An int64 zero point that binary64 cannot hold: [2^53 + 1]. *)
Definition wide_zero_point : ndarray := scalar_int int64 9007199254740993.

(** * Further definitions *)

(** An array that holds as many elements as its shape says. *)
Definition well_shaped (a : ndarray) : Prop :=
  length (data a) = numel (shape a).

(** Within the range of an integer dtype. *)
Definition dtype_in_range (t : dtype) (z : Z) : Prop :=
  match t with
  | DInt sg w => in_range sg w z
  | _ => False
  end.

(** Nothing overflows when the element [e] of a tensor of dtype
    [(sg, w)] is dequantized with zero point [z] and scale [s]: the
    element is an integer of the dtype that [astype(np.int32)] keeps, the
    subtraction of the zero point stays within its result dtype, and the
    product with the scale is not an infinity. *)
Definition no_overflow (sg : bool) (w : iwidth) (z : Z) (s : spec_float)
           (e : scalar) : Prop :=
  exists v, e = SI v /\ in_range sg w v /\ in_range true W32 v /\
            dtype_in_range (promote_types int32 (DInt sg w)) (v - z) /\
            forall b, SFmul 53 1024 (Z2F F64 (v - z)) s <> S754_infinity b.

(** A base class whose lookup raises [AttributeError] for a name the
    store does not hold, as Python's default lookup does. *)
Definition strict_getattr (item : string) (n : node) : result pyobj :=
  match attr n !! item with
  | Some a => Returns (attr_value a)
  | None => Raises AttributeError
  end.

Definition strict_base : OpBase.
Proof.
  refine
    {| super_getattr := strict_getattr;
       super_infer_shape := fun _ => Returns tt;
       super_init := fun _ => mreturn tt;
       update_attributes := fun d n =>
         (Returns tt, {| attr := d ∪ attr n; inputs := inputs n;
                         out_tensor := out_tensor n |});
       check_required := fun _ => true;
       super_getattr_store := _;
       super_infer_shape_inputs := fun _ _ _ => eq_refl |}.
  intros item n v H Hv. unfold strict_getattr in H.
  destruct (attr n !! item) as [a|] eqn:E.
  - exists a. split; [reflexivity | congruence].
  - congruence.
Defined.

(** A node without inputs and without attributes. *)
Definition empty_node : node :=
  {| attr := ∅; inputs := []; out_tensor := None |}.

(** ** The torch front end: [convert_logical_not] *)

(** [convert_logical_not(g, input)] (lines 198 to 200 of [process.py]):
    [convert_logical] with no second operand and the operator [Not]. *)
Definition convert_logical_not (scalarType : Torch.value -> option string)
           (input : Torch.value) (g : Torch.graph)
  : result (Torch.value * Torch.graph) :=
  Torch.convert_logical scalarType input None "Not" g.

(** The run-time tensor that [convert_to_bool] hands on: the tensor itself
    for a value of static type Bool, its [Cast] to Bool otherwise. *)
Definition as_bool (scalarType : Torch.value -> option string)
           (v : Torch.value) (x : Torch.tensor) : Torch.tensor :=
  if bool_decide (scalarType v = Some "Bool"%string) then x
  else map Torch.truthy x.

(** The number of positions at which two tensors differ: the sum that
    [ReduceSum] takes of [Not(Equal(x, y))]. *)
Definition differing (x y : Torch.tensor) : Z :=
  fold_right Z.add 0
    (map Torch.negate (zip_with (fun a b => if a =? b then 1 else 0) x y)).

(** * The torch front end: further conversions of [process.py] *)

From Stdlib Require DecimalString DecimalNat.

Module Symbolic.

(** The graph that the symbolic functions build, with the kinds of
    attributes that these functions pass to [g.op]. *)
Definition value := nat.

Inductive gattr :=
| AInt (z : Z)              (* [name_i=z] *)
| AInts (l : list Z)        (* [name_i=[...]] *)
| AStr (s : string).        (* [name_s=s] *)

Record gnode := mk_gnode {
  op_type : string;
  op_inputs : list value;
  op_attrs : list (string * gattr);
  op_output : value
}.

Record graph := mk_graph {
  nodes : list gnode;
  next_value : value
}.

(** [g.op(op_type, *inputs, **attrs)] appends a node and returns its
    output; an attribute is known by its name without the suffix of its
    kind ([kernel_shape_i] is [kernel_shape]). *)
Definition g_op (op : string) (ins : list value)
           (attrs : list (string * gattr)) (g : graph) : value * graph :=
  let v := next_value g in
  (v, {| nodes := nodes g ++ [mk_gnode op ins attrs v];
         next_value := S v |}).

Section AddSub.
(** [FLOAT_EQUAL(helper._maybe_get_const(alpha, 'f'), 1)]: [FLOAT_EQUAL]
    is defined in [common/defs.py] and [_maybe_get_const] in torch, both
    outside the files at hand. *)
Variable alpha_is_one : value -> result bool.

(** [convert_add_sub(g, input, other, alpha, op_type)] (lines 19 to 22);
    [alpha] is a value or [None], and a value is true in a condition. *)
Definition convert_add_sub (input other : value) (alpha : option value)
           (op : string) (g : graph) : result (value * graph) :=
  match alpha with
  | Some a =>
      one ← alpha_is_one a;
      if negb one then
        let '(other, g) := g_op "Mul" [other; a] [] g in
        Returns (g_op op [input; other] [] g)
      else Returns (g_op op [input; other] [] g)
  | None => Returns (g_op op [input; other] [] g)
  end.

Definition convert_add (input other : value) (alpha : option value) :=
  convert_add_sub input other alpha "Add".
Definition convert_rsub (input other : value) (alpha : option value) :=
  convert_add_sub other input alpha "Sub".
Definition convert_sub (input other : value) (alpha : option value) :=
  convert_add_sub input other alpha "Sub".
End AddSub.

Section Conv.
(** From [torch.onnx.symbolic_helper]: [_get_tensor_sizes(v)] ([None]
    when the rank is unknown, a [None] entry for a dynamic extent),
    [_is_none(v)], [_get_tensor_rank(v)] ([None] when unknown), and
    [_parse_arg(v, 's')] and [_parse_arg(v, 'is')], which raise when the
    value is no constant of the kind. *)
Variable tensor_sizes : value -> option (list (option Z)).
Variable is_none : value -> bool.
Variable tensor_rank : value -> option Z.
Variable parse_arg_s : value -> result string.
Variable parse_arg_is : value -> result (list Z).

Definition invalid_kernel_msg : string :=
  "[Parser]: Meets invalid kernel shape of Conv op in convert_conv!".

(** [convert_conv(g, input, weight, bias, stride, padding, dilation,
    groups)] (lines 86 to 122), with [stride], [dilation] and [groups] as
    the decorator hands them over.  The result is the returned value
    ([None] after the error), the graph, and the messages given to
    [ERROR]. *)
Definition convert_conv (input weight bias : value) (stride : list Z)
           (padding : value) (dilation : list Z) (groups : Z) (g : graph)
  : result (option value * graph * list string) :=
  let weight_shape := tensor_sizes weight in
  (* [weight_shape[2:]], [None] when [weight_shape] is [None] *)
  let kernel_shape := option_map (drop 2) weight_shape in
  match kernel_shape with
  | None => Returns (None, g, [invalid_kernel_msg])
  | Some kernel_shape =>
      if existsb (fun d => bool_decide (d = None)) kernel_shape
      then Returns (None, g, [invalid_kernel_msg])
      else
        let args := [input; weight] in
        let '(args, need_separate_add) :=
          if negb (is_none bias) then
            if bool_decide (tensor_rank bias = Some 1)
            then (args ++ [bias], false)
            else (args, true)
          else (args, false) in
        let kwargs :=
          [("kernel_shape", AInts (omap id kernel_shape));
           ("strides", AInts stride);
           ("dilations", AInts dilation);
           ("group", AInt groups)]%string in
        str_padding ← parse_arg_s padding;
        kwargs ←
          (if str_in str_padding ["valid"; "same"]%string then
             let auto_pad :=
               if String.eqb str_padding "valid" then "VALID"%string
               else "SAME_UPPER"%string in
             Returns (kwargs ++ [("auto_pad"%string, AStr auto_pad)])
           else
             padding ← parse_arg_is padding;
             let padding := padding ++ padding in
             Returns (kwargs ++ [("pads"%string, AInts padding)]));
        let '(conv, g) := g_op "Conv" args kwargs g in
        if need_separate_add : bool then
          let '(r, g) := g_op "Add" [conv; bias] [] g in
          Returns (Some r, g, [])
        else Returns (Some conv, g, [])
  end.
End Conv.

(** *** What the emitted arithmetic operators compute

    [Add], [Sub] and [Mul] on flat tensors of integers, a tensor of one
    element being broadcast to the other operand. *)
Definition tensor := list Z.

Definition broadcast2 (f : Z -> Z -> Z) (x y : tensor) : option tensor :=
  match x, y with
  | _, [b] => Some (map (fun a => f a b) x)
  | [a], _ => Some (map (f a) y)
  | _, _ =>
      if (length x =? length y)%nat then Some (zip_with f x y) else None
  end.

Definition eval_op (n : gnode) (args : list tensor) : option tensor :=
  match op_type n, args with
  | "Add"%string, [x; y] => broadcast2 Z.add x y
  | "Sub"%string, [x; y] => broadcast2 Z.sub x y
  | "Mul"%string, [x; y] => broadcast2 Z.mul x y
  | _, _ => None
  end.

Fixpoint eval_nodes (ns : list gnode) (env : gmap nat tensor)
  : option (gmap nat tensor) :=
  match ns with
  | [] => Some env
  | n :: rest =>
      args ← mapM (fun v => env !! v) (op_inputs n);
      t ← eval_op n args;
      eval_nodes rest (<[op_output n := t]> env)
  end.

Definition eval_value (g : graph) (env : gmap nat tensor) (v : value)
  : option tensor :=
  env' ← eval_nodes (nodes g) env; env' !! v.

(** The attribute of a node by its name *)
Definition get_attr (name : string) (n : gnode) : option gattr :=
  snd <$> find (fun kv => String.eqb name kv.1) (op_attrs n).

(** The kernel shape is invalid: the sizes of the weight are unknown, or
    one of them from the third on is. *)
Definition invalid_kernel (weight_shape : option (list (option Z))) : Prop :=
  weight_shape = None \/
  exists dims, weight_shape = Some dims /\ In None (drop 2 dims).

(** The run-time value of [alpha]: a tensor of one element [a], which is
    1 when [alpha] is absent and when the conversion takes it to be one. *)
Definition alpha_value (alpha_is_one : value -> result bool)
           (env : gmap nat tensor) (alpha : option value) (a : Z) : Prop :=
  match alpha with
  | None => a = 1
  | Some al =>
      @eq (option tensor) (env !! al) (Some [a]) /\
      exists b, alpha_is_one al = Returns b /\ (b = true -> a = 1)
  end.

(** A graph that knows the values 0, 1 and 2, which hold [1, 2],
    [10, 20] and [3] at run time. *)
Definition three_values_graph : graph :=
  {| nodes := []; next_value := 3%nat |}.
Definition run_time_three : gmap nat tensor :=
  {[ 0%nat := [1; 2]; 1%nat := [10; 20]; 2%nat := [3] ]}.

(** A convolution of value 0 with the weight 1 of sizes [8, 3, 3, 3] and
    the bias 2 of rank 2, with the padding [1, 1] given as integers. *)
Definition weight_sizes : value -> option (list (option Z)) :=
  fun _ => Some [Some 8; Some 3; Some 3; Some 3].
Definition unknown_sizes : value -> option (list (option Z)) :=
  fun _ => None.
Definition never_none : value -> bool := fun _ => false.
Definition rank_two : value -> option Z := fun _ => Some 2.
Definition padding_string : value -> result string :=
  fun _ => Returns "[1, 1]"%string.
Definition padding_ints : value -> result (list Z) :=
  fun _ => Returns [1; 1].

End Symbolic.

(** ** [convert_torch_to_onnx]: the opset and the names

    Names are ASCII strings; on those, [c.isdigit()] holds of the
    characters ['0'] to ['9']. *)

Module TorchExport.

Definition isdigit (c : ascii) : bool :=
  (48 <=? nat_of_ascii c)%nat && (nat_of_ascii c <=? 57)%nat.

(** [s[0].isdigit()] for a string that is not empty *)
Definition starts_with_digit (s : string) : bool :=
  match s with
  | EmptyString => false
  | String c _ => isdigit c
  end.

(** [str(n)] for an integer that is not negative *)
Definition str_nat (n : nat) : string :=
  DecimalString.NilEmpty.string_of_uint (Nat.to_uint n).

(** [s.split('.')] *)
Fixpoint split_dot (s : string) : list string :=
  match s with
  | EmptyString => [EmptyString]
  | String c s' =>
      match split_dot s' with
      | [] => [EmptyString]
      | x :: r =>
          if Ascii.eqb c "." then EmptyString :: x :: r
          else String c x :: r
      end
  end.

Section Opset.
(** Python's [int] on a string, which raises [ValueError] when the string
    is no integer literal. *)
Variable py_int : string -> result Z.
(** The reads of [helper._onnx_main_opset] and
    [helper._onnx_stable_opsets], and of [onnx_main_opset] (with the
    import of [torch.onnx._constants] before it) and
    [onnx_stable_opsets]; they raise where torch has no such name. *)
Variable helper_main_opset : result Z.
Variable helper_stable_opsets : result (list Z).
Variable constant_main_opset : result Z.
Variable constant_stable_opsets : result (list Z).

(** Lines 291 to 300: the [try] block, from the defaults [None] and
    [[]]; an exception ends the block and keeps what was assigned. *)
Definition default_opsets (torch_version : string) : option Z * list Z :=
  if String.prefix "1.11" torch_version then
    match helper_main_opset with
    | Raises _ => (None, [])
    | Returns m =>
        match helper_stable_opsets with
        | Raises _ => (Some m, [])
        | Returns l => (Some m, l)
        end
    end
  else if String.leb "1.12.0" torch_version then
    match constant_main_opset with
    | Raises _ => (None, [])
    | Returns m =>
        match constant_stable_opsets with
        | Raises _ => (Some m, [])
        | Returns l => (Some m, l)
        end
    end
  else (None, []).

(** Lines 285 to 306: the opset to target, from [str(get_version(onnx))]
    and [str(torch.onnx.producer_version)]. *)
Definition onnx_opset_version (onnx_version_str torch_version : string)
  : result Z :=
  let onnx_version := split_dot onnx_version_str in
  major ← py_int (hd EmptyString onnx_version);
  onnx_opset_version ←
    (if major =? 1 then
       minor ← py_int (List.last onnx_version EmptyString);
       Returns (Some (minor + 5))
     else Returns None);
  let onnx_opset_version :=
    match onnx_opset_version with
    | Some v =>
        let '(default_onnx_main_opset, default_onnx_stable_opsets) :=
          default_opsets torch_version in
        match default_onnx_main_opset with
        | None => None
        | Some main =>
            if (main <=? v) ||
               negb (existsb (Z.eqb v) default_onnx_stable_opsets)
            then Some main
            else Some v
        end
    | None => None
    end in
  Returns (match onnx_opset_version with
           | None => 9
           | Some v => v
           end).
End Opset.

(** *** The names of the inputs (lines 364 to 387)

    The calls of the logger ([INFO], [WARN]) are left out: the logger is
    outside the files at hand, and its messages have no part in the names,
    the shapes and the tensors. *)

(** A Python dict with string keys: its items in insertion order. *)
Definition pydict (V : Type) : Type := list (string * V).

(** [d.pop(k)], the dict that is left; [KeyError] when [k] is no key *)
Fixpoint dict_pop {V} (k : string) (d : pydict V) : result (pydict V) :=
  match d with
  | [] => Raises KeyError
  | (k', v) :: rest =>
      if String.eqb k k' then Returns rest
      else rest' ← dict_pop k rest; Returns ((k', v) :: rest')
  end.

(** [d[k] = v]: the value of an existing key is replaced where it is, a
    new key goes to the end. *)
Fixpoint dict_set {V} (k : string) (v : V) (d : pydict V) : pydict V :=
  match d with
  | [] => [(k, v)]
  | (k', v') :: rest =>
      if String.eqb k k' then (k, v) :: rest
      else (k', v') :: dict_set k v rest
  end.

Section InputNames.
(** The tensors of torch, and lines 377 to 386: the tensor made for an
    entry of [input_dtype] and a shape ([getattr(torch, ...)], then
    [torch.randn] or [torch.zeros]), which may raise. *)
Variable torch_tensor : Type.
Variable new_tensor : string -> list Z -> result torch_tensor.

(** What the loop works on: [params['input_shapes']], [input_names] and
    [tensor_list]. *)
Record loop_state := mk_loop_state {
  input_shapes : pydict (list Z);
  input_names : list string;
  tensor_list : list torch_tensor
}.

(** The body of the loop for the items from position [idx] on; an
    exception leaves the state as the statements before it made it. *)
Fixpoint input_loop (idx : nat) (items : list (string * list Z))
         (input_dtype : list string) (st : loop_state)
  : result unit * loop_state :=
  match items with
  | [] => (Returns tt, st)
  | (input_name, input_shape) :: rest =>
      let renamed :=
        if (1 <=? String.length input_name)%nat &&
           starts_with_digit input_name
        then
          let new_input_name := ("input_" +:+ input_name)%string in
          match dict_pop input_name (input_shapes st) with
          | Raises e => Raises e
          | Returns d =>
              Returns (new_input_name,
                       dict_set new_input_name input_shape d)
          end
        else Returns (input_name, input_shapes st) in
      match renamed with
      | Raises e => (Raises e, st)
      | Returns (input_name, shapes) =>
          let st1 := {| input_shapes := shapes;
                        input_names := input_names st ++ [input_name];
                        tensor_list := tensor_list st |} in
          if (idx <? length input_dtype)%nat then
            match new_tensor (nth idx input_dtype EmptyString) input_shape with
            | Raises e => (Raises e, st1)
            | Returns t =>
                input_loop (S idx) rest input_dtype
                  {| input_shapes := shapes;
                     input_names := input_names st1;
                     tensor_list := tensor_list st1 ++ [t] |}
            end
          else
            (Raises (AssertionError
                       "Meets invalid input_dtype in convert_torch_to_onnx"),
             st1)
      end
  end.

(** Lines 364 to 387: the loop over a copy of [params['input_shapes']]. *)
Definition get_input_names (shapes : pydict (list Z))
           (input_dtype : list string) : result unit * loop_state :=
  input_loop 0 shapes input_dtype
    {| input_shapes := shapes; input_names := []; tensor_list := [] |}.
End InputNames.

(** *** The names of the outputs (lines 253 to 260 and 396 to 408) *)

(** The types of torch, as far as the code tells them apart: tuples,
    dicts, and the others. *)
#[warnings="-register-all"]
Inductive torch_type :=
| TupleType (elements : list torch_type)
| DictType
| OtherType (id : nat).

(** [_flatten_type(torch_type)] *)
Fixpoint _flatten_type (t : torch_type) : list torch_type :=
  match t with
  | TupleType elements => concat (map _flatten_type elements)
  | _ => [t]
  end.

(** An output of the graph: [out.debugName()], [out.type()], and the
    number of inputs of [out.node()]. *)
Record graph_output := mk_graph_output {
  debugName : string;
  out_type : torch_type;
  node_inputs : nat
}.

Definition outputs_num (out : graph_output) : nat :=
  match out_type out with
  | DictType => (node_inputs out / 2)%nat
  | t => length (_flatten_type t)
  end.

(** Lines 397 to 405: the names of the outputs from position [out_idx]
    on. *)
Fixpoint numbered_names (out_idx : nat) (outs : list graph_output)
  : list string :=
  match outs with
  | [] => []
  | out :: rest =>
      let out_name :=
        (debugName out +:+ "_" +:+ str_nat out_idx +:+ "_")%string in
      map (fun idx => (out_name +:+ str_nat idx)%string)
          (seq 0 (outputs_num out))
      ++ numbered_names (S out_idx) rest
  end.

(** Lines 406 to 408: a name that starts with a digit gets the prefix
    [output_]; [IndexError] on an empty name. *)
Fixpoint prefix_digit_names (names : list string) : result (list string) :=
  match names with
  | [] => Returns []
  | output_name :: rest =>
      match output_name with
      | EmptyString => Raises (OtherError "IndexError")
      | String c _ =>
          rest' ← prefix_digit_names rest;
          Returns ((if isdigit c then ("output_" +:+ output_name)%string
                    else output_name) :: rest')
      end
  end.

Definition get_output_names (outs : list graph_output)
  : result (list string) :=
  prefix_digit_names (numbered_names 0 outs).

(** *** Notions for the statements *)

(** The name under which an input is known after the loop. *)
Definition renamed_name (k : string) : string :=
  if starts_with_digit k then ("input_" +:+ k)%string else k.

(** The items whose name starts with a digit, under their new names, and
    the other items. *)
Definition renamed_items {V} (d : pydict V) : pydict V :=
  map (fun kv => (("input_" +:+ kv.1)%string, kv.2))
      (List.filter (fun kv => starts_with_digit kv.1) d).
Definition kept_items {V} (d : pydict V) : pydict V :=
  List.filter (fun kv => negb (starts_with_digit kv.1)) d.

(** No new name is a name that the dict has already. *)
Definition no_collision {V} (d : pydict V) : Prop :=
  forall k, In k (map fst d) -> starts_with_digit k = true ->
            ~ In ("input_" +:+ k)%string (map fst d).

(** A reading of the integers that the sample versions need. *)
Definition sample_int (s : string) : result Z :=
  if String.eqb s "1" then Returns 1
  else if String.eqb s "12" then Returns 12
  else Raises ValueError.

(** Two inputs, the first with a name that starts with a digit. *)
Definition two_inputs : pydict (list Z) :=
  [("0a"%string, [1; 3]); ("b"%string, [2])].

End TorchExport.

(** * Facts about [__getattr__] *)

Section GetattrFacts.
Context {P : Platform} {B : OpBase}.

(** The store holds no value (other than [None]) for [item]. *)
Definition none_at (n : node) (item : string) : Prop :=
  forall w, stored n item w -> w = PNone.

Lemma preserves_refl n : preserves n n.
Proof. repeat split; auto. Qed.

Lemma preserves_trans n1 n2 n3 :
  preserves n1 n2 -> preserves n2 n3 -> preserves n1 n3.
Proof.
  intros (Hi & Ho & Hs) (Hi' & Ho' & Hs'). repeat split.
  - congruence.
  - congruence.
  - intros k v Hk Hv. apply Hs'; auto.
Qed.

Lemma stored_store_tensor n item v :
  stored (store_tensor item v n).2 item v.
Proof.
  eexists. split; [apply lookup_insert_eq | reflexivity].
Qed.

Lemma store_tensor_other n item v k :
  k <> item -> attr (store_tensor item v n).2 !! k = attr n !! k.
Proof. intros Hk. simpl. apply lookup_insert_ne. congruence. Qed.

Lemma store_tensor_preserves n item v :
  none_at n item -> preserves n (store_tensor item v n).2.
Proof.
  intros Hn. repeat split. intros k w Hk Hw.
  destruct (decide (k = item)) as [->|Hne].
  - apply Hn in Hk. contradiction.
  - destruct Hk as (a & Ha & Hv). exists a. split; [|exact Hv].
    rewrite store_tensor_other; auto.
Qed.

Lemma none_at_store_none n item : none_at (store_tensor item PNone n).2 item.
Proof.
  intros w (a & Ha & Hv). simpl in Ha. rewrite lookup_insert_eq in Ha.
  injection Ha as <-. simpl in Hv. congruence.
Qed.

Lemma none_at_frame n n' item :
  attr n' !! item = attr n !! item -> none_at n item -> none_at n' item.
Proof. intros E Hn w (a & Ha & Hv). apply Hn. exists a. split; congruence. Qed.

(** A declared value is returned as it is, whatever the inputs. *)
Lemma getattr_with_hit self_A item n v :
  stored n item v -> v <> PNone ->
  getattr_with self_A item n = (Returns v, n).
Proof.
  intros (a & Ha & Hv) Hne.
  unfold getattr_with, mbind_M, try_except, store_lookup. rewrite Ha, Hv.
  destruct v; [contradiction | reflexivity | reflexivity].
Qed.

(** What [from_input] leaves behind. *)
Definition derived (item : string) (r : result pyobj) (n n' : node) : Prop :=
  match r with
  | Returns v => if is_none v then none_at n' item else stored n' item v
  | Raises _ => none_at n' item
  end.

Lemma from_input_spec item n r n' :
  from_input item n = (r, n') -> none_at n item ->
  preserves n n' /\ (forall k, k <> item -> attr n' !! k = attr n !! k) /\
  derived item r n n'.
Proof.
  intros H Hn. unfold from_input in H.
  destruct (index_of item input_names) as [idx|]; cycle 1.
  { injection H as <- <-. split; [apply preserves_refl|]. split; auto. }
  unfold mbind_M, get_input_tensors in H.
  destruct (idx <? length (inputs n))%nat; cycle 1.
  { injection H as <- <-. split; [apply preserves_refl|]. split; auto. }
  destruct (contains "scale" item).
  - destruct (nth idx (inputs n) None) as [a|]; simpl in H.
    + injection H as <- <-. split; [apply (store_tensor_preserves _ _ _ Hn)|].
      split; [intros; apply store_tensor_other; auto|].
      apply stored_store_tensor.
    + injection H as <- <-. split; [apply preserves_refl|]. split; auto.
  - destruct (nth idx (inputs n) None) as [a|]; simpl in H;
      injection H as <- <-;
      (split; [apply (store_tensor_preserves _ _ _ Hn)|]);
      (split; [intros; apply store_tensor_other; auto|]).
    + apply stored_store_tensor.
    + apply none_at_store_none.
Qed.

(** What a lookup of [self.A] may do to the object. *)
Definition reads_A (self_A : M pyobj) : Prop :=
  forall n r n', self_A n = (r, n') ->
    preserves n n' /\ (forall k, k <> "A"%string -> attr n' !! k = attr n !! k).

Lemma zero_point_not_A item :
  str_in item zero_point_names = true -> item <> "A"%string.
Proof. intros H ->. discriminate H. Qed.

Lemma default_zero_point_keep self_A item v n :
  v <> PNone -> default_zero_point self_A item v n = (Returns v, n).
Proof. intros Hv. destruct v; [contradiction| |]; reflexivity. Qed.

Lemma default_zero_point_spec self_A item n r n' :
  reads_A self_A ->
  default_zero_point self_A item PNone n = (r, n') -> none_at n item ->
  preserves n n' /\
  (forall k, k <> item -> k <> "A"%string -> attr n' !! k = attr n !! k) /\
  derived item r n n'.
Proof.
  intros SA H Hn. unfold default_zero_point, mbind_M in H.
  cbn [is_none andb] in H.
  destruct (str_in item zero_point_names) eqn:Ez; cycle 1.
  { injection H as <- <-. split; [apply preserves_refl|]. split; auto. }
  pose proof (zero_point_not_A _ Ez) as HA.
  destruct (self_A n) as [ra n1] eqn:E1.
  destruct (SA _ _ _ E1) as (P1 & F1).
  assert (Hn1 : none_at n1 item)
    by (apply (none_at_frame n); [apply F1; exact HA | exact Hn]).
  destruct ra as [a|e]; cycle 1.
  { injection H as <- <-. split; [exact P1|]. split; [intros; auto | cbn; auto]. }
  unfold mreturn in H.
  destruct (is_none a) eqn:Ea; simpl in H.
  { injection H as <- <-. split; [exact P1|]. split; [intros; auto | cbn; auto]. }
  destruct (self_A n1) as [ra2 n2] eqn:E2.
  destruct (SA _ _ _ E2) as (P2 & F2).
  assert (Hn2 : none_at n2 item)
    by (apply (none_at_frame n1); [apply F2; exact HA | exact Hn1]).
  assert (P12 : preserves n n2) by (eapply preserves_trans; eauto).
  assert (F12 : forall k, k <> item -> k <> "A"%string ->
                          attr n2 !! k = attr n !! k).
  { intros k _ Hk. rewrite F2, F1; auto. }
  destruct ra2 as [a2|e]; cycle 1.
  { injection H as <- <-. split; [exact P12|]. split; [intros; auto | cbn; auto]. }
  unfold lift in H. destruct (py_dtype a2) as [t|e]; cycle 1.
  { injection H as <- <-. split; [exact P12|]. split; [intros; auto | cbn; auto]. }
  injection H as <- <-.
  split; [eapply preserves_trans;
          [exact P12 | apply (store_tensor_preserves n2 item _ Hn2)]|].
  split.
  - intros k Hk HkA. etransitivity; [apply (store_tensor_other n2 item _ k Hk)|].
    auto.
  - apply (stored_store_tensor n2).
Qed.

(** The path of [__getattr__] taken when the store has no value. *)
Definition getattr_miss (self_A : M pyobj) (item : string) : M pyobj :=
  let! ret :=
    try_except
      (let! ret := from_input item in default_zero_point self_A item ret)
      (mreturn PNone) in
  if is_none ret then self_call (super_getattr item) else mreturn ret.

Definition getattr_post (item : string) (n : node) (r : result pyobj)
           (n' : node) : Prop :=
  preserves n n' /\
  (forall k, k <> item -> k <> "A"%string -> attr n' !! k = attr n !! k) /\
  (forall v, r = Returns v -> v <> PNone -> stored n' item v).

Lemma super_getattr_post item n n' r :
  preserves n n' ->
  (forall k, k <> item -> k <> "A"%string -> attr n' !! k = attr n !! k) ->
  super_getattr item n' = r -> getattr_post item n r n'.
Proof.
  intros Pn Fn E. split; [exact Pn|]. split; [exact Fn|].
  intros v -> Hv. destruct (super_getattr_store item n' v E Hv) as (a & Ha & Hav).
  exists a. auto.
Qed.

Lemma getattr_miss_spec self_A item n r n' :
  reads_A self_A -> none_at n item ->
  getattr_miss self_A item n = (r, n') -> getattr_post item n r n'.
Proof.
  intros SA Hn H. unfold getattr_miss, mbind_M, try_except in H.
  destruct (from_input item n) as [r1 n1] eqn:E1.
  destruct (from_input_spec _ _ _ _ E1 Hn) as (P1 & F1 & D1).
  destruct r1 as [v1|e1]; cycle 1.
  { unfold mreturn in H. cbn [is_none] in H. unfold self_call in H.
    injection H as H <-. eapply super_getattr_post; eauto. }
  destruct (is_none v1) eqn:Ev1; cycle 1.
  { rewrite default_zero_point_keep in H by (destruct v1; discriminate || congruence).
    rewrite Ev1 in H. injection H as <- <-.
    cbn in D1. rewrite Ev1 in D1.
    split; [exact P1|]. split; [auto|]. intros v [= <-] _. exact D1. }
  destruct v1; try discriminate Ev1. cbn in D1.
  destruct (default_zero_point self_A item PNone n1) as [r2 n2] eqn:E2.
  destruct (default_zero_point_spec _ _ _ _ _ SA E2 D1) as (P2 & F2 & D2).
  assert (P12 : preserves n n2) by (eapply preserves_trans; eauto).
  assert (F12 : forall k, k <> item -> k <> "A"%string ->
                          attr n2 !! k = attr n !! k).
  { intros k Hk HkA. rewrite F2, F1; auto. }
  destruct r2 as [v2|e2]; cycle 1.
  { unfold mreturn in H. cbn [is_none] in H. unfold self_call in H.
    injection H as H <-. eapply super_getattr_post; eauto. }
  destruct (is_none v2) eqn:Ev2.
  { unfold self_call in H. injection H as H <-.
    eapply super_getattr_post; eauto. }
  injection H as <- <-. cbn in D2. rewrite Ev2 in D2.
  split; [exact P12|]. split; [exact F12|]. intros v [= <-] _. exact D2.
Qed.

Lemma getattr_with_unfold self_A item n :
  getattr_with self_A item n =
  match attr n !! item with
  | Some a => if is_none (attr_value a) then getattr_miss self_A item n
              else (Returns (attr_value a), n)
  | None => getattr_miss self_A item n
  end.
Proof.
  unfold getattr_with, getattr_miss, mbind_M, try_except, store_lookup.
  destruct (attr n !! item) as [a|]; [|reflexivity].
  destruct (attr_value a); reflexivity.
Qed.

Lemma getattr_with_spec self_A item n r n' :
  reads_A self_A ->
  getattr_with self_A item n = (r, n') -> getattr_post item n r n'.
Proof.
  intros SA H. rewrite getattr_with_unfold in H.
  destruct (attr n !! item) as [a|] eqn:Ea.
  - destruct (is_none (attr_value a)) eqn:Ev.
    + apply (getattr_miss_spec self_A); auto.
      intros w (a' & Ha' & Hw). rewrite Ea in Ha'. injection Ha' as <-.
      subst w. destruct (attr_value a); [reflexivity|discriminate..].
    + injection H as <- <-. split; [apply preserves_refl|]. split; [auto|].
      intros v [= <-] _. exists a. auto.
  - apply (getattr_miss_spec self_A); auto.
    intros w (a' & Ha' & _). rewrite Ea in Ha'. discriminate.
Qed.

Lemma reads_A_raise e : reads_A (mraise e).
Proof.
  intros n r n' [= <- <-]. split; [apply preserves_refl | auto].
Qed.

Lemma getattr_A_spec n r n' :
  getattr_A n = (r, n') -> getattr_post "A" n r n'.
Proof. apply getattr_with_spec, reads_A_raise. Qed.

Lemma reads_A_getattr_A : reads_A getattr_A.
Proof.
  intros n r n' H. destruct (getattr_A_spec _ _ _ H) as (Pn & Fn & _).
  split; [exact Pn|]. intros k Hk. apply Fn; auto.
Qed.

Lemma getattr_spec item n r n' :
  getattr item n = (r, n') -> getattr_post item n r n'.
Proof. apply getattr_with_spec, reads_A_getattr_A. Qed.

Lemma getattr_hit item n v :
  stored n item v -> v <> PNone -> getattr item n = (Returns v, n).
Proof. apply getattr_with_hit. Qed.

(** The nested lookup of [self.A] is the lookup of ["A"] itself. *)
Lemma getattr_A_eq n : getattr "A" n = getattr_A n.
Proof.
  unfold getattr, getattr_A. rewrite !getattr_with_unfold.
  destruct (attr n !! "A"%string) as [a|];
    [destruct (is_none (attr_value a)); [|reflexivity]|];
    unfold getattr_miss, mbind_M, try_except, from_input; cbn;
    destruct (inputs n) as [|[x|] l]; reflexivity.
Qed.
End GetattrFacts.

(** * Attribute precedence and the zero-point default *)

Section AttributeClaims.
Context {P : Platform} {B : OpBase}.

Lemma getattr_A_miss_unfold n :
  getattr_miss (mraise (OtherError "RecursionError")) "A" n =
  match inputs n with
  | [] => (super_getattr "A" n, n)
  | Some a :: _ => (Returns (PArr a), (store_tensor "A" (PArr a) n).2)
  | None :: _ =>
      (super_getattr "A" (store_tensor "A" PNone n).2,
       (store_tensor "A" PNone n).2)
  end.
Proof.
  unfold getattr_miss, from_input, default_zero_point, get_input_tensors,
    store_tensor, self_call, lift, mreturn, mraise, mbind_M, try_except.
  destruct (inputs n) as [|[x|] l] eqn:E; simpl; rewrite ?E; simpl;
    rewrite ?E; reflexivity.
Qed.

Lemma super_getattr_none_at item n a :
  none_at n item -> super_getattr item n <> Returns (PArr a).
Proof.
  intros Hn E. destruct (super_getattr_store item n _ E) as (x & Hx & Hv).
  - discriminate.
  - assert (PArr a = PNone) by (apply Hn; exists x; auto). discriminate.
Qed.

(** The lookup of ["A"] depends on the store entry of ["A"] and on the
    inputs only. *)
Lemma getattr_A_footprint n n1 a :
  attr n1 !! "A"%string = attr n !! "A"%string -> inputs n1 = inputs n ->
  (getattr_A n).1 = Returns (PArr a) ->
  (getattr_A n1).1 = Returns (PArr a).
Proof.
  intros EA EI. unfold getattr_A. rewrite !getattr_with_unfold, EA.
  assert (miss : none_at n "A" -> 
    (getattr_miss (mraise (OtherError "RecursionError")) "A" n).1
      = Returns (PArr a) ->
    (getattr_miss (mraise (OtherError "RecursionError")) "A" n1).1
      = Returns (PArr a)).
  { intros Hn. rewrite !getattr_A_miss_unfold, EI.
    destruct (inputs n) as [|[x|] l]; cbn [fst]; auto.
    - intros E. exfalso. revert E. apply super_getattr_none_at, Hn.
    - intros E. exfalso. revert E. apply super_getattr_none_at.
      apply none_at_store_none. }
  destruct (attr n !! "A"%string) as [x|] eqn:Ex.
  - destruct (is_none (attr_value x)) eqn:Ev; [|auto].
    apply miss. intros w (x' & Hx' & Hw). rewrite Ex in Hx'.
    injection Hx' as <-. subst w. destruct (attr_value x); [auto|discriminate..].
  - apply miss. intros w (x' & Hx' & _). rewrite Ex in Hx'. discriminate.
Qed.

Lemma from_input_absent item idx n :
  index_of item input_names = Some idx ->
  contains "scale" item = false ->
  nth idx (inputs n) None = None ->
  exists n1, from_input item n = (Returns PNone, n1) /\
             inputs n1 = inputs n /\
             forall k, k <> item -> attr n1 !! k = attr n !! k.
Proof.
  intros Ei Es En. unfold from_input, mbind_M, get_input_tensors.
  rewrite Ei, Es, En. destruct (idx <? length (inputs n))%nat.
  - eexists. split; [reflexivity|]. split; [reflexivity|].
    intros k Hk. apply store_tensor_other; auto.
  - exists n. auto.
Qed.

(** C3. A declared attribute value wins: when the store holds a value
    for one of the eight names that can also come from an input tensor,
    the lookup returns that value and leaves the object as it is, and it
    does so whatever the input tensors are. *)
Theorem declared_attribute_wins item n a ins' :
  In item input_names ->
  attr n !! item = Some a -> attr_value a <> PNone ->
  getattr item n = (Returns (attr_value a), n) /\
  getattr item (with_inputs n ins') =
    (Returns (attr_value a), with_inputs n ins').
Proof.
  intros _ Ha Hv. split; apply getattr_hit; auto; exists a; auto.
Qed.

(** C4 (amended). A zero point that is neither declared nor present at
    its input position defaults to a zero-dimensional zero of the
    element type of [A], for each of the three zero points, provided the
    lookup of [A] yields a tensor; the default is cached in the store. *)
Theorem zero_point_defaults_to_A_dtype item idx n a :
  In item zero_point_names ->
  index_of item input_names = Some idx ->
  none_at n item ->
  nth idx (inputs n) None = None ->
  (getattr "A" n).1 = Returns (PArr a) ->
  (getattr item n).1 = Returns (PArr (np_zero (dt a))) /\
  stored (getattr item n).2 item (PArr (np_zero (dt a))).
Proof.
  intros Hin Hidx Hn Hnth HA. rewrite getattr_A_eq in HA.
  assert (Ez : str_in item zero_point_names = true).
  { destruct Hin as [<-|[<-|[<-|[]]]]; reflexivity. }
  assert (Es : contains "scale" item = false).
  { destruct Hin as [<-|[<-|[<-|[]]]]; reflexivity. }
  pose proof (zero_point_not_A _ Ez) as HneA.
  assert (Hmiss : getattr item n = getattr_miss getattr_A item n).
  { unfold getattr. rewrite getattr_with_unfold.
    destruct (attr n !! item) as [x|] eqn:Ex; [|reflexivity].
    assert (attr_value x = PNone) as -> by (apply Hn; exists x; auto).
    reflexivity. }
  rewrite Hmiss. unfold getattr_miss, mbind_M, try_except.
  destruct (from_input_absent item idx n Hidx Es Hnth) as (n1 & -> & Hi1 & Hf1).
  unfold default_zero_point, mbind_M. cbn [is_none andb]. rewrite Ez.
  pose proof (getattr_A_footprint n n1 a (Hf1 _ (not_eq_sym HneA)) Hi1 HA) as HA1.
  destruct (getattr_A n1) as [ra n2] eqn:E1. cbn [fst] in HA1. subst ra.
  unfold mreturn. cbn [is_none negb].
  destruct (getattr_A_spec _ _ _ E1) as (_ & _ & Hst).
  specialize (Hst (PArr a) eq_refl ltac:(discriminate)).
  assert (E2 : getattr_A n2 = (Returns (PArr a), n2))
    by (apply getattr_with_hit; [exact Hst | discriminate]).
  rewrite E2. unfold lift, py_dtype, store_tensor. cbn [is_none fst snd].
  split; [reflexivity|].
  eexists. split; [apply lookup_insert_eq | reflexivity].
Qed.
End AttributeClaims.

(** Witness of C3: the declared output scale of [declared_node] is
    returned although input 6 holds another scale. *)
Lemma declared_attribute_wins_witness :
  getattr (P := indefinite_platform) (B := plain_base) "C_scale" declared_node
    = (Returns (PArr (scalar_f32 f_half)), declared_node) /\
  getattr (P := indefinite_platform) (B := plain_base) "C_scale"
          (with_inputs declared_node [])
    = (Returns (PArr (scalar_f32 f_half)), with_inputs declared_node []).
Proof.
  apply (declared_attribute_wins (P := indefinite_platform) (B := plain_base)
           "C_scale" declared_node declared_scale []).
  - simpl. tauto.
  - reflexivity.
  - discriminate.
Defined.

(** Witness of C4 (amended): on [five_inputs_node] the zero point of B
    defaults to a uint8 zero, the element type of A. *)
Lemma zero_point_defaults_to_A_dtype_witness :
  (getattr (P := indefinite_platform) (B := plain_base)
           "B_zero_point" five_inputs_node).1
    = Returns (PArr (np_zero uint8)) /\
  stored (getattr (P := indefinite_platform) (B := plain_base)
                  "B_zero_point" five_inputs_node).2
         "B_zero_point" (PArr (np_zero uint8)).
Proof.
  apply (zero_point_defaults_to_A_dtype (P := indefinite_platform)
           (B := plain_base) "B_zero_point" 5 five_inputs_node
           (vec uint8 [10; 20])).
  - simpl. tauto.
  - reflexivity.
  - intros w (x & Hx & _). discriminate Hx.
  - reflexivity.
  - reflexivity.
Defined.

(** C4 as stated fails: the zero point of B does not default to a zero of
    the element type of B, its companion tensor. *)
Lemma zero_point_default_ignores_companion :
  ~ (forall n b,
        none_at n "B_zero_point" ->
        nth 5 (inputs n) None = None ->
        (getattr (P := indefinite_platform) (B := plain_base) "B" n).1
          = Returns (PArr b) ->
        (getattr (P := indefinite_platform) (B := plain_base)
                 "B_zero_point" n).1
          = Returns (PArr (np_zero (dt b)))).
Proof.
  intros H.
  specialize (H five_inputs_node (vec int8 [5; 5])).
  assert (E : (getattr (P := indefinite_platform) (B := plain_base)
                 "B_zero_point" five_inputs_node).1
              = Returns (PArr (np_zero uint8))) by reflexivity.
  rewrite E in H.
  assert (Returns (PArr (np_zero uint8)) =
          Returns (PArr (np_zero (dt (vec int8 [5; 5]))))) as Habs.
  { apply H.
    - intros w (x & Hx & _). discriminate Hx.
    - reflexivity.
    - reflexivity. }
  discriminate Habs.
Qed.

(** * Inference of the quantized add *)

Section ArityCheck.
Context {P : Platform} {B : OpBase}.

(** Looking up the node's name leaves the object as it is. *)
Lemma getattr_name_pure n : (getattr "name" n).2 = n.
Proof.
  unfold getattr. rewrite getattr_with_unfold.
  destruct (attr n !! "name"%string) as [a|];
    [destruct (is_none (attr_value a)); [|reflexivity]|];
    unfold getattr_miss, mbind_M, try_except, from_input; cbn;
    reflexivity.
Qed.

(** C5 (amended). With fewer than seven inputs [infer_shape] raises, and
    leaves the object (its store and its output tensor) as it was; when
    the base class's [infer_shape] returns and the node's name can be
    looked up, what is raised is the [AssertionError] of the check on
    the number of inputs, before any input tensor is read. *)
Lemma infer_shape_too_few n :
  (length (inputs n) < 7)%nat ->
  infer_shape n =
  match super_infer_shape n with
  | Returns _ =>
      match (getattr "name" n).1 with
      | Returns name =>
          (Raises (AssertionError (invalid_inputs_msg name)), n)
      | Raises e => (Raises e, n)
      end
  | Raises e => (Raises e, n)
  end.
Proof.
  intros Hlen.
  assert (Hlt : (7 <=? length (inputs n))%nat = false)
    by (apply Nat.leb_gt; exact Hlen).
  pose proof (getattr_name_pure n) as Hpure.
  unfold infer_shape, mbind_M at 1, self_call.
  destruct (super_infer_shape n) as [[]|e] eqn:Es; [|reflexivity].
  unfold mbind_M at 1, get_input_tensors.
  unfold mbind_M at 1. rewrite Hlt. unfold mbind_M at 1.
  destruct (getattr "name" n) as [r n'] eqn:En. cbn [snd] in Hpure.
  subst n'. destruct r as [name|e]; reflexivity.
Qed.

Theorem too_few_inputs_raise n :
  (length (inputs n) < 7)%nat ->
  (exists e, infer_shape n = (Raises e, n)) /\
  (super_infer_shape n = Returns tt ->
   forall name, (getattr "name" n).1 = Returns name ->
     infer_shape n = (Raises (AssertionError (invalid_inputs_msg name)), n)).
Proof.
  intros Hlen. rewrite (infer_shape_too_few n Hlen). split.
  - destruct (super_infer_shape n); [|eexists; reflexivity].
    destruct (getattr "name" n).1; eexists; reflexivity.
  - intros -> name ->. reflexivity.
Qed.
End ArityCheck.

(** Witness of C5 (amended), on the node with five inputs. *)
Lemma too_few_inputs_raise_witness :
  (exists e, infer_shape (P := indefinite_platform) (B := plain_base)
               five_inputs_node = (Raises e, five_inputs_node)) /\
  (super_infer_shape (OpBase := plain_base) five_inputs_node = Returns tt ->
   forall name,
     (getattr (P := indefinite_platform) (B := plain_base)
              "name" five_inputs_node).1 = Returns name ->
     infer_shape (P := indefinite_platform) (B := plain_base) five_inputs_node
       = (Raises (AssertionError (invalid_inputs_msg name)), five_inputs_node)).
Proof.
  apply (too_few_inputs_raise (P := indefinite_platform) (B := plain_base)
           five_inputs_node).
  simpl. lia.
Defined.

(** C5 as stated fails: on a node with five inputs an exception escapes
    [infer_shape]; no error is returned as a value. *)
Lemma too_few_inputs_exception_escapes :
  infer_shape (P := indefinite_platform) (B := plain_base) five_inputs_node
    = (Raises (AssertionError
                 "Meets invalid inputs length of QLinearAddMs op (None)"),
       five_inputs_node) /\
  ~ (exists n', infer_shape (P := indefinite_platform) (B := plain_base)
                  five_inputs_node = (Returns tt, n')).
Proof.
  assert (E : infer_shape (P := indefinite_platform) (B := plain_base)
                five_inputs_node
              = (Raises (AssertionError
                   "Meets invalid inputs length of QLinearAddMs op (None)"),
                 five_inputs_node)) by reflexivity.
  split; [exact E|]. intros (n' & Hn'). rewrite E in Hn'. discriminate.
Qed.

(** C2. On the scenario of the specification, inference returns and sets
    the output tensor to [8, 12] of dtype uint8. *)
Theorem scenario_output (P : Platform) :
  (infer_shape (B := plain_base) scenario_node).1 = Returns tt /\
  out_tensor (infer_shape (B := plain_base) scenario_node).2
    = Some (vec uint8 [8; 12]).
Proof. split; vm_compute; reflexivity. Qed.

Section InferShapeRuns.
Context {P : Platform} {B : OpBase}.

Lemma bind_returns {X Y} (c : M X) (k : X -> M Y) n r n' :
  mbind_M c k n = (Returns r, n') ->
  exists a n1, c n = (Returns a, n1) /\ k a n1 = (Returns r, n').
Proof.
  unfold mbind_M. destruct (c n) as [[a|e] n1]; [eauto | discriminate].
Qed.

Lemma lift_returns {X} (r : result X) n a n' :
  lift r n = (Returns a, n') -> r = Returns a /\ n' = n.
Proof. unfold lift. intros [= -> ->]. auto. Qed.

Lemma py_astype_returns o t a :
  py_astype o t = Returns a -> exists x, o = PArr x /\ a = np_astype t x.
Proof. destruct o; simpl; [discriminate | | discriminate]. intros [= <-]. eauto. Qed.

Lemma py_binop_returns op a o r :
  py_binop op a o = Returns r -> exists x, o = PArr x /\ op a x = Returns r.
Proof. destruct o; simpl; [discriminate | | discriminate]. eauto. Qed.

Lemma py_dtype_returns o t :
  py_dtype o = Returns t -> exists x, o = PArr x /\ t = dt x.
Proof. destruct o; simpl; [discriminate | | discriminate]. intros [= <-]. eauto. Qed.

(** A lookup that yields an array leaves it in the store, together with
    everything the store held. *)
Lemma getattr_returns_array item n x n' :
  getattr item n = (Returns (PArr x), n') ->
  preserves n n' /\ stored n' item (PArr x).
Proof.
  intros H. destruct (getattr_spec _ _ _ _ H) as (Pn & _ & Hst).
  split; [exact Pn|]. apply Hst; [reflexivity | discriminate].
Qed.

Lemma preserves_stored n n' k x :
  preserves n n' -> stored n k (PArr x) -> stored n' k (PArr x).
Proof. intros (_ & _ & Hs) H. apply Hs; [exact H | discriminate]. Qed.

Local Ltac push_stored Pk :=
  repeat match goal with
         | H : stored ?n _ (PArr _) |- _ =>
             match type of Pk with
             | preserves n _ => apply (preserves_stored _ _ _ _ Pk) in H
             end
         end.

(* One lookup whose value is then used as an array. *)
Local Ltac read_fresh H v n2 Hget :=
  apply bind_returns in H as (v & n2 & Hget & H).
Local Ltac use_lift H x Hx :=
  let n := fresh "n" in
  apply bind_returns in H as (x & n & Hx & H);
  apply lift_returns in Hx as (Hx & ->).
Local Ltac settle Hget Hpres :=
  let Pk := fresh "Pk" in
  let S := fresh "S" in
  apply getattr_returns_array in Hget as (Pk & S);
  push_stored Pk;
  apply (fun X => preserves_trans _ _ _ X Pk) in Hpres;
  clear Pk.
Local Ltac read_again H Hst :=
  let v := fresh "v" in
  let n := fresh "n" in
  let Hget := fresh "Hget" in
  apply bind_returns in H as (v & n & Hget & H);
  rewrite (getattr_hit _ _ _ Hst) in Hget by discriminate;
  injection Hget as <- <-.

(** A run of [infer_shape] that returns has resolved the eight attributes
    to arrays, which it leaves in the store, and has set the output tensor
    to [qlinear_add] of them. *)
Lemma infer_shape_returns n n' :
  infer_shape n = (Returns tt, n') ->
  exists A Az As_ B_ Bz Bs Cs Cz out nf,
    super_infer_shape n = Returns tt /\ (7 <= length (inputs n))%nat /\
    preserves n nf /\ resolved nf A Az As_ B_ Bz Bs Cs Cz /\
    qlinear_add A Az As_ B_ Bz Bs Cs Cz = Returns out /\
    n' = with_out nf out.
Proof.
  intros H. unfold infer_shape in H.
  apply bind_returns in H as ([] & n0 & Hs & H).
  unfold self_call in Hs. injection Hs as Hs <-.
  apply bind_returns in H as (ins & n0 & Hi & H).
  unfold get_input_tensors in Hi. injection Hi as <- <-.
  apply bind_returns in H as ([] & n1 & Hc & H).
  destruct (7 <=? length (inputs n))%nat eqn:Hlen; cycle 1.
  { apply bind_returns in Hc as (? & ? & _ & Hc). discriminate Hc. }
  injection Hc as <-. apply Nat.leb_le in Hlen.
  pose proof (preserves_refl n) as Hpres.
  (* float_a *)
  read_fresh H vA n2 HA. use_lift H a32 Ha32.
  apply py_astype_returns in Ha32 as (A & -> & ->). settle HA Hpres.
  read_fresh H vAz n3 HAz. use_lift H da Hda.
  apply py_binop_returns in Hda as (Az & -> & Hda). settle HAz Hpres.
  read_fresh H vAs n4 HAs. use_lift H fa Hfa.
  apply py_binop_returns in Hfa as (As_ & -> & Hfa). settle HAs Hpres.
  (* float_b *)
  read_fresh H vB n5 HB. use_lift H b32 Hb32.
  apply py_astype_returns in Hb32 as (B_ & -> & ->). settle HB Hpres.
  read_fresh H vBz n6 HBz. use_lift H db Hdb.
  apply py_binop_returns in Hdb as (Bz & -> & Hdb). settle HBz Hpres.
  read_fresh H vBs n7 HBs. use_lift H fb Hfb.
  apply py_binop_returns in Hfb as (Bs & -> & Hfb). settle HBs Hpres.
  use_lift H fy Hfy.
  (* out_min, out_max *)
  read_fresh H vCz n8 HCz. use_lift H t Ht.
  apply py_dtype_returns in Ht as (Cz & -> & ->). settle HCz Hpres.
  use_lift H mm Hmm.
  match goal with S : stored n8 "C_zero_point" _ |- _ => rename S into SCz end.
  read_again H SCz. use_lift H t Ht. injection Ht as <-.
  use_lift H mm' Hmm'. rewrite Hmm in Hmm'. injection Hmm' as <-.
  (* out_tensor *)
  read_fresh H vCs n9 HCs. use_lift H q Hq.
  apply py_binop_returns in Hq as (Cs & -> & Hq). settle HCs Hpres.
  read_again H SCz. use_lift H s Hs'.
  apply py_binop_returns in Hs' as (Cz' & [= <-] & Hs').
  read_again H SCz. use_lift H t Ht. injection Ht as <-.
  unfold set_out_tensor in H. injection H as <-.
  exists A, Az, As_, B_, Bz, Bs, Cs, Cz. eexists. exists n9.
  split; [exact Hs|]. split; [exact Hlen|]. split; [exact Hpres|].
  split; [unfold resolved; auto 10|].
  split; [|reflexivity].
  unfold qlinear_add, dequantize, requantize.
  rewrite Hda. cbn [mbind result_bind]. rewrite Hfa. cbn [mbind result_bind].
  rewrite Hdb. cbn [mbind result_bind]. rewrite Hfb. cbn [mbind result_bind].
  rewrite Hfy. cbn [mbind result_bind]. rewrite Hmm. cbn [mbind result_bind].
  rewrite Hq. cbn [mbind result_bind]. rewrite Hs'. reflexivity.
Qed.
End InferShapeRuns.

(** * Re-running inference *)

Section Idempotence.
Context {P : Platform} {B : OpBase}.

Lemma bind_hit {X Y} (c : M X) (k : X -> M Y) n a :
  c n = (Returns a, n) -> mbind_M c k n = k a n.
Proof. unfold mbind_M. intros ->. reflexivity. Qed.

Lemma result_bind_returns {X Y} (c : result X) (k : X -> result Y) r :
  (x ← c; k x) = Returns r -> exists a, c = Returns a /\ k a = Returns r.
Proof. destruct c as [a|e]; [eauto | discriminate]. Qed.

(** With the eight attributes in the store, [infer_shape] needs the inputs
    for the check of their number only. *)
Lemma infer_shape_resolved n A Az As_ B_ Bz Bs Cs Cz out :
  super_infer_shape n = Returns tt -> (7 <= length (inputs n))%nat ->
  resolved n A Az As_ B_ Bz Bs Cs Cz ->
  qlinear_add A Az As_ B_ Bz Bs Cs Cz = Returns out ->
  infer_shape n = (Returns tt, with_out n out).
Proof.
  intros Hs Hlen (SA & SAz & SAs & SB & SBz & SBs & SCs & SCz) Hq.
  unfold qlinear_add, dequantize, requantize in Hq.
  apply result_bind_returns in Hq as (fa & Hfa & Hq).
  apply result_bind_returns in Hfa as (da & Hda & Hfa).
  apply result_bind_returns in Hq as (fb & Hfb & Hq).
  apply result_bind_returns in Hfb as (db & Hdb & Hfb).
  apply result_bind_returns in Hq as (fy & Hfy & Hq).
  apply result_bind_returns in Hq as (mm & Hmm & Hq).
  apply result_bind_returns in Hq as (q & Hdiv & Hq).
  apply result_bind_returns in Hq as (s & Hadd & Hq).
  injection Hq as <-.
  apply Nat.leb_le in Hlen.
  unfold infer_shape.
  rewrite (bind_hit (self_call super_infer_shape) _ n tt)
    by (unfold self_call; rewrite Hs; reflexivity).
  rewrite (bind_hit get_input_tensors _ n (inputs n)) by reflexivity.
  rewrite Hlen. rewrite (bind_hit (mreturn tt) _ n tt) by reflexivity.
  rewrite (bind_hit _ _ n _ (getattr_hit _ _ _ SA ltac:(discriminate))).
  rewrite (bind_hit (lift _) _ n (np_astype int32 A)) by reflexivity.
  rewrite (bind_hit _ _ n _ (getattr_hit _ _ _ SAz ltac:(discriminate))).
  rewrite (bind_hit (lift _) _ n da) by (unfold lift; simpl; rewrite Hda; reflexivity).
  rewrite (bind_hit _ _ n _ (getattr_hit _ _ _ SAs ltac:(discriminate))).
  rewrite (bind_hit (lift _) _ n fa) by (unfold lift; simpl; rewrite Hfa; reflexivity).
  rewrite (bind_hit _ _ n _ (getattr_hit _ _ _ SB ltac:(discriminate))).
  rewrite (bind_hit (lift _) _ n (np_astype int32 B_)) by reflexivity.
  rewrite (bind_hit _ _ n _ (getattr_hit _ _ _ SBz ltac:(discriminate))).
  rewrite (bind_hit (lift _) _ n db) by (unfold lift; simpl; rewrite Hdb; reflexivity).
  rewrite (bind_hit _ _ n _ (getattr_hit _ _ _ SBs ltac:(discriminate))).
  rewrite (bind_hit (lift _) _ n fb) by (unfold lift; simpl; rewrite Hfb; reflexivity).
  rewrite (bind_hit (lift _) _ n fy) by (unfold lift; rewrite Hfy; reflexivity).
  rewrite (bind_hit _ _ n _ (getattr_hit _ _ _ SCz ltac:(discriminate))).
  rewrite (bind_hit (lift _) _ n (dt Cz)) by reflexivity.
  rewrite (bind_hit (lift _) _ n mm) by (unfold lift; rewrite Hmm; reflexivity).
  rewrite (bind_hit _ _ n _ (getattr_hit _ _ _ SCz ltac:(discriminate))).
  rewrite (bind_hit (lift _) _ n (dt Cz)) by reflexivity.
  rewrite (bind_hit (lift _) _ n mm) by (unfold lift; rewrite Hmm; reflexivity).
  rewrite (bind_hit _ _ n _ (getattr_hit _ _ _ SCs ltac:(discriminate))).
  rewrite (bind_hit (lift _) _ n q) by (unfold lift; simpl; rewrite Hdiv; reflexivity).
  rewrite (bind_hit _ _ n _ (getattr_hit _ _ _ SCz ltac:(discriminate))).
  rewrite (bind_hit (lift _) _ n s) by (unfold lift; simpl; rewrite Hadd; reflexivity).
  rewrite (bind_hit _ _ n _ (getattr_hit _ _ _ SCz ltac:(discriminate))).
  rewrite (bind_hit (lift _) _ n (dt Cz)) by reflexivity.
  reflexivity.
Qed.

(** C9. When a run of inference on a node returns, a second run on the
    node as the first run left it (same inputs, the store with the
    attributes the first run cached, the output tensor it set) returns as
    well and leaves the node as it is: the output tensor of the second run
    is that of the first, in shape, dtype and value. *)
Theorem infer_shape_idempotent n n1 :
  infer_shape n = (Returns tt, n1) ->
  infer_shape n1 = (Returns tt, n1).
Proof.
  intros H.
  destruct (infer_shape_returns _ _ H)
    as (A & Az & As_ & B_ & Bz & Bs & Cs & Cz & out & nf &
        Hs & Hlen & (Hi & _ & _) & Hres & Hq & ->).
  assert (Hfix : with_out (with_out nf out) out = with_out nf out) by reflexivity.
  rewrite <- Hfix at 2.
  apply (infer_shape_resolved _ A Az As_ B_ Bz Bs Cs Cz).
  - rewrite <- Hs. apply super_infer_shape_inputs. simpl. exact Hi.
  - simpl. rewrite Hi. exact Hlen.
  - exact Hres.
  - exact Hq.
Qed.
End Idempotence.

(** Witness of C9: the second run on the scenario node. *)
Lemma infer_shape_idempotent_witness :
  let n1 := (infer_shape (P := indefinite_platform) (B := plain_base)
                         scenario_node).2 in
  infer_shape (P := indefinite_platform) (B := plain_base) n1
    = (Returns tt, n1).
Proof.
  apply (infer_shape_idempotent (P := indefinite_platform) (B := plain_base)
           scenario_node).
  vm_compute. reflexivity.
Defined.

(** * Integer ranges: saturation and the integer subtraction *)

Lemma wrap_in_range sg w z : in_range sg w (wrap sg w z).
Proof.
  unfold in_range, wrap, int_min, int_max.
  destruct sg, w; cbn [bits];
    match goal with
    | |- context [?a mod ?b] =>
        pose proof (Z.mod_pos_bound a b ltac:(lia))
    end; lia.
Qed.

Lemma wrap_id sg w z : in_range sg w z -> wrap sg w z = z.
Proof.
  unfold in_range, wrap, int_min, int_max.
  destruct sg, w; cbn [bits]; intros H;
    rewrite Z.mod_small by lia; lia.
Qed.

Section Ranges.
Context {P : Platform}.

Lemma float_to_int_in_range sg w x : in_range sg w (float_to_int sg w x).
Proof.
  unfold float_to_int. destruct (F2Z_trunc x) as [z|]; [|apply wrap_in_range].
  destruct ((int_min sg w <=? z) && (z <=? int_max sg w)) eqn:E;
    [|apply wrap_in_range].
  apply andb_true_iff in E as [E1 E2]. unfold in_range. lia.
Qed.

(** Whatever is cast to an integer dtype is an element of that dtype. *)
Lemma cast_int_elem sg w x : int_elem sg w (cast (DInt sg w) x).
Proof.
  destruct x as [z|f]; simpl; eexists; (split; [reflexivity|]).
  - apply wrap_in_range.
  - apply float_to_int_in_range.
Qed.

Lemma astype_int_array sg w a : int_array sg w (np_astype (DInt sg w) a).
Proof.
  split; [reflexivity|]. simpl. apply Forall_map, Forall_true.
  intros x. apply cast_int_elem.
Qed.

(** C6. Whenever [requantize] returns, for any tensor [float_y] and scale,
    the zero point has an integer dtype T, the result has dtype T, and
    every element of the result lies within [[min(T), max(T)]]. *)
Theorem requantize_in_range float_y scale zero_point out :
  requantize float_y scale zero_point = Returns out ->
  exists sg w,
    dt zero_point = DInt sg w /\ dt out = DInt sg w /\
    Forall (fun x => exists z, x = SI z /\ int_min sg w <= z <= int_max sg w)
           (data out).
Proof.
  unfold requantize. intros H.
  destruct (np_iinfo (dt zero_point)) as [mm|e] eqn:Emm; [|discriminate].
  destruct (dt zero_point) as [|sg w|fw] eqn:Et; try discriminate.
  cbn [mbind result_bind] in H.
  destruct (np_divide float_y scale) as [q|e]; [|discriminate].
  cbn [mbind result_bind] in H.
  destruct (np_add (np_around q) zero_point) as [s|e]; [|discriminate].
  injection H as <-. exists sg, w. split; [reflexivity|].
  apply (astype_int_array sg w).
Qed.
End Ranges.

Section Subtraction.
Context {P : Platform}.

Lemma zip_with_ext_Forall {X Y Z'} (f g : X -> Y -> Z')
      (PX : X -> Prop) (PY : Y -> Prop) l1 l2 :
  (forall a b, PX a -> PY b -> f a b = g a b) ->
  Forall PX l1 -> Forall PY l2 -> zip_with f l1 l2 = zip_with g l1 l2.
Proof.
  intros Hfg H1. revert l2. induction H1 as [|a l1 Ha _ IH]; intros l2 H2.
  - reflexivity.
  - destruct H2 as [|b l2 Hb H2]; [reflexivity|]. simpl.
    rewrite Hfg by assumption. f_equal. apply IH, H2.
Qed.

Lemma zip_with_map {X X' Y Y' Z'} (f : X' -> Y' -> Z') (g : X -> X')
      (h : Y -> Y') l1 l2 :
  zip_with f (map g l1) (map h l2) = zip_with (fun a b => f (g a) (h b)) l1 l2.
Proof.
  revert l2. induction l1 as [|a l1 IH]; intros [|b l2]; simpl; auto.
  f_equal. apply IH.
Qed.

(** Every element seen through a broadcast is an element of the array, or
    the filler [SI 0]. *)
Lemma broadcast_to_Forall (Q : scalar -> Prop) s a :
  Q (SI 0) -> Forall Q (data a) -> Forall Q (broadcast_to s a).
Proof.
  intros H0 Ha. unfold broadcast_to. apply Forall_map, Forall_true. intros i.
  destruct (nth_in_or_default (src_index (rev s) (rev (shape a)) i)
                              (data a) (SI 0)) as [Hin| ->]; [|exact H0].
  rewrite Forall_forall in Ha. apply Ha, list_elem_of_In, Hin.
Qed.

Lemma broadcast_to_astype s t a :
  cast t (SI 0) = SI 0 ->
  broadcast_to s (np_astype t a) = map (cast t) (broadcast_to s a).
Proof.
  intros H0. unfold broadcast_to, np_astype. cbn [shape data].
  rewrite map_map. apply map_ext. intros i.
  rewrite <- H0 at 1. apply map_nth.
Qed.

Lemma narrow_in_int32 sg w z :
  narrow w -> in_range sg w z -> - 2 ^ 16 <= z <= 2 ^ 16.
Proof.
  unfold in_range, int_min, int_max.
  intros [-> | ->]; destruct sg; cbn [bits]; lia.
Qed.

Lemma int_elem_zero sg w : int_elem sg w (SI 0).
Proof.
  exists 0. split; [reflexivity|]. unfold in_range, int_min, int_max.
  destruct sg, w; cbn [bits]; lia.
Qed.

Lemma narrow_sub_exact sx wx sz wz a b :
  narrow wx -> narrow wz -> int_elem sx wx a -> int_elem sz wz b ->
  int_op Z.sub true W32 (cast int32 (cast int32 a)) (cast int32 b)
  = exact_sub a b.
Proof.
  intros Hx Hz (za & -> & Ha) (zb & -> & Hb).
  apply (narrow_in_int32 _ _ _ Hx) in Ha.
  apply (narrow_in_int32 _ _ _ Hz) in Hb.
  cbn [cast int32 int_op exact_sub].
  assert (in32 : forall z, - 2 ^ 17 <= z <= 2 ^ 17 -> wrap true W32 z = z).
  { intros z Hz'. apply wrap_id. unfold in_range, int_min, int_max.
    cbn [bits]. lia. }
  rewrite !(in32 za), (in32 zb), in32 by lia. reflexivity.
Qed.

Lemma promote_int32_narrow sz wz :
  narrow wz -> promote_types int32 (DInt sz wz) = int32.
Proof. intros [-> | ->]; destruct sz; reflexivity. Qed.

End Subtraction.


(** Witness of C6: 7.5 and NaN requantized to uint8 with scale 1.0. *)
Lemma requantize_in_range_witness :
  exists sg w,
    dt (scalar_int uint8 0) = DInt sg w /\ dt (vec uint8 [8; 0]) = DInt sg w /\
    Forall (fun x => exists z, x = SI z /\ int_min sg w <= z <= int_max sg w)
           (data (vec uint8 [8; 0])).
Proof.
  apply (requantize_in_range (P := indefinite_platform) float_y_sample
           (scalar_f32 f_one) (scalar_int uint8 0) (vec uint8 [8; 0])).
  vm_compute. reflexivity.
Defined.


(** * The conversion of torch's [equal] *)

Section ConvertEqual.
Import Torch.
Variable scalarType : value -> option string.
Variable tensor_sizes : value -> option (list (option Z)).

(** Tensors of different static shapes: one [Constant] node holding
    [False] is emitted and returned, and no comparison. *)
Lemma convert_equal_shapes_differ input other g :
  tensor_sizes input <> tensor_sizes other ->
  convert_equal scalarType tensor_sizes input other g =
  Returns (next_value g,
           {| nodes := nodes g ++
                [mk_gnode "Constant" [] [("value"%string, ABoolTensor false)]
                          (next_value g)];
              next_value := S (next_value g) |}).
Proof.
  intros Hne. unfold convert_equal.
  rewrite bool_decide_eq_true_2 by exact Hne. reflexivity.
Qed.

(** Boolean tensors of the same static shape: the emitted nodes are
    [Not(ReduceSum(Not(Equal(input, other))))]. *)
Lemma convert_equal_bool_inputs input other g :
  tensor_sizes input = tensor_sizes other ->
  scalarType input = Some "Bool"%string ->
  scalarType other = Some "Bool"%string ->
  let v := next_value g in
  convert_equal scalarType tensor_sizes input other g =
  Returns (S (S (S v)),
           {| nodes := (((nodes g ++
                [mk_gnode "Equal" [input; other] [] v]) ++
                [mk_gnode "Not" [v] [] (S v)]) ++
                [mk_gnode "ReduceSum" [S v] [("keepdims"%string, AInt 0)]
                          (S (S v))]) ++
                [mk_gnode "Not" [S (S v)] [] (S (S (S v)))];
              next_value := S (S (S (S v))) |}).
Proof.
  intros Hs Hi Ho. unfold convert_equal, convert_logical, convert_to_bool.
  rewrite bool_decide_eq_false_2 by (intros H; apply H; exact Hs).
  rewrite Hi, Ho. reflexivity.
Qed.

(** Tensors of the same static shape whose element type is not Bool:
    each operand of [Equal] is a [Cast] to Bool of the argument. *)
Lemma convert_equal_other_inputs input other g :
  tensor_sizes input = tensor_sizes other ->
  scalarType input <> Some "Bool"%string ->
  scalarType other <> Some "Bool"%string ->
  let v := next_value g in
  convert_equal scalarType tensor_sizes input other g =
  Returns (S (S (S (S (S v)))),
           {| nodes := (((((nodes g ++
                [mk_gnode "Cast" [input] [("to"%string, AInt BOOL)] v]) ++
                [mk_gnode "Cast" [other] [("to"%string, AInt BOOL)] (S v)]) ++
                [mk_gnode "Equal" [v; S v] [] (S (S v))]) ++
                [mk_gnode "Not" [S (S v)] [] (S (S (S v)))]) ++
                [mk_gnode "ReduceSum" [S (S (S v))]
                          [("keepdims"%string, AInt 0)] (S (S (S (S v))))]) ++
                [mk_gnode "Not" [S (S (S (S v)))] [] (S (S (S (S (S v)))))];
              next_value := S (S (S (S (S (S v))))) |}).
Proof.
  intros Hs Hi Ho. unfold convert_equal, convert_logical, convert_to_bool.
  rewrite bool_decide_eq_false_2 by (intros H; apply H; exact Hs).
  rewrite !bool_decide_eq_true_2 by assumption. reflexivity.
Qed.
End ConvertEqual.

(** C10 (the code departs from it). For the int64 tensors [2] and [3] of
    the same static shape, [convert_equal] emits
    [Not(ReduceSum(Not(Equal(Cast(input), Cast(other)))))] with both casts
    to Bool, and the returned value is true at run time although the
    elements differ. *)
Theorem convert_equal_long_inputs :
  exists g,
    Torch.convert_equal long_type shape_1 0%nat 1%nat two_args_graph
      = Returns (7%nat, g) /\
    map Torch.op_type (Torch.nodes g)
      = ["Cast"; "Cast"; "Equal"; "Not"; "ReduceSum"; "Not"]%string /\
    map Torch.op_inputs (Torch.nodes g)
      = [[0]; [1]; [2; 3]; [4]; [5]; [6]]%nat /\
    Torch.eval_value g run_time_2_3 7%nat = Some [1].
Proof.
  eexists. split; [reflexivity|]. split; [reflexivity|].
  split; [reflexivity|]. vm_compute. reflexivity.
Qed.

(** * Binary64 arithmetic: rounding *)

(** ** Shifting a mantissa right while recording what is lost *)

Lemma iter_pos_nat {X} (f : X -> X) p x :
  SpecFloat.iter_pos f p x = Nat.iter (Pos.to_nat p) f x.
Proof.
  revert x. induction p as [p IH|p IH|]; intros x; simpl SpecFloat.iter_pos.
  - rewrite !IH, Pos2Nat.inj_xI.
    replace (S (2 * Pos.to_nat p))
      with (Pos.to_nat p + (Pos.to_nat p + 1))%nat by lia.
    rewrite !Nat.iter_add. reflexivity.
  - rewrite !IH, Pos2Nat.inj_xO.
    replace (2 * Pos.to_nat p)%nat
      with (Pos.to_nat p + Pos.to_nat p)%nat by lia.
    rewrite Nat.iter_add. reflexivity.
  - reflexivity.
Qed.

(** [located a b mrs]: the record [mrs] describes the rational [a / b]:
    its integer part, whether the rest reaches one half, and whether the
    rest is neither zero nor one half. *)
Definition located (a b : Z) (mrs : shr_record) : Prop :=
  shr_m mrs = a / b /\
  shr_r mrs = (b <=? 2 * (a mod b)) /\
  shr_s mrs = negb ((2 * (a mod b)) mod b =? 0).

Lemma shr_1_spec mrs :
  0 <= shr_m mrs ->
  shr_1 mrs = {| shr_m := Z.div2 (shr_m mrs); shr_r := Z.odd (shr_m mrs);
                 shr_s := orb (shr_r mrs) (shr_s mrs) |}.
Proof.
  destruct mrs as [m r s]. cbn [shr_m shr_r shr_s]. intros Hm.
  destruct m as [|[p|p|]|p]; try lia; reflexivity.
Qed.

Lemma located_shr_1 a b mrs :
  0 <= a -> 0 < b -> located a b mrs -> located a (2 * b) (shr_1 mrs).
Proof.
  intros Ha Hb (Hm & Hr & Hs).
  pose proof (Z.div_mod a b ltac:(lia)) as Eab.
  pose proof (Z.mod_pos_bound a b Hb) as Bab.
  pose proof (Z.div_pos a b Ha Hb) as Qab.
  set (q := a / b) in *. set (rho := a mod b) in *.
  assert (Ediv : a / (2 * b) = q / 2 /\ a mod (2 * b) = (q mod 2) * b + rho).
  { pose proof (Z.div_mod q 2 ltac:(lia)) as Eq2.
    pose proof (Z.mod_pos_bound q 2 ltac:(lia)) as Bq2.
    apply (Z.div_mod_unique (2 * b)).
    - left. apply Z.mod_pos_bound. lia.
    - left. nia.
    - rewrite <- (Z.div_mod a (2 * b)) by lia. nia. }
  destruct Ediv as (Ed & Em).
  assert (Hrs : orb (shr_r mrs) (shr_s mrs) = negb (rho =? 0)).
  { rewrite Hr, Hs. destruct (Z.leb_spec b (2 * rho)).
    - simpl. destruct (Z.eqb_spec rho 0); [lia | reflexivity].
    - simpl. rewrite Z.mod_small by lia.
      destruct (Z.eqb_spec (2 * rho) 0), (Z.eqb_spec rho 0); lia || reflexivity. }
  pose proof (Z.div_mod q 2 ltac:(lia)) as Eq2.
  pose proof (Z.mod_pos_bound q 2 ltac:(lia)) as Bq2.
  assert (Hstep : shr_m (shr_1 mrs) = q / 2 /\
                  shr_r (shr_1 mrs) = negb (q mod 2 =? 0) /\
                  shr_s (shr_1 mrs) = orb (shr_r mrs) (shr_s mrs)).
  { rewrite (shr_1_spec mrs) by (rewrite Hm; exact Qab).
    cbn [shr_m shr_r shr_s]. rewrite Hm, Z.div2_div, Zmod_odd.
    repeat split. destruct (Z.odd q); reflexivity. }
  destruct Hstep as (Hm' & Hr' & Hs').
  split; [rewrite Hm', Ed; reflexivity|]. split.
  - rewrite Hr', Em.
    destruct (Z.eqb_spec (q mod 2) 0) as [E0|E0]; simpl.
    + rewrite E0. symmetry. apply Z.leb_gt. lia.
    + symmetry. apply Z.leb_le. nia.
  - rewrite Hs', Hrs, Em. f_equal.
    assert (q mod 2 = 0 \/ q mod 2 = 1) as [E0|E0] by lia; rewrite E0.
    + replace (2 * (0 * b + rho)) with (2 * rho) by lia.
      destruct (Z.eqb_spec rho 0) as [->|Hne].
      * reflexivity.
      * rewrite Z.mod_small by lia. symmetry. apply Z.eqb_neq. lia.
    + replace (2 * (1 * b + rho)) with (2 * rho + 1 * (2 * b)) by lia.
      rewrite Z.mod_add by lia.
      destruct (Z.eqb_spec rho 0) as [->|Hne].
      * reflexivity.
      * rewrite Z.mod_small by lia. symmetry. apply Z.eqb_neq. lia.
Qed.

Lemma located_iter a b mrs (k : nat) :
  0 <= a -> 0 < b -> located a b mrs ->
  located a (b * 2 ^ Z.of_nat k) (Nat.iter k shr_1 mrs).
Proof.
  intros Ha Hb H. induction k as [|k IH].
  - simpl. rewrite Z.mul_1_r. exact H.
  - rewrite Nat2Z.inj_succ, Z.pow_succ_r by lia. cbn [Nat.iter].
    replace (b * (2 * 2 ^ Z.of_nat k)) with (2 * (b * 2 ^ Z.of_nat k)) by lia.
    apply located_shr_1; [exact Ha | | exact IH].
    pose proof (Z.pow_pos_nonneg 2 (Z.of_nat k)). nia.
Qed.

Lemma shr_located a b mrs e n :
  0 <= a -> 0 < b -> located a b mrs -> 0 <= n ->
  located a (b * 2 ^ n) (shr mrs e n).1 /\ (shr mrs e n).2 = e + n.
Proof.
  intros Ha Hb H Hn. destruct n as [|p|p]; [| |lia].
  - simpl. rewrite Z.mul_1_r. split; [exact H | lia].
  - cbn [shr fst snd]. split; [|reflexivity].
    rewrite iter_pos_nat, <- (positive_nat_Z p).
    apply located_iter; assumption.
Qed.

Lemma located_exact M : located M 1 (shr_record_of_loc M loc_Exact).
Proof.
  unfold located. cbn. rewrite Z.div_1_r, Z.mod_1_r. auto.
Qed.

(** Rounding a located mantissa to nearest-even gives the nearest integer
    to the rational, ties to even. *)
Lemma located_rne a b mrs :
  0 <= a -> 0 < b -> located a b mrs ->
  round_nearest_even (shr_m mrs) (loc_of_shr_record mrs) = Zrne_div a b.
Proof.
  intros Ha Hb (Hm & Hr & Hs). unfold Zrne_div.
  pose proof (Z.mod_pos_bound a b Hb) as Bab.
  destruct mrs as [m r s]. cbn [shr_m shr_r shr_s] in *. subst m.
  destruct (Z.compare_spec (2 * (a mod b)) b) as [E|E|E].
  - assert (r = true) as -> by (rewrite Hr; apply Z.leb_le; lia).
    assert (s = false) as ->.
    { rewrite Hs, E, Z.mod_same by lia. reflexivity. }
    reflexivity.
  - assert (r = false) as -> by (rewrite Hr; apply Z.leb_gt; lia).
    destruct s; reflexivity.
  - assert (r = true) as -> by (rewrite Hr; apply Z.leb_le; lia).
    assert (s = true) as ->.
    { rewrite Hs. replace (2 * (a mod b)) with ((2 * (a mod b) - b) + 1 * b) by lia.
      rewrite Z.mod_add, Z.mod_small by lia.
      destruct (Z.eqb_spec (2 * (a mod b) - b) 0); [lia | reflexivity]. }
    reflexivity.
Qed.

(** ** Number of binary digits *)

Lemma digits2_pos_spec p :
  2 ^ (Z.pos (digits2_pos p) - 1) <= Z.pos p < 2 ^ Z.pos (digits2_pos p).
Proof.
  induction p as [p IH|p IH|]; cbn [digits2_pos].
  - rewrite Pos2Z.inj_succ.
    replace (Z.succ (Z.pos (digits2_pos p)) - 1)
      with (Z.succ (Z.pos (digits2_pos p) - 1)) by lia.
    rewrite !Z.pow_succ_r by lia. lia.
  - rewrite Pos2Z.inj_succ.
    replace (Z.succ (Z.pos (digits2_pos p)) - 1)
      with (Z.succ (Z.pos (digits2_pos p) - 1)) by lia.
    rewrite !Z.pow_succ_r by lia. lia.
  - simpl. lia.
Qed.

Lemma Zdigits2_spec m :
  0 < m -> 0 < Zdigits2 m /\ 2 ^ (Zdigits2 m - 1) <= m < 2 ^ Zdigits2 m.
Proof.
  destruct m as [|p|p]; try lia. intros _. cbn [Zdigits2].
  split; [lia | apply digits2_pos_spec].
Qed.

Lemma pow2_lt_inv a b : 0 <= b -> 2 ^ a < 2 ^ b -> a < b.
Proof.
  intros Hb H. destruct (Z_lt_le_dec a b) as [|Hle]; [assumption|].
  pose proof (Z.pow_le_mono_r 2 b a ltac:(lia) Hle). lia.
Qed.

Lemma Zdigits2_unique m d :
  2 ^ (d - 1) <= m < 2 ^ d -> 0 < m -> Zdigits2 m = d.
Proof.
  intros Hd Hm. destruct (Zdigits2_spec m Hm) as (HD & HDm).
  assert (0 < d).
  { destruct (Z_lt_le_dec 0 d); [assumption|].
    destruct (Z.eq_dec d 0) as [->|Hd0]; [simpl in Hd; lia|].
    rewrite (Z.pow_neg_r 2 d) in Hd by lia. lia. }
  assert (Zdigits2 m - 1 < d) by (apply pow2_lt_inv; lia).
  assert (d - 1 < Zdigits2 m) by (apply pow2_lt_inv; lia).
  lia.
Qed.

Lemma Zrne_div_bounds a b :
  0 <= a -> 0 < b -> a / b <= Zrne_div a b <= a / b + 1.
Proof.
  intros Ha Hb. unfold Zrne_div.
  destruct (2 * (a mod b) ?= b); [destruct (Z.even (a / b))| |]; lia.
Qed.

Lemma Zrne_div_exact a b : 0 < b -> a mod b = 0 -> Zrne_div a b = a / b.
Proof.
  intros Hb H. unfold Zrne_div. rewrite H.
  destruct (Z.compare_spec (2 * 0) b); lia.
Qed.

(** ** [binary_round_aux] in binary64 *)

(** The float with sign [sx], rounded mantissa [m1] (at most [2^53]) and
    exponent [e]. *)
Definition round_result (sx : bool) (m1 e : Z) : spec_float :=
  if m1 =? 0 then S754_zero sx
  else if m1 <? 2 ^ 53 then
    if e <=? 971 then S754_finite sx (Z.to_pos m1) e else S754_infinity sx
  else
    if e + 1 <=? 971 then S754_finite sx (Z.to_pos (m1 / 2)) (e + 1)
    else S754_infinity sx.

Lemma fexp64 e : fexp 53 1024 e = Z.max (e - 53) (- 1074).
Proof. reflexivity. Qed.

Lemma Zdigits2_nonneg m : 0 <= m -> 0 <= Zdigits2 m.
Proof. destruct m; simpl; lia. Qed.

Lemma Zdigits2_upper m : 0 <= m -> m < 2 ^ Zdigits2 m.
Proof.
  intros Hm. destruct (Z.eq_dec m 0) as [->|Hne]; [simpl; lia|].
  apply Zdigits2_spec. lia.
Qed.

Lemma Zdigits2_le m d : 0 <= m -> 0 <= d -> m < 2 ^ d -> Zdigits2 m <= d.
Proof.
  intros Hm Hd H. destruct (Z.eq_dec m 0) as [->|Hne]; [simpl; lia|].
  destruct (Zdigits2_spec m ltac:(lia)) as (HD & HDm & _).
  assert (Zdigits2 m - 1 < d) by (apply pow2_lt_inv; lia). lia.
Qed.

Lemma div_pow2_lt m d k :
  0 <= m -> 0 <= k -> m < 2 ^ d -> k <= d -> m / 2 ^ k < 2 ^ (d - k).
Proof.
  intros Hm Hk Hd Hkd. apply Z.div_lt_upper_bound; [apply Z.pow_pos_nonneg; lia|].
  rewrite <- Z.pow_add_r by lia. replace (k + (d - k)) with d by lia. exact Hd.
Qed.

Lemma binary_round_aux_located sx mx ex lx a b :
  0 <= a -> 0 < b ->
  located a b (shr_record_of_loc mx lx) ->
  let e := fexp 53 1024 (Zdigits2 mx + ex) in
  ex <= e ->
  binary_round_aux 53 1024 sx mx ex lx
  = round_result sx (Zrne_div a (b * 2 ^ (e - ex))) e.
Proof.
  intros Ha Hb Hloc e Hk.
  assert (Hmx : mx = a / b).
  { destruct Hloc as (Hm & _). destruct lx as [|[]]; exact Hm. }
  assert (Hmx0 : 0 <= mx) by (subst mx; apply Z.div_pos; lia).
  set (k := e - ex) in *.
  assert (Hb' : 0 < b * 2 ^ k) by (pose proof (Z.pow_pos_nonneg 2 k); nia).
  unfold binary_round_aux, shr_fexp. fold e. fold k.
  destruct (shr_located a b (shr_record_of_loc mx lx) ex k Ha Hb Hloc ltac:(lia))
    as (Hloc1 & He1).
  destruct (shr (shr_record_of_loc mx lx) ex k) as [mrs1 e1].
  cbn [fst snd] in Hloc1, He1. replace e1 with e by lia. clear He1 e1.
  rewrite (located_rne a (b * 2 ^ k) mrs1 Ha Hb' Hloc1).
  pose proof (Zrne_div_bounds a (b * 2 ^ k) Ha Hb') as Bm1.
  set (m1 := Zrne_div a (b * 2 ^ k)) in *.
  (* the shifted mantissa has at most 53 digits *)
  assert (Hmk : a / (b * 2 ^ k) < 2 ^ 53).
  { rewrite <- Z.div_div by (try apply Z.pow_pos_nonneg; lia). rewrite <- Hmx.
    pose proof (Zdigits2_upper mx Hmx0) as Hup.
    pose proof (Zdigits2_nonneg mx Hmx0) as Hd0.
    assert (Hkv : k = Z.max (Zdigits2 mx + ex - 53) (- 1074) - ex)
      by reflexivity.
    destruct (Z_lt_le_dec (Zdigits2 mx) k) as [Hlt|Hle].
    - rewrite Z.div_small; [lia|]. split; [lia|].
      apply Z.lt_le_trans with (1 := Hup).
      apply Z.pow_le_mono_r; lia.
    - apply Z.lt_le_trans with (2 ^ (Zdigits2 mx - k)).
      + apply div_pow2_lt; lia.
      + apply Z.pow_le_mono_r; lia. }
  assert (Hm1 : 0 <= m1 <= 2 ^ 53).
  { pose proof (Z.div_pos a (b * 2 ^ k) Ha Hb'). lia. }
  assert (He : - 1074 <= e) by (unfold e; rewrite fexp64; lia).
  unfold round_result.
  destruct (Z.eqb_spec m1 0) as [E0|E0].
  { rewrite E0. cbn [Zdigits2].
    assert (Hk2 : fexp 53 1024 (0 + e) - e <= 0) by (rewrite fexp64; lia).
    destruct (fexp 53 1024 (0 + e) - e) as [|p|p]; try lia; reflexivity. }
  destruct (Z.ltb_spec m1 (2 ^ 53)) as [Hlt|Hge].
  - assert (Hd1 : Zdigits2 m1 <= 53) by (apply Zdigits2_le; lia).
    assert (Hk2 : fexp 53 1024 (Zdigits2 m1 + e) - e <= 0)
      by (rewrite fexp64; lia).
    destruct (fexp 53 1024 (Zdigits2 m1 + e) - e) as [|p|p]; try lia;
      cbn [shr fst snd shr_record_of_loc shr_m];
      destruct m1 as [|p1|p1]; try lia; reflexivity.
  - assert (E53 : m1 = 2 ^ 53) by lia. rewrite E53.
    change (Zdigits2 (2 ^ 53)) with 54.
    assert (Hk2 : fexp 53 1024 (54 + e) - e = 1) by (rewrite fexp64; lia).
    rewrite Hk2. reflexivity.
Qed.

Lemma Zdigits2_div_pow2 m k :
  0 <= k -> 0 < m / 2 ^ k -> Zdigits2 (m / 2 ^ k) = Zdigits2 m - k.
Proof.
  intros Hk Hq.
  pose proof (Z.pow_pos_nonneg 2 k ltac:(lia) Hk) as Hp.
  assert (Hm : 0 < m).
  { destruct (Z_lt_le_dec 0 m); [assumption|].
    pose proof (Z.div_le_upper_bound m (2 ^ k) 0 Hp ltac:(lia)). lia. }
  destruct (Zdigits2_spec m Hm) as (HD & HDl & HDu).
  assert (Hge : 2 ^ k <= m).
  { destruct (Z_lt_le_dec m (2 ^ k)); [|assumption].
    rewrite Z.div_small in Hq by lia. lia. }
  assert (Hkd : k < Zdigits2 m).
  { apply pow2_lt_inv; [lia|]. lia. }
  apply Zdigits2_unique; [|exact Hq]. split.
  - apply Z.div_le_lower_bound; [exact Hp|].
    rewrite <- Z.pow_add_r by lia.
    replace (k + (Zdigits2 m - k - 1)) with (Zdigits2 m - 1) by lia. exact HDl.
  - apply div_pow2_lt; lia.
Qed.

Lemma Zdigits2_pow2 d : 0 <= d -> Zdigits2 (2 ^ d) = d + 1.
Proof.
  intros Hd. pose proof (Z.pow_pos_nonneg 2 d ltac:(lia) Hd).
  apply Zdigits2_unique; [|lia].
  replace (d + 1 - 1) with d by lia. rewrite Z.pow_add_r by lia. lia.
Qed.

(** The float is a valid binary64 value: [S754_finite] only with a
    canonical mantissa and an exponent in range. *)
Definition valid64 (x : spec_float) : Prop := valid_binary 53 1024 x = true.

Lemma valid64_finite s m e :
  fexp 53 1024 (Zdigits2 (Z.pos m) + e) = e -> e <= 971 ->
  valid64 (S754_finite s m e).
Proof.
  intros Hc He. unfold valid64, valid_binary, bounded, canonical_mantissa.
  cbn [Zdigits2] in Hc. rewrite Hc, Z.eqb_refl. apply Z.leb_le. exact He.
Qed.

Lemma binary_round_aux_valid sx mx ex lx a b :
  0 <= a -> 0 < b ->
  located a b (shr_record_of_loc mx lx) ->
  ex <= fexp 53 1024 (Zdigits2 mx + ex) ->
  valid64 (binary_round_aux 53 1024 sx mx ex lx).
Proof.
  intros Ha Hb Hloc Hk.
  rewrite (binary_round_aux_located sx mx ex lx a b Ha Hb Hloc Hk).
  assert (Hmx : mx = a / b).
  { destruct Hloc as (Hm & _). destruct lx as [|[]]; exact Hm. }
  assert (Hmx0 : 0 <= mx) by (subst mx; apply Z.div_pos; lia).
  set (e := fexp 53 1024 (Zdigits2 mx + ex)) in *.
  set (k := e - ex) in *.
  assert (Hkv : e = Z.max (Zdigits2 mx + ex - 53) (- 1074)) by reflexivity.
  assert (Hp : 0 < 2 ^ k) by (apply Z.pow_pos_nonneg; lia).
  assert (Hb' : 0 < b * 2 ^ k) by nia.
  pose proof (Zrne_div_bounds a (b * 2 ^ k) Ha Hb') as Bm1.
  set (m1 := Zrne_div a (b * 2 ^ k)) in *.
  assert (Emk : a / (b * 2 ^ k) = mx / 2 ^ k).
  { rewrite <- Z.div_div by lia. rewrite <- Hmx. reflexivity. }
  rewrite Emk in Bm1.
  pose proof (Z.div_pos mx (2 ^ k) Hmx0 Hp) as Hmk0.
  pose proof (Zdigits2_nonneg mx Hmx0) as Hdx0.
  unfold round_result.
  destruct (Z.eqb_spec m1 0) as [E0|E0]; [reflexivity|].
  assert (Hm1pos : 0 < m1) by lia.
  destruct (Z.ltb_spec m1 (2 ^ 53)) as [Hlt|Hge].
  - destruct (Z.leb_spec e 971) as [He|He]; [|reflexivity].
    apply valid64_finite; [|exact He].
    rewrite Z2Pos.id by exact Hm1pos.
    assert (Hd1 : Zdigits2 m1 <= 53) by (apply Zdigits2_le; lia).
    destruct (Z.eq_dec (mx / 2 ^ k) 0) as [Ek0|Ek0].
    + (* everything was shifted out: one unit of the smallest exponent *)
      assert (m1 = 1) as -> by lia. cbn [Zdigits2 digits2_pos].
      assert (Zdigits2 mx <= k).
      { apply Zdigits2_le; [lia | lia |].
        destruct (Z_lt_le_dec mx (2 ^ k)) as [|Hge]; [assumption|].
        pose proof (Z.div_le_lower_bound mx (2 ^ k) 1 Hp ltac:(lia)). lia. }
      rewrite fexp64. lia.
    + pose proof (Zdigits2_div_pow2 mx k ltac:(lia) ltac:(lia)) as Hdk.
      destruct (Zdigits2_spec (mx / 2 ^ k) ltac:(lia)) as (HD & HDl & HDu).
      destruct (Z_lt_le_dec m1 (2 ^ Zdigits2 (mx / 2 ^ k))) as [Hsame|Hup].
      * rewrite (Zdigits2_unique m1 (Zdigits2 (mx / 2 ^ k))) by lia.
        rewrite Hdk, fexp64. lia.
      * assert (Em1 : m1 = 2 ^ Zdigits2 (mx / 2 ^ k)) by lia.
        rewrite Em1, Zdigits2_pow2 by lia.
        rewrite Em1, Zdigits2_pow2 in Hd1 by lia.
        rewrite Hdk, fexp64. lia.
  - destruct (Z.leb_spec (e + 1) 971) as [He|He]; [|reflexivity].
    apply valid64_finite; [|exact He].
    assert (Hmk : mx / 2 ^ k < 2 ^ 53).
    { pose proof (Zdigits2_upper mx Hmx0) as Hup.
      destruct (Z_lt_le_dec (Zdigits2 mx) k) as [Hlt|Hle].
      - rewrite Z.div_small; [lia|]. split; [lia|].
        apply Z.lt_le_trans with (1 := Hup). apply Z.pow_le_mono_r; lia.
      - apply Z.lt_le_trans with (2 ^ (Zdigits2 mx - k)).
        + apply div_pow2_lt; lia.
        + apply Z.pow_le_mono_r; lia. }
    assert (E53 : m1 = 2 ^ 53) by lia. rewrite E53.
    change (2 ^ 53 / 2) with (2 ^ 52). rewrite Z2Pos.id by lia.
    rewrite Zdigits2_pow2, fexp64 by lia. lia.
Qed.

(** ** [binary_round]: rounding a dyadic number to binary64 *)

(** The nearest integer, ties to even, to [m * 2 ^ (e - e')]. *)
Definition rne_at (m e e' : Z) : Z :=
  Zrne_div (m * 2 ^ (e - Z.min e e')) (2 ^ (e' - Z.min e e')).

Lemma pos_iter_xO m d :
  Z.pos (Pos.iter xO m d) = Z.pos m * 2 ^ Z.pos d.
Proof.
  induction d as [|d IH] using Pos.peano_ind.
  - simpl. lia.
  - rewrite Pos.iter_succ, Pos2Z.inj_succ, Z.pow_succ_r by lia.
    change (Z.pos (Pos.iter xO m d)~0) with (2 * Z.pos (Pos.iter xO m d)).
    rewrite IH. lia.
Qed.

Lemma shl_align_spec mx ex ex' :
  (shl_align mx ex ex').2 = Z.min ex ex' /\
  Z.pos (shl_align mx ex ex').1 = Z.pos mx * 2 ^ (ex - Z.min ex ex').
Proof.
  unfold shl_align. destruct (ex' - ex) as [|d|d] eqn:E; cbn [fst snd].
  - replace (Z.min ex ex') with ex by lia. rewrite Z.sub_diag. simpl. lia.
  - replace (Z.min ex ex') with ex by lia. rewrite Z.sub_diag. simpl. lia.
  - replace (Z.min ex ex') with ex' by lia. split; [reflexivity|].
    rewrite pos_iter_xO. f_equal. f_equal. lia.
Qed.

Lemma Zdigits2_mul_pow2 m j :
  0 < m -> 0 <= j -> Zdigits2 (m * 2 ^ j) = Zdigits2 m + j.
Proof.
  intros Hm Hj. destruct (Zdigits2_spec m Hm) as (HD & HDl & HDu).
  pose proof (Z.pow_pos_nonneg 2 j ltac:(lia) Hj) as Hp.
  apply Zdigits2_unique; [|nia].
  replace (Zdigits2 m + j - 1) with (Zdigits2 m - 1 + j) by lia.
  rewrite !Z.pow_add_r by lia. nia.
Qed.

Lemma binary_round_spec sx mx ex :
  let e := fexp 53 1024 (Zdigits2 (Z.pos mx) + ex) in
  binary_round 53 1024 sx mx ex = round_result sx (rne_at (Z.pos mx) ex e) e.
Proof.
  intros e. unfold binary_round. fold (Zdigits2 (Z.pos mx)). fold e.
  destruct (shl_align_spec mx ex e) as (Hez & Hmz).
  destruct (shl_align mx ex e) as [mz ez]. cbn [fst snd] in Hez, Hmz.
  assert (Hj : 0 <= ex - Z.min ex e) by lia.
  assert (Hd : Zdigits2 (Z.pos mz) + ez = Zdigits2 (Z.pos mx) + ex).
  { rewrite Hmz, Zdigits2_mul_pow2 by lia. lia. }
  assert (He : fexp 53 1024 (Zdigits2 (Z.pos mz) + ez) = e)
    by (rewrite Hd; reflexivity).
  rewrite (binary_round_aux_located sx (Z.pos mz) ez loc_Exact (Z.pos mz) 1).
  - rewrite He. unfold rne_at. rewrite Hmz, Hez, Z.mul_1_l. reflexivity.
  - lia.
  - lia.
  - apply located_exact.
  - rewrite He, Hez. lia.
Qed.

Lemma Zrne_div_scale a b c :
  0 < b -> 0 < c -> Zrne_div (a * c) (b * c) = Zrne_div a b.
Proof.
  intros Hb Hc. unfold Zrne_div.
  rewrite Z.div_mul_cancel_r by lia.
  rewrite Z.mul_mod_distr_r by lia.
  replace (2 * (a mod b * c) ?= b * c) with (2 * (a mod b) ?= b); [reflexivity|].
  destruct (Z.compare_spec (2 * (a mod b)) b);
    symmetry; [apply Z.compare_eq_iff | apply Z.compare_lt_iff
               | apply Z.compare_gt_iff]; nia.
Qed.

Lemma rne_at_shift m e e' j :
  0 <= j -> rne_at (m * 2 ^ j) (e - j) e' = rne_at m e e'.
Proof.
  intros Hj. unfold rne_at.
  set (z1 := Z.min (e - j) e'). set (z2 := Z.min e e').
  assert (Hz : 0 <= z2 - z1) by lia.
  rewrite <- (Zrne_div_scale (m * 2 ^ (e - z2)) (2 ^ (e' - z2)) (2 ^ (z2 - z1)))
    by (apply Z.pow_pos_nonneg; lia).
  f_equal.
  - rewrite <- !Z.mul_assoc, <- !Z.pow_add_r by lia. f_equal. f_equal. lia.
  - rewrite <- Z.pow_add_r by lia. f_equal. lia.
Qed.

(** [binary_round] depends on the dyadic number only. *)
Lemma binary_round_shift sx (mx my : positive) ex j :
  0 <= j -> Z.pos my = Z.pos mx * 2 ^ j ->
  binary_round 53 1024 sx my (ex - j) = binary_round 53 1024 sx mx ex.
Proof.
  intros Hj Hm. rewrite !binary_round_spec. cbv zeta.
  rewrite Hm, Zdigits2_mul_pow2 by lia.
  replace (Zdigits2 (Z.pos mx) + j + (ex - j)) with (Zdigits2 (Z.pos mx) + ex)
    by lia.
  rewrite rne_at_shift by lia. reflexivity.
Qed.

(** A valid finite float is left as it is by a conversion to binary64. *)
Lemma valid64_canonical s m e :
  valid64 (S754_finite s m e) ->
  fexp 53 1024 (Zdigits2 (Z.pos m) + e) = e /\ e <= 971.
Proof.
  unfold valid64, valid_binary, bounded, canonical_mantissa.
  intros H. apply andb_true_iff in H as (Hc & He).
  apply Z.eqb_eq in Hc. apply Z.leb_le in He. auto.
Qed.

Lemma canonical_digits m e :
  fexp 53 1024 (Zdigits2 (Z.pos m) + e) = e ->
  Zdigits2 (Z.pos m) <= 53 /\ - 1074 <= e /\
  (- 1074 < e -> Zdigits2 (Z.pos m) = 53).
Proof. rewrite fexp64. lia. Qed.

Lemma rne_at_same m e : rne_at m e e = m.
Proof.
  unfold rne_at. rewrite Z.min_id, Z.sub_diag. simpl.
  rewrite Z.mul_1_r. rewrite Zrne_div_exact by (try apply Z.mod_1_r; lia).
  apply Z.div_1_r.
Qed.

Lemma binary_round_valid_id s m e :
  valid64 (S754_finite s m e) ->
  binary_round 53 1024 s m e = S754_finite s m e.
Proof.
  intros Hv. destruct (valid64_canonical _ _ _ Hv) as (Hc & He).
  destruct (canonical_digits _ _ Hc) as (Hd & _ & _).
  rewrite binary_round_spec. cbv zeta. rewrite Hc, rne_at_same.
  unfold round_result.
  pose proof (Zdigits2_upper (Z.pos m) ltac:(lia)) as Hup.
  assert (Z.pos m < 2 ^ 53).
  { apply Z.lt_le_trans with (1 := Hup). apply Z.pow_le_mono_r; lia. }
  destruct (Z.eqb_spec (Z.pos m) 0); [lia|].
  destruct (Z.ltb_spec (Z.pos m) (2 ^ 53)); [|lia].
  destruct (Z.leb_spec e 971); [|lia]. reflexivity.
Qed.

Lemma F2F_valid_id x : valid64 x -> F2F F64 x = x.
Proof. destruct x; try reflexivity. apply binary_round_valid_id. Qed.

(** ** Integers as binary64 floats *)

(** The value of a finite float in units of [2 ^ (-1074)], the smallest
    positive binary64 number. *)
Definition F2Zs (x : spec_float) : Z :=
  match x with
  | S754_finite s m e => cond_Zopp s (Z.pos m) * 2 ^ (e + 1074)
  | _ => 0
  end.

(** [x] is a valid float whose value is the integer [a]. *)
Definition int_float (x : spec_float) (a : Z) : Prop :=
  match x with
  | S754_zero _ => a = 0
  | S754_finite _ _ _ => valid64 x /\ F2Zs x = a * 2 ^ 1074
  | _ => False
  end.

Lemma binary_round_valid s m e : valid64 (binary_round 53 1024 s m e).
Proof.
  unfold binary_round. fold (Zdigits2 (Z.pos m)).
  set (e' := fexp 53 1024 (Zdigits2 (Z.pos m) + e)).
  destruct (shl_align_spec m e e') as (Hez & Hmz).
  destruct (shl_align m e e') as [mz ez]. cbn [fst snd] in Hez, Hmz.
  assert (Hd : Zdigits2 (Z.pos mz) + ez = Zdigits2 (Z.pos m) + e).
  { rewrite Hmz, Zdigits2_mul_pow2 by lia. lia. }
  apply (binary_round_aux_valid s (Z.pos mz) ez loc_Exact (Z.pos mz) 1).
  - lia.
  - lia.
  - apply located_exact.
  - rewrite Hd. fold e'. lia.
Qed.

Lemma binary_normalize_valid m e sz : valid64 (binary_normalize 53 1024 m e sz).
Proof. destruct m; [reflexivity | apply binary_round_valid..]. Qed.

Lemma Z2F_valid z : valid64 (Z2F F64 z).
Proof. apply binary_normalize_valid. Qed.

(** Two dyadic numbers of the same value normalize to the same float. *)
Lemma binary_normalize_value M e c e' :
  - 1074 <= e -> - 1074 <= e' ->
  M * 2 ^ (e + 1074) = c * 2 ^ (e' + 1074) ->
  binary_normalize 53 1024 M e false = binary_normalize 53 1024 c e' false.
Proof.
  intros He He' H.
  pose proof (Z.pow_pos_nonneg 2 (e + 1074) ltac:(lia) ltac:(lia)) as P1.
  pose proof (Z.pow_pos_nonneg 2 (e' + 1074) ltac:(lia) ltac:(lia)) as P2.
  assert (common : forall s (p q : positive),
             Z.pos p * 2 ^ (e + 1074) = Z.pos q * 2 ^ (e' + 1074) ->
             binary_round 53 1024 s p e = binary_round 53 1024 s q e').
  { intros s p q Hpq.
    assert (Hr : 0 < Z.pos p * 2 ^ (e + 1074)) by nia.
    rewrite <- (binary_round_shift s p (Z.to_pos (Z.pos p * 2 ^ (e + 1074)))
                  e (e + 1074)) by (try rewrite Z2Pos.id; lia).
    rewrite <- (binary_round_shift s q (Z.to_pos (Z.pos p * 2 ^ (e + 1074)))
                  e' (e' + 1074)) by (try rewrite Z2Pos.id; lia).
    f_equal; lia. }
  destruct M as [|p|p], c as [|q|q]; try nia; cbn [binary_normalize].
  - reflexivity.
  - apply common. exact H.
  - apply common. lia.
Qed.

(** A float that holds an integer is the conversion of that integer. *)
Lemma int_float_eq s m e a :
  int_float (S754_finite s m e) a -> S754_finite s m e = Z2F F64 a.
Proof.
  intros (Hv & Ha). cbn [F2Zs] in Ha.
  destruct (valid64_canonical _ _ _ Hv) as (Hc & _).
  destruct (canonical_digits _ _ Hc) as (_ & He & _).
  rewrite <- (binary_round_valid_id s m e Hv).
  unfold Z2F. cbn [fprec femax].
  rewrite <- (binary_normalize_value (cond_Zopp s (Z.pos m)) e a 0)
    by (try lia; rewrite Ha; reflexivity).
  destruct s; reflexivity.
Qed.

Lemma Z2F_small c :
  c <> 0 -> Z.abs c < 2 ^ 53 ->
  let d := Zdigits2 (Z.abs c) in
  Z2F F64 c = S754_finite (c <? 0) (Z.to_pos (Z.abs c * 2 ^ (53 - d))) (d - 53).
Proof.
  intros Hc Hlt d.
  assert (Hd : 0 < d <= 53).
  { destruct (Zdigits2_spec (Z.abs c) ltac:(lia)) as (HD & _).
    split; [exact HD|]. apply Zdigits2_le; lia. }
  assert (main : forall s (p : positive), Z.pos p = Z.abs c ->
            binary_round 53 1024 s p 0
            = S754_finite s (Z.to_pos (Z.abs c * 2 ^ (53 - d))) (d - 53)).
  { intros s p Hp. rewrite binary_round_spec. cbv zeta. rewrite Hp. fold d.
    rewrite Z.add_0_r, fexp64. replace (Z.max (d - 53) (- 1074)) with (d - 53) by lia.
    unfold rne_at. replace (Z.min 0 (d - 53)) with (d - 53) by lia.
    rewrite Z.sub_diag. change (2 ^ 0) with 1.
    rewrite Zrne_div_exact, Z.div_1_r by (try apply Z.mod_1_r; lia).
    replace (0 - (d - 53)) with (53 - d) by lia.
    destruct (Zdigits2_spec (Z.abs c) ltac:(lia)) as (_ & HDl & HDu). fold d in HDl, HDu.
    pose proof (Z.pow_pos_nonneg 2 (53 - d) ltac:(lia) ltac:(lia)) as Hp2.
    assert (Z.abs c * 2 ^ (53 - d) < 2 ^ 53).
    { replace 53 with (d + (53 - d)) at 2 by lia. rewrite Z.pow_add_r by lia. nia. }
    unfold round_result.
    destruct (Z.eqb_spec (Z.abs c * 2 ^ (53 - d)) 0); [nia|].
    destruct (Z.ltb_spec (Z.abs c * 2 ^ (53 - d)) (2 ^ 53)); [|lia].
    destruct (Z.leb_spec (d - 53) 971); [|lia]. reflexivity. }
  unfold Z2F. cbn [fprec femax].
  destruct c as [|p|p]; [lia| |]; cbn [binary_normalize].
  - apply main. reflexivity.
  - apply main. reflexivity.
Qed.

Lemma int_float_Z2F c : Z.abs c < 2 ^ 53 -> int_float (Z2F F64 c) c.
Proof.
  intros Hlt. destruct (Z.eq_dec c 0) as [->|Hc]; [reflexivity|].
  pose proof (Z2F_valid c) as Hv.
  rewrite (Z2F_small c Hc Hlt) in *. cbv zeta in *. split; [exact Hv|].
  set (d := Zdigits2 (Z.abs c)) in *.
  assert (Hd : 0 < d <= 53).
  { destruct (Zdigits2_spec (Z.abs c) ltac:(lia)) as (HD & _).
    split; [exact HD|]. apply Zdigits2_le; lia. }
  pose proof (Z.pow_pos_nonneg 2 (53 - d) ltac:(lia) ltac:(lia)) as Hp2.
  cbn [F2Zs]. rewrite Z2Pos.id by nia.
  replace 1074 with ((53 - d) + (d - 53 + 1074)) at 2 by lia.
  rewrite (Z.pow_add_r 2 (53 - d)) by lia.
  destruct (Z.ltb_spec c 0); cbn [cond_Zopp]; nia.
Qed.

(** The sum of two floats that hold integers is the conversion of the
    integer sum (rounded when it has more than 53 digits). *)
Lemma SFadd_int x y a b :
  int_float x a -> int_float y b -> y <> S754_zero true ->
  SFadd 53 1024 x y = Z2F F64 (a + b).
Proof.
  intros Hx Hy Hnz.
  destruct x as [sx| | |sx mx ex], y as [sy| | |sy my ey];
    try contradiction; cbn [int_float] in Hx, Hy.
  - subst a b. destruct sx, sy; try reflexivity. contradiction.
  - subst a. cbn [SFadd]. rewrite Z.add_0_l. apply int_float_eq. exact Hy.
  - subst b. cbn [SFadd]. rewrite Z.add_0_r. apply int_float_eq. exact Hx.
  - destruct Hx as (Hvx & Hax), Hy as (Hvy & Hby). cbn [F2Zs] in Hax, Hby.
    destruct (valid64_canonical _ _ _ Hvx) as (Hcx & _).
    destruct (valid64_canonical _ _ _ Hvy) as (Hcy & _).
    destruct (canonical_digits _ _ Hcx) as (_ & Hex & _).
    destruct (canonical_digits _ _ Hcy) as (_ & Hey & _).
    cbn [SFadd]. unfold Z2F. cbn [fprec femax].
    apply binary_normalize_value; [lia | lia |].
    destruct (shl_align_spec mx ex (Z.min ex ey)) as (_ & ->).
    destruct (shl_align_spec my ey (Z.min ex ey)) as (_ & ->).
    replace (Z.min ex (Z.min ex ey)) with (Z.min ex ey) by lia.
    replace (Z.min ey (Z.min ex ey)) with (Z.min ex ey) by lia.
    set (ez := Z.min ex ey).
    assert (Hez : ez <= ex /\ ez <= ey /\ - 1074 <= ez) by (unfold ez; lia).
    assert (Ex : cond_Zopp sx (Z.pos mx * 2 ^ (ex - ez)) * 2 ^ (ez + 1074)
                 = a * 2 ^ 1074).
    { rewrite <- Hax. replace (ex + 1074) with ((ex - ez) + (ez + 1074)) by lia.
      rewrite (Z.pow_add_r 2 (ex - ez)) by lia.
      destruct sx; cbn [cond_Zopp]; ring. }
    assert (Ey : cond_Zopp sy (Z.pos my * 2 ^ (ey - ez)) * 2 ^ (ez + 1074)
                 = b * 2 ^ 1074).
    { rewrite <- Hby. replace (ey + 1074) with ((ey - ez) + (ez + 1074)) by lia.
      rewrite (Z.pow_add_r 2 (ey - ez)) by lia.
      destruct sy; cbn [cond_Zopp]; ring. }
    change (0 + 1074) with 1074. lia.
Qed.

(** ** Comparison *)

(** Zero or a valid finite float. *)
Definition fin_valid (x : spec_float) : Prop :=
  match x with
  | S754_zero _ => True
  | S754_finite _ _ _ => valid64 x
  | _ => False
  end.

Lemma canonical_lt m1 e1 m2 e2 :
  fexp 53 1024 (Zdigits2 (Z.pos m1) + e1) = e1 ->
  fexp 53 1024 (Zdigits2 (Z.pos m2) + e2) = e2 ->
  e1 < e2 ->
  Z.pos m1 * 2 ^ (e1 + 1074) < Z.pos m2 * 2 ^ (e2 + 1074).
Proof.
  intros H1 H2 Hlt.
  destruct (canonical_digits _ _ H1) as (Hd1 & He1 & _).
  destruct (canonical_digits _ _ H2) as (Hd2 & He2 & Hn2).
  specialize (Hn2 ltac:(lia)).
  pose proof (Zdigits2_upper (Z.pos m1) ltac:(lia)) as U1.
  destruct (Zdigits2_spec (Z.pos m2) ltac:(lia)) as (_ & L2 & _).
  rewrite Hn2 in L2. change (2 ^ (53 - 1)) with (2 ^ 52) in L2.
  assert (B1 : Z.pos m1 < 2 ^ 53).
  { apply Z.lt_le_trans with (1 := U1). apply Z.pow_le_mono_r; lia. }
  pose proof (Z.pow_pos_nonneg 2 (e1 + 1074) ltac:(lia) ltac:(lia)) as P1.
  replace (e2 + 1074) with ((e2 - e1) + (e1 + 1074)) by lia.
  rewrite (Z.pow_add_r 2 (e2 - e1)) by lia.
  pose proof (Z.pow_le_mono_r 2 1 (e2 - e1) ltac:(lia) ltac:(lia)) as P2.
  change (2 ^ 1) with 2 in P2.
  change (2 ^ 53) with 9007199254740992 in B1.
  change (2 ^ 52) with 4503599627370496 in L2.
  set (P := 2 ^ (e1 + 1074)) in *. set (Q := 2 ^ (e2 - e1)) in *.
  assert (Z.pos m1 * P < 9007199254740992 * P) by nia.
  assert (2 * 4503599627370496 <= Q * Z.pos m2) by nia.
  nia.
Qed.

Lemma canonical_compare m1 e1 m2 e2 :
  fexp 53 1024 (Zdigits2 (Z.pos m1) + e1) = e1 ->
  fexp 53 1024 (Zdigits2 (Z.pos m2) + e2) = e2 ->
  (Z.pos m1 * 2 ^ (e1 + 1074) ?= Z.pos m2 * 2 ^ (e2 + 1074)) =
  match e1 ?= e2 with
  | Lt => Lt
  | Gt => Gt
  | Eq => Pos.compare_cont Eq m1 m2
  end.
Proof.
  intros H1 H2. destruct (Z.compare_spec e1 e2) as [E|E|E].
  - subst e2. destruct (canonical_digits _ _ H1) as (_ & He1 & _).
    pose proof (Z.pow_pos_nonneg 2 (e1 + 1074) ltac:(lia) ltac:(lia)) as P1.
    change (Pos.compare_cont Eq m1 m2) with (Z.pos m1 ?= Z.pos m2).
    destruct (Z.compare_spec (Z.pos m1) (Z.pos m2)) as [E|E|E].
    + rewrite E. apply Z.compare_refl.
    + apply Z.compare_lt_iff. nia.
    + apply Z.compare_gt_iff. nia.
  - apply Z.compare_lt_iff. apply canonical_lt; assumption.
  - apply Z.compare_gt_iff. apply canonical_lt; assumption.
Qed.

Lemma SFcompare_valid x y :
  fin_valid x -> fin_valid y ->
  SFcompare x y = Some (F2Zs x ?= F2Zs y).
Proof.
  destruct x as [sx| | |sx mx ex], y as [sy| | |sy my ey];
    try contradiction; cbn [fin_valid]; intros Hx Hy.
  - reflexivity.
  - destruct (valid64_canonical _ _ _ Hy) as (Hcy & _).
    destruct (canonical_digits _ _ Hcy) as (_ & Hey & _).
    pose proof (Z.pow_pos_nonneg 2 (ey + 1074) ltac:(lia) ltac:(lia)) as P.
    cbn [SFcompare F2Zs]. f_equal. symmetry.
    destruct sy; cbn [cond_Zopp];
      [apply Z.compare_gt_iff | apply Z.compare_lt_iff]; nia.
  - destruct (valid64_canonical _ _ _ Hx) as (Hcx & _).
    destruct (canonical_digits _ _ Hcx) as (_ & Hex & _).
    pose proof (Z.pow_pos_nonneg 2 (ex + 1074) ltac:(lia) ltac:(lia)) as P.
    cbn [SFcompare F2Zs]. f_equal. symmetry.
    destruct sx; cbn [cond_Zopp];
      [apply Z.compare_lt_iff | apply Z.compare_gt_iff]; nia.
  - destruct (valid64_canonical _ _ _ Hx) as (Hcx & _).
    destruct (valid64_canonical _ _ _ Hy) as (Hcy & _).
    destruct (canonical_digits _ _ Hcx) as (_ & Hex & _).
    destruct (canonical_digits _ _ Hcy) as (_ & Hey & _).
    pose proof (Z.pow_pos_nonneg 2 (ex + 1074) ltac:(lia) ltac:(lia)) as Px.
    pose proof (Z.pow_pos_nonneg 2 (ey + 1074) ltac:(lia) ltac:(lia)) as Py.
    pose proof (canonical_compare mx ex my ey Hcx Hcy) as Hc.
    pose proof (canonical_compare my ey mx ex Hcy Hcx) as Hc'.
    cbn [SFcompare F2Zs]. f_equal.
    destruct sx, sy; cbn [cond_Zopp].
    + rewrite !Z.mul_opp_l, Z.compare_opp, Hc'.
      destruct (Z.compare_spec ex ey) as [E|E|E].
      * subst ey. rewrite Z.compare_refl.
        apply (Pos.compare_cont_antisym mx my Eq).
      * apply Z.compare_gt_iff in E. rewrite E. reflexivity.
      * apply Z.compare_lt_iff in E. rewrite E. reflexivity.
    + symmetry. apply Z.compare_lt_iff. nia.
    + symmetry. apply Z.compare_gt_iff. nia.
    + symmetry. exact Hc.
Qed.

(** ** Rounding to an integer, clipping, and the cast back *)

Lemma Zrne_div_nearest a b :
  0 < b ->
  let r := Zrne_div a b in
  Z.abs (2 * (r * b - a)) <= b /\
  (Z.abs (2 * (r * b - a)) = b -> Z.even r = true).
Proof.
  intros Hb r. subst r. unfold Zrne_div.
  pose proof (Z.div_mod a b ltac:(lia)) as E.
  pose proof (Z.mod_pos_bound a b Hb) as Bm.
  destruct (Z.compare_spec (2 * (a mod b)) b) as [C|C|C].
  - destruct (Z.even (a / b)) eqn:Ev.
    + split; [nia | intros _; exact Ev].
    + split; [nia|]. intros _. rewrite Z.even_add, Ev. reflexivity.
  - split; [nia | nia].
  - split; [nia | nia].
Qed.

Lemma int_float_fin x a : int_float x a -> fin_valid x /\ F2Zs x = a * 2 ^ 1074.
Proof.
  destruct x; try contradiction; cbn [int_float fin_valid F2Zs].
  - intros ->. auto.
  - intros (Hv & Ha). auto.
Qed.

Lemma Zcompare_mul_r a b p : 0 < p -> (a * p ?= b * p) = (a ?= b).
Proof.
  intros Hp. destruct (Z.compare_spec a b) as [E|E|E].
  - subst. apply Z.compare_refl.
  - apply Z.compare_lt_iff. nia.
  - apply Z.compare_gt_iff. nia.
Qed.

Lemma SFltb_int x y a b :
  int_float x a -> int_float y b -> SFltb x y = (a <? b).
Proof.
  intros Hx Hy. destruct (int_float_fin _ _ Hx) as (Vx & Ex).
  destruct (int_float_fin _ _ Hy) as (Vy & Ey).
  unfold SFltb. rewrite (SFcompare_valid x y Vx Vy), Ex, Ey.
  rewrite Zcompare_mul_r by (apply Z.pow_pos_nonneg; lia).
  unfold Z.ltb. reflexivity.
Qed.

Lemma F2Z_trunc_int x a : int_float x a -> F2Z_trunc x = Some a.
Proof.
  destruct x as [s| | |s m e]; try contradiction; cbn [int_float F2Z_trunc].
  - intros ->. reflexivity.
  - intros (Hv & Ha). cbn [F2Zs] in Ha. f_equal.
    destruct (valid64_canonical _ _ _ Hv) as (Hc & _).
    destruct (canonical_digits _ _ Hc) as (_ & He & _).
    assert (Habs : Z.pos m * 2 ^ (e + 1074) = cond_Zopp s a * 2 ^ 1074).
    { destruct s; cbn [cond_Zopp] in *; lia. }
    assert (Hgoal : (if 0 <=? e then Z.pos m * 2 ^ e
                     else Z.pos m / 2 ^ (- e)) = cond_Zopp s a).
    { destruct (Z.leb_spec 0 e) as [H0|H0].
      - rewrite Z.pow_add_r in Habs by lia.
        pose proof (Z.pow_pos_nonneg 2 1074 ltac:(lia) ltac:(lia)). nia.
      - replace 1074 with ((- e) + (e + 1074)) in Habs at 2 by lia.
        rewrite (Z.pow_add_r 2 (- e)) in Habs by lia.
        pose proof (Z.pow_pos_nonneg 2 (e + 1074) ltac:(lia) ltac:(lia)).
        pose proof (Z.pow_pos_nonneg 2 (- e) ltac:(lia) ltac:(lia)).
        assert (Z.pos m = cond_Zopp s a * 2 ^ (- e)) as -> by nia.
        apply Z.div_mul. lia. }
    rewrite Hgoal. destruct s; cbn [cond_Zopp]; lia.
Qed.

(** A large integer converts to an infinity or to a float of positive
    exponent, of the integer's sign. *)
Lemma Z2F_large c :
  2 ^ 53 <= Z.abs c ->
  Z2F F64 c = S754_infinity (c <? 0) \/
  exists m e, Z2F F64 c = S754_finite (c <? 0) m e /\ 1 <= e /\
              valid64 (S754_finite (c <? 0) m e).
Proof.
  intros Hc.
  assert (main : forall s (p : positive), 2 ^ 53 <= Z.pos p ->
            binary_round 53 1024 s p 0 = S754_infinity s \/
            exists m e, binary_round 53 1024 s p 0 = S754_finite s m e /\ 1 <= e).
  { intros s p Hp. rewrite binary_round_spec. cbv zeta. rewrite Z.add_0_r.
    destruct (Zdigits2_spec (Z.pos p) ltac:(lia)) as (HD & HDl & HDu).
    set (d := Zdigits2 (Z.pos p)) in *.
    assert (Hd : 54 <= d).
    { assert (53 < d) by (apply pow2_lt_inv; lia). lia. }
    rewrite fexp64. replace (Z.max (d - 53) (- 1074)) with (d - 53) by lia.
    unfold rne_at. replace (Z.min 0 (d - 53)) with 0 by lia.
    rewrite !Z.sub_0_r. change (2 ^ 0) with 1. rewrite Z.mul_1_r.
    pose proof (Z.pow_pos_nonneg 2 (d - 53) ltac:(lia) ltac:(lia)) as Hp2.
    pose proof (Zrne_div_bounds (Z.pos p) (2 ^ (d - 53)) ltac:(lia) Hp2) as Bm.
    assert (1 <= Z.pos p / 2 ^ (d - 53)).
    { apply Z.div_le_lower_bound; [exact Hp2|].
      rewrite Z.mul_1_r. apply Z.le_trans with (2 := HDl).
      apply Z.pow_le_mono_r; lia. }
    unfold round_result.
    destruct (Z.eqb_spec (Zrne_div (Z.pos p) (2 ^ (d - 53))) 0); [lia|].
    destruct (_ <? 2 ^ 53).
    - destruct (d - 53 <=? 971); [right; eauto 6 with lia | left; reflexivity].
    - destruct (d - 53 + 1 <=? 971); [right; eexists _, _; split; [reflexivity|lia]
                                     | left; reflexivity]. }
  pose proof (Z2F_valid c) as Hv. unfold Z2F in *. cbn [fprec femax] in *.
  destruct c as [|p|p]; cbn [binary_normalize] in *.
  - simpl in Hc. lia.
  - destruct (main false p Hc) as [E|(m & e & E & He)]; [left; exact E|].
    right. exists m, e. rewrite E in Hv. auto.
  - destruct (main true p Hc) as [E|(m & e & E & He)]; [left; exact E|].
    right. exists m, e. rewrite E in Hv. auto.
Qed.

Lemma int_float_not_nan x a : int_float x a -> F_is_nan x = false.
Proof. destruct x; try contradiction; reflexivity. Qed.

Lemma valid64_large_value s m e :
  valid64 (S754_finite s m e) -> 1 <= e ->
  2 ^ 53 * 2 ^ 1074 <= Z.pos m * 2 ^ (e + 1074).
Proof.
  intros Hv He. destruct (valid64_canonical _ _ _ Hv) as (Hc & _).
  destruct (canonical_digits _ _ Hc) as (_ & _ & Hn).
  specialize (Hn ltac:(lia)).
  destruct (Zdigits2_spec (Z.pos m) ltac:(lia)) as (_ & L & _).
  rewrite Hn in L. change (2 ^ (53 - 1)) with (2 ^ 52) in L.
  replace (e + 1074) with ((e - 1) + 1 + 1074) by lia.
  rewrite !Z.pow_add_r by lia.
  pose proof (Z.pow_pos_nonneg 2 (e - 1) ltac:(lia) ltac:(lia)) as P1.
  pose proof (Z.pow_pos_nonneg 2 1074 ltac:(lia) ltac:(lia)) as P2.
  change (2 ^ 53) with (2 ^ 52 * 2 ^ 1). change (2 ^ 1) with 2.
  set (P := 2 ^ 1074) in *. set (Q := 2 ^ (e - 1)) in *.
  change (2 ^ 52) with 4503599627370496 in *.
  assert (4503599627370496 * 2 <= Z.pos m * Q * 2) by nia.
  nia.
Qed.

(** Clipping the conversion of any integer [c] between the conversions of
    two bounds, then truncating, is clipping [c] in the integers. *)
Lemma F_clip_Z2F c lo hi :
  Z.abs lo < 2 ^ 53 -> Z.abs hi < 2 ^ 53 -> lo <= hi ->
  F2Z_trunc (F_clip (Z2F F64 c) (Z2F F64 lo) (Z2F F64 hi))
  = Some (Z_clip c lo hi).
Proof.
  intros Hlo Hhi Hle.
  pose proof (int_float_Z2F lo Hlo) as Ilo.
  pose proof (int_float_Z2F hi Hhi) as Ihi.
  pose proof (int_float_not_nan _ _ Ilo) as Nlo.
  destruct (int_float_fin _ _ Ilo) as (Vlo & Elo).
  destruct (int_float_fin _ _ Ihi) as (Vhi & Ehi).
  pose proof (Z.pow_pos_nonneg 2 1074 ltac:(lia) ltac:(lia)) as PP.
  assert (low_branch :
    F2Z_trunc (if F_is_nan (Z2F F64 lo) || SFltb (Z2F F64 lo) (Z2F F64 hi)
               then Z2F F64 lo else Z2F F64 hi) = Some lo).
  { rewrite Nlo, (SFltb_int _ _ lo hi Ilo Ihi). cbn [orb].
    destruct (Z.ltb_spec lo hi).
    - apply F2Z_trunc_int, Ilo.
    - replace lo with hi by lia. apply F2Z_trunc_int, Ihi. }
  unfold F_clip, Z_clip.
  destruct (Z_lt_le_dec (Z.abs c) (2 ^ 53)) as [Hsmall|Hbig].
  - pose proof (int_float_Z2F c Hsmall) as Ic.
    rewrite (int_float_not_nan _ _ Ic), (SFltb_int _ _ lo c Ilo Ic). cbn [orb].
    destruct (Z.ltb_spec lo c) as [H1|H1].
    + rewrite (int_float_not_nan _ _ Ic), (SFltb_int _ _ c hi Ic Ihi). cbn [orb].
      destruct (Z.ltb_spec c hi) as [H2|H2].
      * rewrite (F2Z_trunc_int _ _ Ic). f_equal. lia.
      * rewrite (F2Z_trunc_int _ _ Ihi). f_equal. lia.
    + rewrite low_branch. f_equal. lia.
  - change (2 ^ 53) with 9007199254740992 in *.
    destruct (Z2F_large c Hbig) as [E|(m & e & E & He & Hv)]; rewrite E.
    + (* infinite *)
      destruct (Z.ltb_spec c 0) as [Hneg|Hpos].
      * assert (SFltb (Z2F F64 lo) (S754_infinity true) = false) as ->.
        { unfold SFltb. destruct (Z2F F64 lo); try contradiction; reflexivity. }
        change (F_is_nan (S754_infinity true)) with false. cbn [orb].
        rewrite low_branch. f_equal. lia.
      * assert (SFltb (Z2F F64 lo) (S754_infinity false) = true) as ->.
        { unfold SFltb. destruct (Z2F F64 lo); try contradiction; reflexivity. }
        change (F_is_nan (S754_infinity false)) with false. cbn [orb].
        assert (SFltb (S754_infinity false) (Z2F F64 hi) = false) as ->.
        { unfold SFltb. destruct (Z2F F64 hi); try contradiction; reflexivity. }
        change (F_is_nan (S754_infinity false)) with false. cbn [orb].
        rewrite (F2Z_trunc_int _ _ Ihi). f_equal. lia.
    + pose proof (valid64_large_value _ _ _ Hv He) as Hval.
      change (2 ^ 53) with 9007199254740992 in Hval.
      assert (Vx : fin_valid (S754_finite (c <? 0) m e)) by exact Hv.
      assert (H1 : SFltb (Z2F F64 lo) (S754_finite (c <? 0) m e)
                   = negb (c <? 0)).
      { unfold SFltb. rewrite (SFcompare_valid _ _ Vlo Vx), Elo. cbn [F2Zs].
        destruct (Z.ltb_spec c 0) as [Hneg|Hpos]; cbn [cond_Zopp negb].
        - assert ((lo * 2 ^ 1074 ?= - Z.pos m * 2 ^ (e + 1074)) = Gt) as ->
            by (apply Z.compare_gt_iff; nia).
          reflexivity.
        - assert ((lo * 2 ^ 1074 ?= Z.pos m * 2 ^ (e + 1074)) = Lt) as ->
            by (apply Z.compare_lt_iff; nia).
          reflexivity. }
      assert (H2 : 0 <= c ->
                   SFltb (S754_finite (c <? 0) m e) (Z2F F64 hi) = false).
      { intros Hpos. unfold SFltb.
        rewrite (SFcompare_valid _ _ Vx Vhi), Ehi. cbn [F2Zs].
        destruct (Z.ltb_spec c 0) as [Hneg|_]; [lia|]. cbn [cond_Zopp].
        assert ((Z.pos m * 2 ^ (e + 1074) ?= hi * 2 ^ 1074) = Gt) as ->
          by (apply Z.compare_gt_iff; nia).
        reflexivity. }
      rewrite H1. change (F_is_nan (S754_finite (c <? 0) m e)) with false.
      cbn [orb]. destruct (Z.ltb_spec c 0) as [Hneg|Hpos]; cbn [negb].
      * rewrite low_branch. f_equal. lia.
      * change (F_is_nan (S754_finite false m e)) with false. cbn [orb].
        specialize (H2 Hpos).
        destruct (Z.ltb_spec c 0) as [Hneg|_]; [lia|]. rewrite H2.
        rewrite (F2Z_trunc_int _ _ Ihi). f_equal. lia.
Qed.

(** [rint] of a valid float holds the integer [round_half_even] gives. *)
Lemma F_rint_int q :
  fin_valid q -> int_float (F_rint F64 q) (round_half_even q).
Proof.
  destruct q as [s| | |s m e]; try contradiction; cbn [fin_valid].
  - intros _. reflexivity.
  - intros Hv. cbn [F_rint round_half_even].
    destruct (Z.leb_spec 0 e) as [He|He].
    + split; [exact Hv|]. cbn [F2Zs]. rewrite Z.pow_add_r by lia.
      destruct s; cbn [cond_Zopp]; ring.
    + destruct (valid64_canonical _ _ _ Hv) as (Hc & _).
      destruct (canonical_digits _ _ Hc) as (Hd & _ & _).
      pose proof (Zdigits2_upper (Z.pos m) ltac:(lia)) as Hup.
      assert (Hm : Z.pos m < 2 ^ 53).
      { apply Z.lt_le_trans with (1 := Hup). apply Z.pow_le_mono_r; lia. }
      pose proof (Z.pow_pos_nonneg 2 (- e) ltac:(lia) ltac:(lia)) as Hp.
      pose proof (Zrne_div_bounds (Z.pos m) (2 ^ (- e)) ltac:(lia) Hp) as Bn.
      assert (Hq : Z.pos m / 2 ^ (- e) < 2 ^ 52).
      { apply Z.div_lt_upper_bound; [exact Hp|].
        pose proof (Z.pow_le_mono_r 2 1 (- e) ltac:(lia) ltac:(lia)) as H2.
        change (2 ^ 1) with 2 in H2. change (2 ^ 53) with (2 * 2 ^ 52) in Hm.
        nia. }
      pose proof (Z.div_pos (Z.pos m) (2 ^ (- e)) ltac:(lia) Hp) as Hq0.
      set (n := Zrne_div (Z.pos m) (2 ^ (- e))) in *.
      destruct (Z.eqb_spec n 0) as [E0|E0].
      * rewrite E0. destruct s; reflexivity.
      * apply int_float_Z2F. change (2 ^ 52) with 4503599627370496 in Hq.
        change (2 ^ 53) with 9007199254740992.
        destruct s; cbn [cond_Zopp]; lia.
Qed.

Lemma int_float_F2F x a : int_float x a -> F2F F64 x = x.
Proof.
  destruct x; try contradiction; [reflexivity|].
  intros (Hv & _). apply binary_round_valid_id, Hv.
Qed.

(** ** Division *)

Lemma new_location_located m' m2 :
  0 <= m' -> 0 < m2 ->
  located m' m2 (shr_record_of_loc (m' / m2) (new_location m2 (m' mod m2))).
Proof.
  intros Hm' Hm2. pose proof (Z.mod_pos_bound m' m2 Hm2) as Br.
  set (r := m' mod m2) in *.
  assert (Hloc : new_location m2 r =
                 if r =? 0 then loc_Exact else loc_Inexact (2 * r ?= m2)).
  { unfold new_location, new_location_even, new_location_odd.
    destruct (Z.even m2) eqn:Ev; [reflexivity|].
    destruct (Z.eqb_spec r 0); [reflexivity|]. f_equal.
    assert (Hodd : 2 * r <> m2).
    { intros E. rewrite <- E, Z.even_mul in Ev. discriminate. }
    destruct (Z.compare_spec (2 * r + 1) m2), (Z.compare_spec (2 * r) m2);
      reflexivity || lia. }
  rewrite Hloc. unfold located. fold r.
  destruct (Z.eqb_spec r 0) as [E0|E0].
  - rewrite E0. cbn [shr_record_of_loc shr_m shr_r shr_s].
    split; [reflexivity|]. split.
    + symmetry. apply Z.leb_gt. lia.
    + rewrite Z.mod_0_l by lia. reflexivity.
  - destruct (Z.compare_spec (2 * r) m2) as [E|E|E];
      cbn [shr_record_of_loc shr_m shr_r shr_s];
      (split; [reflexivity|]); split.
    + symmetry. apply Z.leb_le. lia.
    + rewrite E, Z.mod_same by lia. reflexivity.
    + symmetry. apply Z.leb_gt. lia.
    + rewrite Z.mod_small by lia. symmetry.
      destruct (Z.eqb_spec (2 * r) 0); [lia | reflexivity].
    + symmetry. apply Z.leb_le. lia.
    + replace (2 * r) with ((2 * r - m2) + 1 * m2) by lia.
      rewrite Z.mod_add, Z.mod_small by lia. symmetry.
      destruct (Z.eqb_spec (2 * r - m2) 0); [lia | reflexivity].
Qed.

(** The quotient mantissa and exponent that [SFdiv] hands to the rounding. *)
Lemma SFdiv_core_spec m1 e1 m2 e2 :
  let e' := Z.min (fexp 53 1024 (Zdigits2 (Z.pos m1) + e1
                                 - (Zdigits2 (Z.pos m2) + e2))) (e1 - e2) in
  let m' := Z.pos m1 * 2 ^ (e1 - e2 - e') in
  SFdiv_core_binary 53 1024 (Z.pos m1) e1 (Z.pos m2) e2
  = (m' / Z.pos m2, e', new_location (Z.pos m2) (m' mod Z.pos m2)).
Proof.
  intros e' m'. unfold SFdiv_core_binary. fold e'.
  assert (Hs : 0 <= e1 - e2 - e') by (unfold e'; lia).
  assert (Hm' : match e1 - e2 - e' with
                | Z.pos _ => Z.shiftl (Z.pos m1) (e1 - e2 - e')
                | 0 => Z.pos m1
                | Z.neg _ => 0
                end = m').
  { unfold m'. destruct (e1 - e2 - e') as [|p|p] eqn:E; [| |lia].
    - simpl. lia.
    - rewrite Z.shiftl_mul_pow2 by lia. reflexivity. }
  rewrite Hm'. unfold Z.div, Z.modulo.
  destruct (Z.div_eucl m' (Z.pos m2)) as [q r]. reflexivity.
Qed.

Lemma fexp64_mono a b : a <= b -> fexp 53 1024 a <= fexp 53 1024 b.
Proof. rewrite !fexp64. lia. Qed.

(** The quotient has enough digits for the rounding to shift right. *)
Lemma SFdiv_core_digits m1 e1 m2 e2 :
  let e' := Z.min (fexp 53 1024 (Zdigits2 (Z.pos m1) + e1
                                 - (Zdigits2 (Z.pos m2) + e2))) (e1 - e2) in
  let m' := Z.pos m1 * 2 ^ (e1 - e2 - e') in
  e' <= fexp 53 1024 (Zdigits2 (m' / Z.pos m2) + e').
Proof.
  intros e' m'.
  set (d1 := Zdigits2 (Z.pos m1)) in *. set (d2 := Zdigits2 (Z.pos m2)) in *.
  set (s := e1 - e2 - e') in *.
  assert (Hs : 0 <= s) by (unfold s, e'; lia).
  assert (He' : e' <= fexp 53 1024 (d1 + e1 - (d2 + e2))) by (unfold e'; lia).
  destruct (Zdigits2_spec (Z.pos m1) ltac:(lia)) as (Hd1 & L1 & U1).
  destruct (Zdigits2_spec (Z.pos m2) ltac:(lia)) as (Hd2 & L2 & U2).
  fold d1 in Hd1, L1, U1. fold d2 in Hd2, L2, U2.
  pose proof (Z.pow_pos_nonneg 2 s ltac:(lia) Hs) as Ps.
  assert (Lm' : 2 ^ (d1 + s - 1) <= m').
  { unfold m'. replace (d1 + s - 1) with ((d1 - 1) + s) by lia.
    rewrite Z.pow_add_r by lia. nia. }
  pose proof (Z.div_mod m' (Z.pos m2) ltac:(lia)) as Edm.
  pose proof (Z.mod_pos_bound m' (Z.pos m2) ltac:(lia)) as Bm.
  pose proof (Z.div_pos m' (Z.pos m2) ltac:(unfold m'; nia) ltac:(lia)) as Hq0.
  set (q := m' / Z.pos m2) in *.
  assert (Hdq : d1 + s - d2 <= Zdigits2 q).
  { pose proof (Zdigits2_upper q Hq0) as Uq.
    pose proof (Zdigits2_nonneg q Hq0) as Dq0.
    assert (m' < 2 ^ (Zdigits2 q + d2)).
    { rewrite Z.pow_add_r by lia. nia. }
    assert (d1 + s - 1 < Zdigits2 q + d2) by (apply pow2_lt_inv; lia).
    lia. }
  apply Z.le_trans with (1 := He'). apply fexp64_mono.
  unfold s in Hdq. lia.
Qed.

Lemma SFdiv_finite_spec sx mx ex sy my ey :
  let e' := Z.min (fexp 53 1024 (Zdigits2 (Z.pos mx) + ex
                                 - (Zdigits2 (Z.pos my) + ey))) (ex - ey) in
  let m' := Z.pos mx * 2 ^ (ex - ey - e') in
  let e := fexp 53 1024 (Zdigits2 (m' / Z.pos my) + e') in
  SFdiv 53 1024 (S754_finite sx mx ex) (S754_finite sy my ey)
  = round_result (xorb sx sy) (Zrne_div m' (Z.pos my * 2 ^ (e - e'))) e
  /\ valid64 (SFdiv 53 1024 (S754_finite sx mx ex) (S754_finite sy my ey)).
Proof.
  intros e' m' e. cbn [SFdiv].
  rewrite (SFdiv_core_spec mx ex my ey). fold e'. fold m'.
  assert (Hs : 0 <= ex - ey - e') by (unfold e'; lia).
  assert (Hm' : 0 <= m').
  { unfold m'. pose proof (Z.pow_pos_nonneg 2 (ex - ey - e') ltac:(lia) Hs). nia. }
  pose proof (new_location_located m' (Z.pos my) Hm' ltac:(lia)) as Hloc.
  pose proof (SFdiv_core_digits mx ex my ey) as Hk. cbv zeta in Hk.
  fold e' in Hk. fold m' in Hk.
  split.
  - apply (binary_round_aux_located _ _ _ _ m' (Z.pos my)); auto; lia.
  - apply (binary_round_aux_valid _ _ _ _ m' (Z.pos my)); auto; lia.
Qed.

(** Every quotient is a valid binary64 value. *)
Lemma SFdiv_valid x y : valid64 (SFdiv 53 1024 x y).
Proof.
  destruct x as [sx|sx| |sx mx ex], y as [sy|sy| |sy my ey];
    try reflexivity.
  apply SFdiv_finite_spec.
Qed.

(** * Requantization computes the integer formula *)

Section RequantizeElem.
Context {P : Platform}.

Lemma narrow32_bounds sg w z :
  w <> W64 -> in_range sg w z -> Z.abs z < 2 ^ 53.
Proof.
  unfold in_range, int_min, int_max. intros Hw.
  destruct sg, w; try contradiction; cbn [bits]; lia.
Qed.

Lemma int_bounds sg w :
  w <> W64 ->
  Z.abs (int_min sg w) < 2 ^ 53 /\ Z.abs (int_max sg w) < 2 ^ 53 /\
  int_min sg w <= int_max sg w.
Proof.
  unfold int_min, int_max. intros Hw.
  destruct sg, w; try contradiction; cbn [bits]; lia.
Qed.

Lemma Z_clip_in_range sg w c :
  int_min sg w <= int_max sg w ->
  int_min sg w <= Z_clip c (int_min sg w) (int_max sg w) <= int_max sg w.
Proof. unfold Z_clip. lia. Qed.

Lemma float_to_int_trunc sg w x c :
  F2Z_trunc x = Some c -> int_min sg w <= c <= int_max sg w ->
  float_to_int sg w x = c.
Proof.
  intros Ht Hc. unfold float_to_int. rewrite Ht.
  destruct (Z.leb_spec (int_min sg w) c), (Z.leb_spec c (int_max sg w));
    try lia. reflexivity.
Qed.

Lemma Z2F_not_neg_zero z : Z2F F64 z <> S754_zero true.
Proof.
  destruct (Z.eq_dec z 0) as [->|Hz]; [discriminate|].
  destruct (Z_lt_le_dec (Z.abs z) (2 ^ 53)) as [Hsmall|Hbig].
  - rewrite (Z2F_small z Hz Hsmall). discriminate.
  - destruct (Z2F_large z Hbig) as [E|(m & e & E & _)]; rewrite E; discriminate.
Qed.

(** The element of the output computed by lines 54 and 55, for a quotient
    element [x] and a zero-point element [z] of an integer dtype of at
    most 32 bits. *)
Definition requantize_code_elem (sg : bool) (w : iwidth) (x z : scalar) : scalar :=
  cast (DInt sg w)
       (clip_elem float64 (int_min sg w) (int_max sg w)
          (float_op SFadd F64 (cast float64 (around_elem F64 x))
                              (cast float64 z))).

Lemma requantize_code_int sg w r n z :
  w <> W64 -> in_range sg w z -> int_float r n ->
  cast (DInt sg w)
       (clip_elem float64 (int_min sg w) (int_max sg w)
          (float_op SFadd F64 (SF r) (cast float64 (SI z))))
  = SI (Z_clip (n + z) (int_min sg w) (int_max sg w)).
Proof.
  intros Hw Hz Hr. destruct (int_bounds sg w Hw) as (Blo & Bhi & Ble).
  pose proof (narrow32_bounds sg w z Hw Hz) as Bz.
  cbn [cast float64 float_op clip_elem fprec femax]. f_equal.
  rewrite (SFadd_int r (Z2F F64 z) n z Hr (int_float_Z2F z Bz)
                     (Z2F_not_neg_zero z)).
  apply float_to_int_trunc.
  - apply F_clip_Z2F; assumption.
  - apply Z_clip_in_range, Ble.
Qed.

Lemma requantize_code_elem_correct sg w x z :
  w <> W64 ->
  (x = SI 0 \/ exists f, x = SF f /\ valid64 f /\ f <> S754_nan) ->
  int_elem sg w z ->
  requantize_code_elem sg w x z = requantize_spec_elem sg w x z.
Proof.
  intros Hw Hx (z' & -> & Hz). unfold requantize_code_elem.
  destruct (int_bounds sg w Hw) as (Blo & Bhi & Ble).
  pose proof (narrow32_bounds sg w z' Hw Hz) as Bz.
  destruct Hx as [->|(f & -> & Hv & Hnan)].
  - cbn [around_elem]. change (cast float64 (SI 0)) with (SF (Z2F F64 0)).
    rewrite (requantize_code_int sg w (Z2F F64 0) 0 z' Hw Hz
               (int_float_Z2F 0 ltac:(simpl; lia))).
    reflexivity.
  - cbn [around_elem requantize_spec_elem].
    destruct f as [s|s| |s m e]; [| |contradiction|].
    + (* zero *)
      change (cast float64 (SF (F_rint F64 (S754_zero s))))
        with (SF (S754_zero s)).
      rewrite (requantize_code_int sg w (S754_zero s) 0 z' Hw Hz eq_refl).
      reflexivity.
    + (* infinity *)
      change (cast float64 (SF (F_rint F64 (S754_infinity s))))
        with (SF (S754_infinity s)).
      pose proof (int_float_Z2F z' Bz) as Iz.
      pose proof (int_float_Z2F _ Blo) as Ilo.
      pose proof (int_float_Z2F _ Bhi) as Ihi.
      cbn [cast float64 float_op clip_elem fprec femax requantize_spec].
      f_equal.
      assert (Hsum : SFadd 53 1024 (S754_infinity s) (Z2F F64 z')
                     = S754_infinity s).
      { destruct (Z2F F64 z'); try contradiction; reflexivity. }
      rewrite Hsum. unfold F_clip.
      destruct s.
      * assert (SFltb (Z2F F64 (int_min sg w)) (S754_infinity true) = false) as ->.
        { unfold SFltb. destruct (Z2F F64 (int_min sg w)); try contradiction;
            reflexivity. }
        cbn [F_is_nan orb].
        rewrite (int_float_not_nan _ _ Ilo), (SFltb_int _ _ _ _ Ilo Ihi).
        cbn [orb]. apply float_to_int_trunc; [|lia].
        destruct (Z.ltb_spec (int_min sg w) (int_max sg w)).
        -- apply F2Z_trunc_int, Ilo.
        -- replace (int_min sg w) with (int_max sg w) by lia.
           apply F2Z_trunc_int, Ihi.
      * assert (SFltb (Z2F F64 (int_min sg w)) (S754_infinity false) = true) as ->.
        { unfold SFltb. destruct (Z2F F64 (int_min sg w)); try contradiction;
            reflexivity. }
        cbn [F_is_nan orb].
        assert (SFltb (S754_infinity false) (Z2F F64 (int_max sg w)) = false) as ->.
        { unfold SFltb. destruct (Z2F F64 (int_max sg w)); try contradiction;
            reflexivity. }
        apply float_to_int_trunc; [|lia]. apply F2Z_trunc_int, Ihi.
    + (* finite *)
      pose proof (F_rint_int (S754_finite s m e) Hv) as Ir.
      change (cast float64 (SF (F_rint F64 (S754_finite s m e))))
        with (SF (F2F F64 (F_rint F64 (S754_finite s m e)))).
      rewrite (int_float_F2F _ _ Ir).
      rewrite (requantize_code_int sg w _ _ z' Hw Hz Ir). reflexivity.
Qed.
End RequantizeElem.

Section RequantizeArray.
Context {P : Platform}.

Lemma Forall_zip_with {X Y Z'} (f : X -> Y -> Z') (Q : Z' -> Prop) l1 l2 :
  (forall a b, Q (f a b)) -> Forall Q (zip_with f l1 l2).
Proof.
  intros Hf. revert l2. induction l1 as [|a l1 IH]; intros [|b l2]; simpl;
    constructor; auto.
Qed.

Lemma map_zip_with {X Y Z' W} (g : Z' -> W) (f : X -> Y -> Z') l1 l2 :
  map g (zip_with f l1 l2) = zip_with (fun a b => g (f a b)) l1 l2.
Proof.
  revert l2. induction l1 as [|a l1 IH]; intros [|b l2]; simpl; auto.
  f_equal. apply IH.
Qed.

Lemma zip_with_map_l {X X' Y Z'} (f : X' -> Y -> Z') (g : X -> X') l1 l2 :
  zip_with f (map g l1) l2 = zip_with (fun a b => f (g a) b) l1 l2.
Proof.
  revert l2. induction l1 as [|a l1 IH]; intros [|b l2]; simpl; auto.
  f_equal. apply IH.
Qed.

(** The elements of a quotient computed in binary64 are valid floats. *)
Lemma np_divide_elems float_y scale q :
  np_divide float_y scale = Returns q -> dt q = float64 ->
  Forall (fun x => exists f, x = SF f /\ valid64 f) (data q).
Proof.
  unfold np_divide, np_binop. intros H Hdt.
  destruct (divide_type (dt float_y) (dt scale)) as [| |fw]; try discriminate.
  destruct (broadcast_shapes (shape float_y) (shape scale)) as [s|];
    [|discriminate].
  injection H as <-. cbn [dt] in Hdt. injection Hdt as ->. cbn [data].
  apply Forall_zip_with. intros a b. unfold float_op.
  destruct a as [|fa], b as [|fb]; eexists; (split; [reflexivity|]);
    try reflexivity.
  apply SFdiv_valid.
Qed.

Lemma broadcast_to_around s q :
  dt q = float64 ->
  broadcast_to s (np_around q) = map (around_elem F64) (broadcast_to s q).
Proof.
  intros Hdt. unfold np_around. rewrite Hdt. unfold broadcast_to.
  cbn [shape data float64]. rewrite map_map. apply map_ext. intros i.
  change (SI 0) with (around_elem F64 (SI 0)) at 1. apply map_nth.
Qed.

(** C1 (amended). For an output integer dtype of at most 32 bits, a zero
    point within the dtype's range and a quotient [float_y / scale_out]
    computed in binary64 that holds no NaN, the requantized output is, on
    each element, [clip(round(q) + zero_point_out, dtype_min, dtype_max)]
    computed in the integers, with [round] rounding halves to even and an
    infinite quotient saturating; it has the output dtype. *)
Theorem requantize_refines_spec sg w float_y scale zero_point q :
  w <> W64 ->
  int_array sg w zero_point ->
  np_divide float_y scale = Returns q -> dt q = float64 ->
  Forall (fun x => x <> SF S754_nan) (data q) ->
  requantize float_y scale zero_point =
  match broadcast_shapes (shape q) (shape zero_point) with
  | None => Raises ValueError
  | Some s =>
      Returns {| dt := DInt sg w; shape := s;
                 data := zip_with (requantize_spec_elem sg w)
                                  (broadcast_to s q)
                                  (broadcast_to s zero_point) |}
  end.
Proof.
  intros Hw (Hdz & Hz) Hq Hdt Hnan.
  pose proof (np_divide_elems _ _ _ Hq Hdt) as Hvalid.
  unfold requantize. rewrite Hdz. cbn [np_iinfo mbind result_bind].
  rewrite Hq. cbn [mbind result_bind fst snd].
  unfold np_add.
  assert (Hda : dt (np_around q) = float64)
    by (unfold np_around; rewrite Hdt; reflexivity).
  assert (Hsa : shape (np_around q) = shape q).
  { unfold np_around. rewrite Hdt. reflexivity. }
  rewrite Hda, Hdz.
  assert (Hp : promote_types float64 (DInt sg w) = float64)
    by (destruct w; reflexivity).
  rewrite Hp. unfold float64 at 1. unfold np_binop. rewrite Hsa.
  destruct (broadcast_shapes (shape q) (shape zero_point)) as [s|];
    [|reflexivity].
  cbn [mbind result_bind]. unfold np_astype, np_clip. cbn [dt shape data].
  f_equal. f_equal.
  rewrite (broadcast_to_around s q Hdt).
  rewrite zip_with_map, !map_zip_with, zip_with_map_l.
  apply (zip_with_ext_Forall _ _
           (fun x => x = SI 0 \/ exists f, x = SF f /\ valid64 f /\ f <> S754_nan)
           (int_elem sg w)).
  - intros x z Hx Hzz.
    apply (requantize_code_elem_correct sg w x z Hw Hx Hzz).
  - apply broadcast_to_Forall; [left; reflexivity|].
    rewrite Forall_forall in *. intros x Hx. right.
    destruct (Hvalid x Hx) as (f & -> & Hv). exists f.
    split; [reflexivity|]. split; [exact Hv|].
    intros ->. apply (Hnan _ Hx). reflexivity.
  - apply broadcast_to_Forall; [apply int_elem_zero | exact Hz].
Qed.
End RequantizeArray.

(** Witness of C1 (amended): the float sum [7.5, 12.5] requantized to
    uint8 with scale 1.0 and zero point 0. *)
Lemma requantize_refines_spec_witness :
  requantize (P := indefinite_platform) float_y_scenario (scalar_f32 f_one)
             (scalar_int uint8 0) =
  match broadcast_shapes (shape float_y_scenario)
                         (shape (scalar_int uint8 0)) with
  | None => Raises ValueError
  | Some s =>
      Returns {| dt := DInt false W8; shape := s;
                 data := zip_with (requantize_spec_elem false W8)
                                  (broadcast_to s float_y_scenario)
                                  (broadcast_to s (scalar_int uint8 0)) |}
  end.
Proof.
  apply (requantize_refines_spec (P := indefinite_platform) false W8
           float_y_scenario (scalar_f32 f_one) (scalar_int uint8 0)
           float_y_scenario).
  - discriminate.
  - split; [reflexivity|]. repeat constructor.
    exists 0. split; [reflexivity|]. unfold in_range. simpl. lia.
  - vm_compute. reflexivity.
  - reflexivity.
  - repeat constructor; discriminate.
Defined.

(** C1 as stated fails for a 64-bit output dtype: with quotient 0 and the
    int64 zero point [2^53 + 1] the code yields [2^53], the integer
    formula [2^53 + 1]. *)
Lemma requantize_int64_inexact :
  requantize (P := indefinite_platform) float_zero (scalar_f32 f_one)
             wide_zero_point
    = Returns (scalar_int int64 9007199254740992) /\
  requantize_spec_elem true W64 (SF (S754_zero false)) (SI 9007199254740993)
    = SI 9007199254740993.
Proof. split; vm_compute; reflexivity. Qed.

(** * Round trip: dequantize, then requantize *)

(** ** Multiplication, and what [round_result] returns *)

Lemma Zdigits2_lower m k : 0 <= k -> 2 ^ k <= m -> k + 1 <= Zdigits2 m.
Proof.
  intros Hk H. pose proof (Z.pow_pos_nonneg 2 k ltac:(lia) Hk).
  pose proof (Zdigits2_upper m ltac:(lia)) as U.
  pose proof (Zdigits2_nonneg m ltac:(lia)).
  assert (k < Zdigits2 m) by (apply pow2_lt_inv; lia). lia.
Qed.

Lemma SFmul_finite_spec sx mx ex sy my ey :
  let e := fexp 53 1024 (Zdigits2 (Z.pos mx * Z.pos my) + (ex + ey)) in
  ex + ey <= e ->
  SFmul 53 1024 (S754_finite sx mx ex) (S754_finite sy my ey)
  = round_result (xorb sx sy)
      (Zrne_div (Z.pos mx * Z.pos my) (2 ^ (e - (ex + ey)))) e
  /\ valid64 (SFmul 53 1024 (S754_finite sx mx ex) (S754_finite sy my ey)).
Proof.
  intros e Hk. cbn [SFmul]. rewrite Pos2Z.inj_mul.
  pose proof (located_exact (Z.pos mx * Z.pos my)) as Hloc.
  split.
  - rewrite (binary_round_aux_located _ _ _ _ (Z.pos mx * Z.pos my) 1);
      auto; try lia.
    fold e. rewrite Z.mul_1_l. reflexivity.
  - apply (binary_round_aux_valid _ _ _ _ (Z.pos mx * Z.pos my) 1);
      auto; lia.
Qed.

Lemma round_result_finite s m1 e s' m' e' :
  0 <= m1 <= 2 ^ 53 ->
  round_result s m1 e = S754_finite s' m' e' ->
  s' = s /\ e <= e' <= e + 1 /\ Z.pos m' * 2 ^ (e' - e) = m1.
Proof.
  intros Hm. unfold round_result.
  destruct (Z.eqb_spec m1 0); [discriminate|].
  destruct (Z.ltb_spec m1 (2 ^ 53)).
  - destruct (e <=? 971); [|discriminate]. intros [= <- <- <-].
    rewrite Z.sub_diag, Z.pow_0_r, Z2Pos.id by lia. split; [reflexivity | lia].
  - destruct (e + 1 <=? 971); [|discriminate]. intros [= <- <- <-].
    assert (m1 = 2 ^ 53) as -> by lia.
    replace (e + 1 - e) with 1 by lia.
    split; [reflexivity | split; [lia | reflexivity]].
Qed.

Lemma round_result_positive s m1 e :
  0 < m1 -> e + 1 <= 971 ->
  exists m' e', round_result s m1 e = S754_finite s m' e'.
Proof.
  intros Hm He. unfold round_result.
  destruct (Z.eqb_spec m1 0); [lia|].
  destruct (m1 <? 2 ^ 53).
  - destruct (Z.leb_spec e 971); [eauto | lia].
  - destruct (Z.leb_spec (e + 1) 971); [eauto | lia].
Qed.

(** ** Rounding errors *)

Lemma Zrne_div_near a b c :
  0 < b -> 2 * Z.abs (a - c * b) < b -> Zrne_div a b = c.
Proof.
  intros Hb H. destruct (Zrne_div_nearest a b Hb) as (Hn & _).
  cbv zeta in Hn. set (r := Zrne_div a b) in *. nia.
Qed.

(** Rounding [m / 2 ^ k] changes it by at most [2 ^ (-53)] of the result,
    when the quotient has 53 digits or the division is exact. *)
Lemma rne_relative_error m k :
  0 < m -> 0 <= k ->
  2 ^ (52 + k) <= m \/ m mod 2 ^ k = 0 ->
  let m1 := Zrne_div m (2 ^ k) in
  2 ^ 53 * Z.abs (m1 * 2 ^ k - m) <= m1 * 2 ^ k.
Proof.
  intros Hm Hk Hcase m1.
  pose proof (Z.pow_pos_nonneg 2 k ltac:(lia) Hk) as Pk.
  destruct Hcase as [Hbig|Hex].
  - destruct (Zrne_div_nearest m (2 ^ k) Pk) as (Hn & _). fold m1 in Hn.
    pose proof (Zrne_div_bounds m (2 ^ k) ltac:(lia) Pk) as Bm. fold m1 in Bm.
    assert (2 ^ 52 <= m / 2 ^ k).
    { apply Z.div_le_lower_bound; [exact Pk|].
      rewrite Z.pow_add_r in Hbig by lia. lia. }
    change (2 ^ 53) with (2 * 2 ^ 52). change (2 ^ 52) with 4503599627370496 in *.
    nia.
  - subst m1. rewrite (Zrne_div_exact m (2 ^ k) Pk Hex).
    pose proof (Z.div_mod m (2 ^ k) ltac:(lia)) as E. rewrite Hex in E.
    replace (m / 2 ^ k * 2 ^ k - m) with 0 by lia. simpl. nia.
Qed.

Lemma Zrne_div_le_pow a b :
  0 <= a -> 0 < b -> a < 2 ^ 53 * b -> 0 <= Zrne_div a b <= 2 ^ 53.
Proof.
  intros Ha Hb H. pose proof (Zrne_div_bounds a b Ha Hb) as B.
  pose proof (Z.div_pos a b Ha Hb).
  assert (a / b < 2 ^ 53) by (apply Z.div_lt_upper_bound; lia).
  lia.
Qed.

Lemma round_result_cases s m1 e :
  m1 <> 0 ->
  (exists m' e', round_result s m1 e = S754_finite s m' e') \/
  round_result s m1 e = S754_infinity s.
Proof.
  intros Hm. unfold round_result.
  destruct (Z.eqb_spec m1 0); [lia|].
  destruct (m1 <? 2 ^ 53); [destruct (e <=? 971) | destruct (e + 1 <=? 971)];
    eauto.
Qed.

(** A relative error bound moves along a change of scale. *)
Lemma relative_error_scale a b N U m :
  0 < N -> 0 < U ->
  2 ^ 53 * Z.abs (a - b * N) <= a -> m * N = a * U ->
  2 ^ 53 * Z.abs (m - b * U) <= m.
Proof.
  intros HN HU H E.
  apply (Z.mul_le_mono_pos_r _ _ N HN).
  rewrite <- Z.mul_assoc, <- (Z.abs_eq N) at 1 by lia.
  rewrite <- Z.abs_mul, Z.mul_sub_distr_r, E.
  replace (a * U - b * U * N) with ((a - b * N) * U) by ring.
  rewrite Z.abs_mul, (Z.abs_eq U) by lia.
  rewrite Z.mul_assoc. apply Z.mul_le_mono_nonneg_r; lia.
Qed.

(** The quotient of a product by one of its factors, both rounded to 53
    bits, is within half a unit of the other factor when that is an
    integer below [2 ^ 33]: [r] is the rounded [m / V], [m] is within
    [2 ^ (-53)] of [c * V * W], and [W] is the weight of one unit. *)
Lemma quotient_near c V W m r :
  0 < V -> 2 ^ 19 <= W -> 0 <= c < 2 ^ 33 ->
  2 ^ 53 * Z.abs (m - c * V * W) <= m ->
  Z.abs (2 * (r * V - m)) <= V ->
  2 * Z.abs (r - c * W) < W.
Proof.
  intros HV HW Hc Hm Hr.
  change (2 ^ 19) with 524288 in *. change (2 ^ 33) with 8589934592 in *.
  change (2 ^ 53) with 9007199254740992 in *.
  set (Y := V * W).
  assert (HY : 524288 * V <= Y) by (unfold Y; nia).
  assert (HcY : c * V * W <= 8589934591 * Y).
  { rewrite <- Z.mul_assoc. fold Y. apply Z.mul_le_mono_nonneg_r; lia. }
  assert (HcY0 : 0 <= c * V * W).
  { rewrite <- Z.mul_assoc. fold Y. apply Z.mul_nonneg_nonneg; lia. }
  set (t := m - c * V * W) in *.
  assert (Ht : 524288 * Z.abs t < Y) by lia.
  apply (Z.mul_lt_mono_pos_r V); [exact HV|].
  rewrite <- Z.mul_assoc, <- (Z.abs_eq V) at 1 by lia.
  rewrite <- Z.abs_mul.
  replace ((r - c * W) * V) with ((r * V - m) + t) by (unfold t; ring).
  replace (W * V) with Y by (unfold Y; ring).
  lia.
Qed.

(** ** The product [n * s] and the quotient [(n * s) / s] in binary64 *)

(** The product of a nonzero integer [n] below [2 ^ 33] and a scale [s],
    when it is finite: a valid float within [2 ^ (-53)] of [n * s]. *)
Lemma product_spec n ss ms es :
  n <> 0 -> Z.abs n < 2 ^ 33 ->
  valid64 (S754_finite ss ms es) ->
  (forall b, SFmul 53 1024 (Z2F F64 n) (S754_finite ss ms es)
             <> S754_infinity b) ->
  exists mp ep,
    SFmul 53 1024 (Z2F F64 n) (S754_finite ss ms es)
    = S754_finite (xorb (n <? 0) ss) mp ep /\
    valid64 (S754_finite (xorb (n <? 0) ss) mp ep) /\
    2 ^ 53 * Z.abs (Z.pos mp * 2 ^ (ep + 1074)
                    - Z.abs n * Z.pos ms * 2 ^ (es + 1074))
    <= Z.pos mp * 2 ^ (ep + 1074).
Proof.
  intros Hn Hlt Hvs Hfin.
  assert (Hlt53 : Z.abs n < 2 ^ 53) by (change (2 ^ 33) with 8589934592 in Hlt;
    change (2 ^ 53) with 9007199254740992; lia).
  pose proof (Z2F_small n Hn Hlt53) as EZ. cbv zeta in EZ.
  set (A := Z.abs n) in *. set (d := Zdigits2 A) in *.
  assert (HA : 0 < A) by (unfold A; lia).
  destruct (Zdigits2_spec A HA) as (Hd & LA & UA). fold d in Hd, LA, UA.
  assert (Hd33 : d <= 33) by (apply Zdigits2_le; lia).
  set (N := 2 ^ (53 - d)) in *.
  assert (HN : 0 < N) by (apply Z.pow_pos_nonneg; lia).
  assert (Hmn : 2 ^ 52 <= A * N).
  { replace 52 with ((d - 1) + (53 - d)) by lia.
    rewrite Z.pow_add_r by lia. fold N. nia. }
  assert (Hmn0 : 0 < A * N) by nia.
  destruct (valid64_canonical _ _ _ Hvs) as (Hcs & Hes).
  destruct (canonical_digits _ _ Hcs) as (Hds & Hes' & _).
  rewrite EZ in Hfin |- *.
  set (mn := Z.to_pos (A * N)) in *.
  assert (Emn : Z.pos mn = A * N) by (unfold mn; rewrite Z2Pos.id; lia).
  set (Pi := Z.pos mn * Z.pos ms).
  assert (HPi : 2 ^ 52 <= Pi) by (unfold Pi; rewrite Emn; nia).
  assert (HPi0 : 0 < Pi) by (unfold Pi; lia).
  pose proof (Zdigits2_lower Pi 52 ltac:(lia) HPi) as HdPi.
  destruct (Zdigits2_spec Pi HPi0) as (_ & LPi & UPi).
  set (dPi := Zdigits2 Pi) in *.
  set (E0 := d - 53 + es).
  set (e1 := fexp 53 1024 (dPi + E0)).
  assert (He1 : e1 = Z.max (dPi + E0 - 53) (- 1074)) by apply fexp64.
  assert (Hk : E0 <= e1) by lia.
  destruct (SFmul_finite_spec (n <? 0) mn (d - 53) ss ms es) as (Em & Hvp).
  { fold Pi. fold dPi. fold E0. fold e1. exact Hk. }
  fold Pi in Em. fold dPi in Em. fold E0 in Em. fold e1 in Em.
  set (k1 := e1 - E0) in *. assert (Hk1 : 0 <= k1) by (unfold k1; lia).
  pose proof (Z.pow_pos_nonneg 2 k1 ltac:(lia) Hk1) as PK.
  set (m1 := Zrne_div Pi (2 ^ k1)) in *.
  (* the rounding error of the product *)
  assert (Herr : 2 ^ 53 * Z.abs (m1 * 2 ^ k1 - Pi) <= m1 * 2 ^ k1).
  { apply rne_relative_error; [lia | lia |].
    destruct (Z.max_spec (dPi + E0 - 53) (- 1074)) as [(Hc & Hmax)|(Hc & Hmax)].
    - right. assert (Hk1d : k1 <= 53 - d) by (unfold k1, E0; lia).
      unfold Pi. rewrite Emn. unfold N.
      replace (53 - d) with ((53 - d - k1) + k1) by lia.
      rewrite Z.pow_add_r by lia.
      replace (A * (2 ^ (53 - d - k1) * 2 ^ k1) * Z.pos ms)
        with (A * 2 ^ (53 - d - k1) * Z.pos ms * 2 ^ k1) by ring.
      apply Z.mod_mul. lia.
    - left. replace (52 + k1) with (dPi - 1) by (unfold k1; lia). exact LPi. }
  assert (Hm1 : 0 <= m1 <= 2 ^ 53).
  { apply Zrne_div_le_pow; [lia | lia |].
    rewrite <- Z.pow_add_r by lia.
    apply Z.lt_le_trans with (1 := UPi).
    apply Z.pow_le_mono_r; [lia | unfold k1; lia]. }
  assert (Hm1p : m1 <> 0).
  { intros E. rewrite E in Herr. simpl in Herr.
    change (2 ^ 53) with 9007199254740992 in Herr. lia. }
  rewrite Em in Hfin, Hvp. rewrite Em.
  destruct (round_result_cases (xorb (n <? 0) ss) m1 e1 Hm1p)
    as [(mp & ep & Ep)|Einf]; [|exfalso; exact (Hfin _ Einf)].
  exists mp, ep. rewrite Ep in Hvp |- *.
  split; [reflexivity|]. split; [exact Hvp|].
  destruct (round_result_finite _ _ _ _ _ _ Hm1 Ep) as (_ & Hep & Emp).
  destruct (valid64_canonical _ _ _ Hvp) as (Hcp & _).
  destruct (canonical_digits _ _ Hcp) as (_ & Hep' & _).
  replace (A * Z.pos ms * 2 ^ (es + 1074))
    with ((A * Z.pos ms) * 2 ^ (es + 1074)) by ring.
  apply (relative_error_scale (m1 * 2 ^ k1) (A * Z.pos ms) N);
    [exact HN | apply Z.pow_pos_nonneg; lia | |].
  - replace (A * Z.pos ms * N) with Pi by (unfold Pi; rewrite Emn; ring).
    exact Herr.
  - rewrite <- Emp. unfold N.
    rewrite <- !Z.mul_assoc. f_equal.
    rewrite <- !Z.pow_add_r by lia. f_equal. unfold k1, E0. lia.
Qed.

Lemma relative_error_upper a X :
  0 <= a -> 2 ^ 53 * Z.abs (a - X) <= a -> a <= 2 * X.
Proof. change (2 ^ 53) with 9007199254740992. lia. Qed.

(** The quotient by [s] of a float within [2 ^ (-53)] of [c * s], for an
    integer [0 < c < 2 ^ 33]: it is finite and rounds to [c]. *)
Lemma quotient_spec c sp mp ep ss ms es :
  0 < c < 2 ^ 33 ->
  valid64 (S754_finite sp mp ep) ->
  valid64 (S754_finite ss ms es) ->
  2 ^ 53 * Z.abs (Z.pos mp * 2 ^ (ep + 1074) - c * Z.pos ms * 2 ^ (es + 1074))
  <= Z.pos mp * 2 ^ (ep + 1074) ->
  fin_valid (SFdiv 53 1024 (S754_finite sp mp ep) (S754_finite ss ms es)) /\
  round_half_even (SFdiv 53 1024 (S754_finite sp mp ep) (S754_finite ss ms es))
  = cond_Zopp (xorb sp ss) c.
Proof.
  intros Hc Hvp Hvs Herr.
  destruct (valid64_canonical _ _ _ Hvp) as (Hcp & _).
  destruct (canonical_digits _ _ Hcp) as (_ & Hep & _).
  destruct (valid64_canonical _ _ _ Hvs) as (Hcs & _).
  destruct (canonical_digits _ _ Hcs) as (_ & Hes & _).
  destruct (Zdigits2_spec (Z.pos mp) ltac:(lia)) as (Hdp & Lp & Up).
  destruct (Zdigits2_spec (Z.pos ms) ltac:(lia)) as (Hds & Ls & Us).
  destruct (SFdiv_finite_spec sp mp ep ss ms es) as (Eq & Hvq).
  pose proof (SFdiv_core_digits mp ep ms es) as Hcore.
  cbv zeta in Eq, Hcore.
  set (dp := Zdigits2 (Z.pos mp)) in *. set (ds := Zdigits2 (Z.pos ms)) in *.
  set (e' := Z.min (fexp 53 1024 (dp + ep - (ds + es))) (ep - es)) in *.
  set (m' := Z.pos mp * 2 ^ (ep - es - e')) in *.
  set (q0 := m' / Z.pos ms) in *.
  set (eq := fexp 53 1024 (Zdigits2 q0 + e')) in *.
  pose proof (Z.pow_pos_nonneg 2 (ep + 1074) ltac:(lia) ltac:(lia)) as PP.
  pose proof (Z.pow_pos_nonneg 2 (es + 1074) ltac:(lia) ltac:(lia)) as PS.
  (* the dividend is at most twice [c * s] *)
  assert (HP2 : Z.pos mp * 2 ^ (ep + 1074)
                <= 2 * (c * Z.pos ms * 2 ^ (es + 1074))).
  { apply relative_error_upper; [apply Z.mul_nonneg_nonneg; lia | exact Herr]. }
  assert (HD : dp + ep - (ds + es) <= 34).
  { assert (2 ^ (dp - 1 + (ep + 1074)) < 2 ^ (34 + ds + (es + 1074))).
    { rewrite (Z.pow_add_r 2 (dp - 1)), (Z.pow_add_r 2 (34 + ds)),
        (Z.pow_add_r 2 34 ds) by lia.
      apply Z.le_lt_trans with (Z.pos mp * 2 ^ (ep + 1074));
        [apply Z.mul_le_mono_nonneg_r; lia|].
      apply Z.le_lt_trans with (1 := HP2).
      change (2 ^ 34) with (2 * 2 ^ 33).
      assert (c * Z.pos ms < 2 ^ 33 * 2 ^ ds).
      { apply Z.le_lt_trans with (c * 2 ^ ds).
        - apply Z.mul_le_mono_nonneg_l; lia.
        - apply Z.mul_lt_mono_pos_r; [apply Z.pow_pos_nonneg|]; lia. }
      rewrite <- !Z.mul_assoc. apply Z.mul_lt_mono_pos_l; [lia|].
      rewrite !Z.mul_assoc. apply Z.mul_lt_mono_pos_r; [exact PS | exact H]. }
    assert (dp - 1 + (ep + 1074) < 34 + ds + (es + 1074))
      by (apply pow2_lt_inv; lia).
    lia. }
  assert (He' : e' <= - 19).
  { unfold e'. rewrite fexp64. lia. }
  assert (Hsh : 0 <= ep - es - e') by (unfold e'; lia).
  set (U := 2 ^ (- e')).
  assert (HU : 0 < U) by (apply Z.pow_pos_nonneg; lia).
  assert (Hm'0 : 0 < m').
  { unfold m'. apply Z.mul_pos_pos; [lia | apply Z.pow_pos_nonneg; lia]. }
  assert (Hrel : 2 ^ 53 * Z.abs (m' - c * Z.pos ms * U) <= m').
  { apply (relative_error_scale (Z.pos mp * 2 ^ (ep + 1074)) (c * Z.pos ms)
             (2 ^ (es + 1074)) U); [exact PS | exact HU | exact Herr |].
    unfold m', U. rewrite <- !Z.mul_assoc. f_equal.
    rewrite <- !Z.pow_add_r by lia. f_equal. lia. }
  assert (Hm'2 : m' <= 2 * (c * Z.pos ms * U))
    by (apply relative_error_upper; [lia | exact Hrel]).
  (* the exponent of the quotient *)
  pose proof (Z.div_mod m' (Z.pos ms) ltac:(lia)) as Edm.
  pose proof (Z.mod_pos_bound m' (Z.pos ms) ltac:(lia)) as Bm.
  fold q0 in Edm.
  assert (Hq0 : 0 <= q0) by (apply Z.div_pos; lia).
  assert (Hq0u : q0 < 2 ^ (34 - e')).
  { replace (34 - e') with (34 + - e') by lia.
    rewrite Z.pow_add_r by lia. fold U.
    change (2 ^ 34) with (2 * 2 ^ 33).
    assert (q0 * Z.pos ms <= 2 * c * U * Z.pos ms) by lia.
    assert (q0 <= 2 * c * U)
      by (apply (Z.mul_le_mono_pos_r _ _ (Z.pos ms)); lia).
    assert (c * U <= (2 ^ 33 - 1) * U)
      by (apply Z.mul_le_mono_nonneg_r; lia).
    lia. }
  assert (Hdq : Zdigits2 q0 <= 34 - e') by (apply Zdigits2_le; lia).
  assert (Heq : eq <= - 19) by (unfold eq; rewrite fexp64; lia).
  assert (Heq' : Zdigits2 q0 + e' - 53 <= eq) by (unfold eq; rewrite fexp64; lia).
  set (k2 := eq - e') in *. assert (Hk2 : 0 <= k2) by (unfold k2; lia).
  set (W := 2 ^ (- eq)).
  assert (HW : 2 ^ 19 <= W) by (apply Z.pow_le_mono_r; lia).
  assert (EU : U = 2 ^ k2 * W).
  { unfold U, W, k2. rewrite <- Z.pow_add_r by lia. f_equal. lia. }
  pose proof (Z.pow_pos_nonneg 2 k2 ltac:(lia) Hk2) as Pk2.
  set (V := Z.pos ms * 2 ^ k2) in *.
  assert (HV : 0 < V) by (unfold V; apply Z.mul_pos_pos; lia).
  set (mq1 := Zrne_div m' V) in *.
  destruct (Zrne_div_nearest m' V HV) as (Hnear & _). fold mq1 in Hnear.
  assert (HG : 2 * Z.abs (mq1 - c * W) < W).
  { apply (quotient_near c V W m' mq1); [exact HV | exact HW | lia | | exact Hnear].
    replace (c * V * W) with (c * Z.pos ms * U) by (rewrite EU; unfold V; ring).
    exact Hrel. }
  assert (Hmq1 : 0 <= mq1 <= 2 ^ 53).
  { apply Zrne_div_le_pow; [lia | exact HV |].
    pose proof (Zdigits2_upper q0 Hq0) as Uq.
    pose proof (Zdigits2_nonneg q0 Hq0) as Dq.
    assert (2 ^ Zdigits2 q0 <= 2 ^ (53 + k2))
      by (apply Z.pow_le_mono_r; unfold k2; lia).
    rewrite Z.pow_add_r in H by lia. unfold V.
    apply Z.lt_le_trans with (Z.pos ms * (q0 + 1)); [lia|].
    rewrite (Z.mul_comm (2 ^ 53)), <- Z.mul_assoc, (Z.mul_comm (2 ^ k2)).
    apply Z.mul_le_mono_nonneg_l; lia. }
  assert (Hmq1p : 0 < mq1).
  { change (2 ^ 19) with 524288 in HW.
    assert (1 * W <= c * W) by (apply Z.mul_le_mono_nonneg_r; lia). lia. }
  rewrite Eq in Hvq |- *.
  destruct (round_result_positive (xorb sp ss) mq1 eq Hmq1p ltac:(lia))
    as (mq & eq1 & Er).
  rewrite Er in Hvq |- *. split; [exact Hvq|].
  destruct (round_result_finite _ _ _ _ _ _ Hmq1 Er) as (_ & Heq1 & Emq).
  unfold round_half_even.
  destruct (Z.leb_spec 0 eq1) as [Hge|_]; [lia|]. f_equal.
  assert (P1 : 0 < 2 ^ (- eq1)) by (apply Z.pow_pos_nonneg; lia).
  assert (Pc : 0 < 2 ^ (eq1 - eq)) by (apply Z.pow_pos_nonneg; lia).
  apply Zrne_div_near; [exact P1|].
  assert (EW : W = 2 ^ (- eq1) * 2 ^ (eq1 - eq)).
  { unfold W. rewrite <- Z.pow_add_r by lia. f_equal. lia. }
  apply (Z.mul_lt_mono_pos_r (2 ^ (eq1 - eq))); [exact Pc|].
  rewrite <- EW. rewrite <- Z.mul_assoc.
  rewrite <- (Z.abs_eq (2 ^ (eq1 - eq))) at 1 by lia.
  rewrite <- Z.abs_mul.
  replace ((Z.pos mq - c * 2 ^ (- eq1)) * 2 ^ (eq1 - eq))
    with (mq1 - c * W) by (rewrite <- Emq, EW; ring).
  exact HG.
Qed.

(** Multiplying an integer below [2 ^ 33] by a finite nonzero scale and
    dividing the product by the same scale, both in binary64, gives a float
    that rounds to the integer, unless the product overflows. *)
Lemma quotient_of_product n ss ms es :
  Z.abs n < 2 ^ 33 ->
  valid64 (S754_finite ss ms es) ->
  let s := S754_finite ss ms es in
  let p := SFmul 53 1024 (Z2F F64 n) s in
  (forall b, p <> S754_infinity b) ->
  valid64 p /\ fin_valid (SFdiv 53 1024 p s) /\
  round_half_even (SFdiv 53 1024 p s) = n.
Proof.
  intros Hn Hvs s p Hfin. subst s p.
  destruct (Z.eq_dec n 0) as [->|Hn0].
  - change (Z2F F64 0) with (S754_zero false). cbn [SFmul SFdiv].
    repeat split.
  - destruct (product_spec n ss ms es Hn0 Hn Hvs Hfin)
      as (mp & ep & Ep & Hvp & Herr).
    rewrite Ep. split; [exact Hvp|].
    destruct (quotient_spec (Z.abs n) (xorb (n <? 0) ss) mp ep ss ms es
                ltac:(lia) Hvp Hvs Herr) as (Hq & Hr).
    split; [exact Hq|]. rewrite Hr.
    replace (xorb (xorb (n <? 0) ss) ss) with (n <? 0)
      by (destruct (n <? 0), ss; reflexivity).
    destruct (Z.ltb_spec n 0); simpl; lia.
Qed.

(** * Arrays and 0-d operands *)

Lemma numel_app s t : numel (s ++ t) = (numel s * numel t)%nat.
Proof.
  unfold numel. induction s as [|a s IH]; simpl; [lia|].
  rewrite IH. lia.
Qed.

Lemma numel_rev s : numel (rev s) = numel s.
Proof.
  induction s as [|a s IH]; [reflexivity|].
  simpl rev. rewrite numel_app, IH. unfold numel. simpl. lia.
Qed.

(** An array seen through a broadcast to its own shape. *)
Lemma src_index_same s i : (i < numel s)%nat -> src_index s s i = i.
Proof.
  revert i. induction s as [|o s IH]; intros i Hi.
  - unfold numel in Hi. simpl in Hi. simpl. lia.
  - change (numel (o :: s)) with (o * numel s)%nat in Hi.
    assert (Ho : (0 < o)%nat) by (destruct o; lia).
    cbn [src_index].
    assert (Hd : (i / o < numel s)%nat)
      by (apply Nat.Div0.div_lt_upper_bound; lia).
    rewrite (IH _ Hd).
    destruct (Nat.eqb_spec o 1) as [->|Hne].
    + apply Nat.div_1_r.
    + pose proof (Nat.div_mod_eq i o). lia.
Qed.

Lemma map_nth_seq {X} (l : list X) d :
  map (fun i => nth i l d) (seq 0 (length l)) = l.
Proof.
  induction l as [|a l IH]; [reflexivity|].
  cbn [length seq map nth]. f_equal.
  rewrite <- seq_shift, map_map. exact IH.
Qed.

Lemma broadcast_to_same a :
  well_shaped a -> broadcast_to (shape a) a = data a.
Proof.
  intros Hw. unfold broadcast_to. rewrite <- Hw.
  rewrite <- (map_nth_seq (data a) (SI 0)) at 2.
  apply map_ext_in. intros i Hi. apply in_seq in Hi.
  rewrite src_index_same; [reflexivity|]. rewrite numel_rev, <- Hw. lia.
Qed.

Lemma src_index_nil out i : src_index out [] i = 0%nat.
Proof. destruct out; reflexivity. Qed.

(** A 0-d array seen through a broadcast: its element at each position. *)
Lemma broadcast_to_scalar s t e :
  broadcast_to s {| dt := t; shape := []; data := [e] |}
  = map (fun _ => e) (seq 0 (numel s)).
Proof.
  unfold broadcast_to. cbn [shape data rev]. apply map_ext. intros i.
  rewrite src_index_nil. reflexivity.
Qed.

Lemma broadcast_shapes_nil_r s : broadcast_shapes s [] = Some s.
Proof.
  unfold broadcast_shapes. cbn [rev].
  assert (E : broadcast_rev (rev s) [] = Some (rev s))
    by (destruct (rev s); reflexivity).
  rewrite E, rev_involutive. reflexivity.
Qed.

Lemma zip_with_const_r {X Y Z'} (f : X -> Y -> Z') l e :
  zip_with f l (map (fun _ => e) (seq 0 (length l)))
  = map (fun a => f a e) l.
Proof.
  generalize 0%nat. induction l as [|a l IH]; intros k; [reflexivity|].
  cbn [length seq map zip_with]. f_equal. apply IH.
Qed.

Section ScalarOperand.
Context {P : Platform}.

(** A binary ufunc whose second operand is a 0-d array: the operation is
    applied to each element of the first operand and the one element of
    the second. *)
Lemma np_binop_scalar lt f a t e :
  well_shaped a ->
  np_binop lt f a {| dt := t; shape := []; data := [e] |}
  = Returns {| dt := lt; shape := shape a;
               data := map (fun v => f (cast lt v) (cast lt e)) (data a) |}.
Proof.
  intros Hw. unfold np_binop. cbn [shape].
  rewrite broadcast_shapes_nil_r.
  rewrite (broadcast_to_same a Hw), broadcast_to_scalar, <- Hw.
  rewrite map_map, zip_with_map_l, zip_with_const_r. reflexivity.
Qed.
End ScalarOperand.

Lemma map_id_Forall {X} (f : X -> X) l :
  Forall (fun a => f a = a) l -> map f l = l.
Proof.
  induction 1 as [|a l Ha _ IH]; [reflexivity|].
  cbn [map]. rewrite Ha, IH. reflexivity.
Qed.

Lemma promote_int32 sg w :
  w <> W64 ->
  exists wD, promote_types int32 (DInt sg w) = DInt true wD /\
             (wD = W32 \/ wD = W64) /\
             forall v, in_range sg w v -> in_range true wD v.
Proof.
  intros Hw. unfold in_range, int_min, int_max.
  destruct sg, w; try congruence;
    (eexists; split; [reflexivity|]; split; [auto|]; cbn; lia).
Qed.

Ltac solve_ws :=
  unfold well_shaped, np_astype in *; cbn [data shape];
  rewrite ?List.length_map; assumption.

Section RoundTrip.
Context {P : Platform}.

(** One element through lines 49 and 54-55 with the same scale and zero
    point. *)
Lemma round_trip_elem sg w wD z se ss ms es e :
  w <> W64 ->
  promote_types int32 (DInt sg w) = DInt true wD ->
  (forall v, in_range sg w v -> in_range true wD v) ->
  in_range sg w z ->
  F2F F64 se = S754_finite ss ms es ->
  no_overflow sg w z (S754_finite ss ms es) e ->
  cast (DInt sg w)
    (clip_elem (DFloat F64) (int_min sg w) (int_max sg w)
       (float_op SFadd F64
          (cast (DFloat F64)
             (around_elem F64
                (float_op SFdiv F64
                   (cast (DFloat F64)
                      (float_op SFmul F64
                         (cast (DFloat F64)
                            (int_op Z.sub true wD
                               (cast (DInt true wD) (cast int32 e))
                               (cast (DInt true wD) (SI z))))
                         (cast (DFloat F64) (SF se))))
                   (cast (DFloat F64) (SF se)))))
          (cast (DFloat F64) (SI z)))) = e.
Proof.
  intros Hw HD Hin Hz Hs (v & -> & Hv & Hv32 & Hsub & Hfin).
  rewrite HD in Hsub. cbn [dtype_in_range] in Hsub.
  assert (Hvs : valid64 (S754_finite ss ms es))
    by (rewrite <- Hs; destruct se; try discriminate; apply binary_round_valid).
  assert (Hn : Z.abs (v - z) < 2 ^ 33).
  { clear - Hw Hv32 Hz. unfold in_range, int_min, int_max in *.
    destruct sg, w; try congruence; cbn in *; lia. }
  destruct (quotient_of_product (v - z) ss ms es Hn Hvs Hfin)
    as (Hvp & Hq & Hr).
  unfold int32. cbn [cast int_op float_op around_elem].
  rewrite (wrap_id true W32 v Hv32), (wrap_id true wD v (Hin v Hv)),
    (wrap_id true wD z (Hin z Hz)), (wrap_id true wD (v - z) Hsub).
  rewrite Hs. cbn [fprec femax].
  rewrite (F2F_valid_id _ Hvp).
  set (q := SFdiv 53 1024 (SFmul 53 1024 (Z2F F64 (v - z))
                              (S754_finite ss ms es))
                  (S754_finite ss ms es)) in *.
  pose proof (F_rint_int q Hq) as Hint. rewrite Hr in Hint.
  rewrite (int_float_F2F _ _ Hint).
  transitivity (SI (Z_clip (v - z + z) (int_min sg w) (int_max sg w))).
  { rewrite <- (requantize_code_int sg w _ (v - z) z Hw Hz Hint).
    reflexivity. }
  f_equal. replace (v - z + z) with v by lia.
  unfold in_range in Hv. unfold Z_clip. lia.
Qed.

(** X1. Round trip of lines 49 and 54-55.  For an integer tensor [x] of a
    dtype of at most 32 bits, a 0-d zero point [z] of the same dtype and a
    0-d scale whose binary64 value is finite and not zero: when nothing
    overflows in the dequantization of [x], requantizing the dequantized
    tensor with the same scale and zero point returns [x], with its dtype
    and shape. *)
Theorem round_trip sg w x z ws se ss ms es :
  w <> W64 ->
  dt x = DInt sg w -> well_shaped x ->
  in_range sg w z ->
  F2F F64 se = S754_finite ss ms es ->
  Forall (no_overflow sg w z (S754_finite ss ms es)) (data x) ->
  let zero_point := scalar_int (DInt sg w) z in
  let scale := {| dt := DFloat ws; shape := []; data := [SF se] |} in
  (float_x ← dequantize x zero_point scale;
   requantize float_x scale zero_point) = Returns x.
Proof.
  intros Hw Hdt Hsh Hz Hs Hno zero_point scale.
  destruct (promote_int32 sg w Hw) as (wD & HD & HwD & Hin).
  unfold dequantize, np_subtract. cbn [np_astype dt zero_point scalar_int].
  rewrite HD. unfold zero_point, scalar_int.
  rewrite np_binop_scalar by solve_ws.
  cbn [mbind result_bind shape data].
  unfold np_multiply. cbn [dt scale].
  assert (HF : promote_types (DInt true wD) (DFloat ws) = float64)
    by (destruct HwD as [-> | ->], ws; reflexivity).
  rewrite HF. unfold scale, float64.
  rewrite np_binop_scalar by solve_ws.
  cbn [mbind result_bind shape data].
  unfold requantize. cbn [dt np_iinfo mbind result_bind fst snd].
  unfold np_divide. cbn [dt].
  assert (HDv : divide_type (DFloat F64) (DFloat ws) = DFloat F64)
    by (destruct ws; reflexivity).
  rewrite HDv.
  rewrite np_binop_scalar by solve_ws.
  cbn [mbind result_bind shape data].
  unfold np_around. cbn [dt shape data].
  unfold np_add. cbn [dt].
  assert (Hp : promote_types (DFloat F64) (DInt sg w) = float64)
    by (destruct w; reflexivity).
  rewrite Hp. unfold float64.
  rewrite np_binop_scalar by solve_ws.
  cbn [mbind result_bind shape data].
  unfold np_astype, np_clip. cbn [dt shape data].
  rewrite !map_map. rewrite map_id_Forall.
  - destruct x as [dx sx lx]. cbn [dt shape data] in *. rewrite Hdt.
    reflexivity.
  - eapply Forall_impl; [exact Hno|]. intros e He.
    apply (round_trip_elem sg w wD z se ss ms es e Hw HD Hin Hz Hs He).
Qed.
End RoundTrip.

(** Witness of X1: uint8 values 3 and 200 with zero point 5
    and scale 0.5. *)
Lemma round_trip_witness :
  (float_x ← dequantize (P := indefinite_platform) (vec uint8 [3; 200])
                (scalar_int uint8 5) (scalar_f32 f_half);
   requantize (P := indefinite_platform) float_x (scalar_f32 f_half)
              (scalar_int uint8 5))
  = Returns (vec uint8 [3; 200]).
Proof.
  apply (round_trip (P := indefinite_platform) false W8 (vec uint8 [3; 200])
           5 F32 f_half false 4503599627370496 (-53)).
  - discriminate.
  - reflexivity.
  - reflexivity.
  - unfold in_range; simpl; lia.
  - reflexivity.
  - apply List.Forall_cons; [|apply List.Forall_cons; [|apply List.Forall_nil]];
      eexists; (split; [reflexivity|]);
      (split; [vm_compute; split; discriminate|]);
      (split; [vm_compute; split; discriminate|]);
      (split; [vm_compute; split; discriminate|]);
      intros b; vm_compute; discriminate.
Defined.

(** * The quantized addition is commutative *)

Lemma broadcast_rev_comm a b : broadcast_rev a b = broadcast_rev b a.
Proof.
  revert b. induction a as [|x a IH]; intros [|y b]; try reflexivity.
  cbn [broadcast_rev]. rewrite (IH b).
  destruct (broadcast_rev b a) as [s|]; [|reflexivity].
  destruct (Nat.eqb_spec x y) as [->|Hxy].
  - rewrite Nat.eqb_refl. reflexivity.
  - destruct (Nat.eqb_spec y x) as [->|_]; [congruence|].
    destruct (Nat.eqb_spec x 1) as [->|Hx], (Nat.eqb_spec y 1) as [->|Hy];
      try reflexivity; congruence.
Qed.

Lemma broadcast_shapes_comm a b : broadcast_shapes a b = broadcast_shapes b a.
Proof. unfold broadcast_shapes. rewrite broadcast_rev_comm. reflexivity. Qed.

Lemma promote_types_comm a b : promote_types a b = promote_types b a.
Proof.
  destruct a as [|[] []|[]], b as [|[] []|[]]; reflexivity.
Qed.

Lemma zip_with_comm {X Y} (f : X -> X -> Y) l1 l2 :
  (forall a b, f a b = f b a) -> zip_with f l1 l2 = zip_with f l2 l1.
Proof.
  intros Hf. revert l2. induction l1 as [|a l1 IH]; intros [|b l2];
    try reflexivity.
  cbn [zip_with]. rewrite Hf, IH. reflexivity.
Qed.

Lemma SFadd_comm prec emax x y : SFadd prec emax x y = SFadd prec emax y x.
Proof.
  destruct x as [sx|sx| |sx mx ex], y as [sy|sy| |sy my ey]; try reflexivity.
  - cbn [SFadd]. destruct sx, sy; reflexivity.
  - cbn [SFadd]. destruct sx, sy; reflexivity.
  - cbn [SFadd]. rewrite (Z.min_comm ey ex). rewrite Z.add_comm. reflexivity.
Qed.

Section Commutative.
Context {P : Platform}.

Lemma np_binop_comm lt f a b :
  (forall x y, f x y = f y x) -> np_binop lt f a b = np_binop lt f b a.
Proof.
  intros Hf. unfold np_binop. rewrite broadcast_shapes_comm.
  destruct (broadcast_shapes (shape b) (shape a)) as [s|]; [|reflexivity].
  f_equal. f_equal. apply zip_with_comm, Hf.
Qed.

Lemma np_add_comm a b : np_add a b = np_add b a.
Proof.
  unfold np_add. rewrite promote_types_comm.
  destruct (promote_types (dt b) (dt a)) as [|sg w|w]; apply np_binop_comm.
  - intros [x|x] [y|y]; cbn [bool_op]; try reflexivity.
    rewrite orb_comm. reflexivity.
  - intros [x|x] [y|y]; cbn [int_op]; try reflexivity.
    rewrite Z.add_comm. reflexivity.
  - intros [x|x] [y|y]; cbn [float_op]; try reflexivity.
    rewrite SFadd_comm. reflexivity.
Qed.

(** X2. Lines 49 to 55 do not depend on the order of the two operands: when
    the quantized addition of [(A, A_zero_point, A_scale)] and
    [(B, B_zero_point, B_scale)] returns a tensor, the addition with the
    two operands exchanged returns the same tensor. *)
Theorem qlinear_add_comm A Az As_ B_ Bz Bs Cs Cz y :
  qlinear_add A Az As_ B_ Bz Bs Cs Cz = Returns y ->
  qlinear_add B_ Bz Bs A Az As_ Cs Cz = Returns y.
Proof.
  unfold qlinear_add. intros H.
  destruct (dequantize A Az As_) as [fa|e]; [|discriminate].
  destruct (dequantize B_ Bz Bs) as [fb|e]; [|discriminate].
  cbn [mbind result_bind] in *. rewrite np_add_comm. exact H.
Qed.
End Commutative.

(** Witness of X2: [20] at scale 0.5 added to [10, 30] at scale 1.0, in both
    orders. *)
Lemma qlinear_add_comm_witness :
  qlinear_add (P := indefinite_platform)
    (vec uint8 [20]) (scalar_int uint8 0) (scalar_f32 f_half)
    (vec uint8 [10; 30]) (scalar_int uint8 0) (scalar_f32 f_one)
    (scalar_f32 f_one) (scalar_int uint8 0)
  = Returns (vec uint8 [20; 40]).
Proof.
  apply (qlinear_add_comm (P := indefinite_platform)
           (vec uint8 [10; 30]) (scalar_int uint8 0) (scalar_f32 f_one)
           (vec uint8 [20]) (scalar_int uint8 0) (scalar_f32 f_half)).
  vm_compute. reflexivity.
Defined.

(** * More on [__getattr__] *)

Section GetattrMore.
Context {P : Platform} {B : OpBase}.

Lemma none_at_lookup n item :
  none_at n item ->
  attr n !! item = None \/
  exists a, attr n !! item = Some a /\ attr_value a = PNone.
Proof.
  intros Hn. destruct (attr n !! item) as [a|] eqn:E; [right | left; reflexivity].
  exists a. split; [reflexivity|]. apply Hn. exists a. auto.
Qed.

Lemma getattr_none_at_miss item n :
  none_at n item -> getattr item n = getattr_miss getattr_A item n.
Proof.
  intros Hn. unfold getattr. rewrite getattr_with_unfold.
  destruct (none_at_lookup n item Hn) as [-> | (a & -> & ->)]; reflexivity.
Qed.

(** X5. A scale that is not declared is read from its input position as
    [np.array(ret).astype(np.float32)], whatever the dtype of the input
    tensor, and is stored as a TENSOR attribute. *)
Theorem scale_read_as_float32 item idx n a :
  index_of item input_names = Some idx ->
  contains "scale" item = true ->
  none_at n item ->
  nth idx (inputs n) None = Some a ->
  getattr item n =
  (Returns (PArr (np_astype float32 a)),
   {| attr := <[item := mk_attr item TENSOR (PArr (np_astype float32 a))]>
                (attr n);
      inputs := inputs n; out_tensor := out_tensor n |}).
Proof.
  intros Hidx Hsc Hn Hnth.
  assert (Hlt : (idx < length (inputs n))%nat).
  { destruct (Nat.lt_ge_cases idx (length (inputs n))) as [H|H]; [exact H|].
    rewrite nth_overflow in Hnth by exact H. discriminate. }
  rewrite (getattr_none_at_miss item n Hn).
  unfold getattr_miss, from_input, mbind_M, try_except, get_input_tensors.
  rewrite Hidx. apply Nat.ltb_lt in Hlt. rewrite Hlt, Hsc, Hnth.
  reflexivity.
Qed.

(** X6. A lookup that returned a value has cached it: the next lookup
    returns the same value and leaves the object as it is, also after the
    input tensors of the node were replaced. *)
Theorem lookup_is_cached item n v n' ins :
  getattr item n = (Returns v, n') -> v <> PNone ->
  getattr item (with_inputs n' ins) = (Returns v, with_inputs n' ins).
Proof.
  intros H Hv. destruct (getattr_spec _ _ _ _ H) as (_ & _ & Hst).
  apply getattr_hit; [|exact Hv].
  destruct (Hst v eq_refl Hv) as (a & Ha & Hav). exists a. auto.
Qed.

(** X7. An exception of [__getattr__] is an exception of the base lookup:
    whatever is raised while the input tensors are read is caught. *)
Theorem getattr_raises_from_base item n e n' :
  getattr item n = (Raises e, n') -> super_getattr item n' = Raises e.
Proof.
  assert (Hmiss : forall m, getattr_miss getattr_A item m = (Raises e, n') ->
                            super_getattr item n' = Raises e).
  { intros m H. unfold getattr_miss in H. unfold mbind_M at 1 in H.
    unfold try_except, self_call, mreturn in H.
    repeat case_match; simplify_eq; assumption. }
  intros H. unfold getattr in H. rewrite getattr_with_unfold in H.
  destruct (attr n !! item) as [a|]; [|exact (Hmiss _ H)].
  destruct (is_none (attr_value a)); [exact (Hmiss _ H) | discriminate].
Qed.

Lemma not_input_not_zero_point item :
  index_of item input_names = None -> str_in item zero_point_names = false.
Proof.
  unfold index_of, str_in, input_names, zero_point_names, existsb.
  destruct (String.eqb item "A"); [discriminate|].
  destruct (String.eqb item "A_scale"); [discriminate|].
  destruct (String.eqb item "A_zero_point"); [discriminate|].
  destruct (String.eqb item "B"); [discriminate|].
  destruct (String.eqb item "B_scale"); [discriminate|].
  destruct (String.eqb item "B_zero_point"); [discriminate|].
  destruct (String.eqb item "C_scale"); [discriminate|].
  destruct (String.eqb item "C_zero_point"); [discriminate|].
  reflexivity.
Qed.

(** X8. A name that is not declared and has no input tensor behind it (it is
    no input name, or its position is beyond the inputs and it is no zero
    point) is looked up in the base class, and the object stays as it is. *)
Theorem getattr_falls_through item n :
  none_at n item ->
  index_of item input_names = None \/
  (exists idx, index_of item input_names = Some idx /\
               (length (inputs n) <= idx)%nat /\
               str_in item zero_point_names = false) ->
  getattr item n = (super_getattr item n, n).
Proof.
  intros Hn Hcase. rewrite (getattr_none_at_miss item n Hn).
  unfold getattr_miss, from_input, mbind_M, try_except, get_input_tensors.
  destruct Hcase as [Hidx | (idx & Hidx & Hlen & Hz)].
  - rewrite Hidx. unfold mreturn, default_zero_point, mbind_M.
    cbn [is_none andb]. rewrite (not_input_not_zero_point item Hidx).
    reflexivity.
  - rewrite Hidx. apply Nat.ltb_ge in Hlen. rewrite Hlen.
    unfold mreturn, default_zero_point, mbind_M.
    cbn [is_none andb]. rewrite Hz. reflexivity.
Qed.
End GetattrMore.

(** Witness of X5: the scale of [A] of the scenario node. *)
Lemma scale_read_as_float32_witness :
  getattr (P := indefinite_platform) (B := plain_base) "A_scale" scenario_node
  = (Returns (PArr (np_astype (P := indefinite_platform) float32 (scalar_f32 f_half))),
     {| attr := <["A_scale"%string :=
                    mk_attr "A_scale" TENSOR
                      (PArr (np_astype (P := indefinite_platform) float32 (scalar_f32 f_half)))]>
                  (attr scenario_node);
        inputs := inputs scenario_node;
        out_tensor := out_tensor scenario_node |}).
Proof.
  apply (scale_read_as_float32 (P := indefinite_platform) (B := plain_base)
           "A_scale" 1 scenario_node (scalar_f32 f_half)).
  - reflexivity.
  - reflexivity.
  - intros w (a & Ha & _). discriminate Ha.
  - reflexivity.
Defined.

(** Witness of X6: [A] of the scenario node, looked up again after the
    inputs were removed. *)
Lemma lookup_is_cached_witness :
  getattr (P := indefinite_platform) (B := plain_base) "A"
    (with_inputs (getattr (P := indefinite_platform) (B := plain_base)
                    "A" scenario_node).2 [])
  = (Returns (PArr (vec uint8 [10; 20])),
     with_inputs (getattr (P := indefinite_platform) (B := plain_base)
                    "A" scenario_node).2 []).
Proof.
  apply (lookup_is_cached (P := indefinite_platform) (B := plain_base)
           "A" scenario_node).
  - reflexivity.
  - discriminate.
Defined.

(** Witness of X7: a name that a base class with a strict lookup does not
    know. *)
Lemma getattr_raises_from_base_witness :
  super_getattr (OpBase := strict_base) "axis" empty_node
  = Raises AttributeError.
Proof.
  apply (getattr_raises_from_base (P := indefinite_platform)
           (B := strict_base) "axis" empty_node).
  reflexivity.
Defined.

(** Witness of X8: the output scale of a node with five inputs. *)
Lemma getattr_falls_through_witness :
  getattr (P := indefinite_platform) (B := plain_base) "C_scale"
          five_inputs_node
  = (super_getattr (OpBase := plain_base) "C_scale" five_inputs_node,
     five_inputs_node).
Proof.
  apply (getattr_falls_through (P := indefinite_platform) (B := plain_base)).
  - intros w (a & Ha & _). discriminate Ha.
  - right. exists 6%nat. split; [reflexivity|]. split; [simpl; lia|].
    reflexivity.
Defined.

(** * More on [infer_shape] *)

Section InferShapeMore.
Context {P : Platform} {B : OpBase}.

Lemma requantize_returns float_y scale zero_point out :
  requantize float_y scale zero_point = Returns out ->
  exists sg w, dt zero_point = DInt sg w /\ int_array sg w out.
Proof.
  unfold requantize. intros H.
  destruct (dt zero_point) as [|sg w|fw] eqn:Et; try discriminate.
  cbn [np_iinfo mbind result_bind] in H.
  destruct (np_divide float_y scale) as [q|e]; [|discriminate].
  cbn [mbind result_bind] in H.
  destruct (np_add (np_around q) zero_point) as [s|e]; [|discriminate].
  injection H as <-. exists sg, w. split; [reflexivity|].
  apply (astype_int_array sg w).
Qed.

(** X3. When [infer_shape] returns, the output tensor of the node is set; it
    has the dtype of the output zero point as the lookup resolved it, an
    integer dtype, and each of its elements is within the range of that
    dtype. *)
Theorem infer_shape_output n n' :
  infer_shape n = (Returns tt, n') ->
  exists out Cz sg w,
    out_tensor n' = Some out /\
    stored n' "C_zero_point" (PArr Cz) /\ dt Cz = DInt sg w /\
    dt out = DInt sg w /\ Forall (int_elem sg w) (data out).
Proof.
  intros H.
  destruct (infer_shape_returns _ _ H)
    as (A & Az & As_ & B_ & Bz & Bs & Cs & Cz & out & nf &
        _ & _ & _ & Hres & Hq & ->).
  destruct Hres as (_ & _ & _ & _ & _ & _ & _ & SCz).
  unfold qlinear_add in Hq.
  apply result_bind_returns in Hq as (fa & _ & Hq).
  apply result_bind_returns in Hq as (fb & _ & Hq).
  apply result_bind_returns in Hq as (fy & _ & Hq).
  destruct (requantize_returns _ _ _ _ Hq) as (sg & w & Hdt & Hdo & Hel).
  exists out, Cz, sg, w. repeat split; auto.
Qed.

(** What a part of a method may do to the object: keep the inputs, the
    output tensor and the stored values. *)
Definition framed {X} (c : M X) : Prop :=
  forall n r n', c n = (r, n') -> preserves n n'.

(** ... and, at most, set the output tensor at the end of a run that
    returns. *)
Definition framed_but_out {X} (c : M X) : Prop :=
  forall n r n', c n = (r, n') ->
    exists nf, preserves n nf /\
               (n' = nf \/ exists a out, r = Returns a /\ n' = with_out nf out).

Lemma framed_bind {X Y} (c : M X) (k : X -> M Y) :
  framed c -> (forall a, framed (k a)) -> framed (mbind_M c k).
Proof.
  intros Hc Hk n r n' H. unfold mbind_M in H.
  destruct (c n) as [[a|e] n1] eqn:E.
  - eapply preserves_trans; [exact (Hc _ _ _ E) | exact (Hk a _ _ _ H)].
  - injection H as <- <-. exact (Hc _ _ _ E).
Qed.

Lemma framed_but_out_bind {X Y} (c : M X) (k : X -> M Y) :
  framed c -> (forall a, framed_but_out (k a)) -> framed_but_out (mbind_M c k).
Proof.
  intros Hc Hk n r n' H. unfold mbind_M in H.
  destruct (c n) as [[a|e] n1] eqn:E.
  - destruct (Hk a _ _ _ H) as (nf & Pf & Hn').
    exists nf. split; [|exact Hn'].
    eapply preserves_trans; [exact (Hc _ _ _ E) | exact Pf].
  - injection H as <- <-. exists n1. split; [exact (Hc _ _ _ E) | left; reflexivity].
Qed.

Lemma framed_lift {X} (r : result X) : framed (lift r).
Proof. intros n r' n' [= <- <-]. apply preserves_refl. Qed.

Lemma framed_self_call {X} (f : node -> result X) : framed (self_call f).
Proof. intros n r' n' [= <- <-]. apply preserves_refl. Qed.

Lemma framed_mreturn {X} (a : X) : framed (mreturn a).
Proof. intros n r' n' [= <- <-]. apply preserves_refl. Qed.

Lemma framed_mraise {X} e : framed (mraise (A := X) e).
Proof. intros n r' n' [= <- <-]. apply preserves_refl. Qed.

Lemma framed_get_input_tensors : framed get_input_tensors.
Proof. intros n r' n' [= <- <-]. apply preserves_refl. Qed.

Lemma framed_getattr item : framed (getattr item).
Proof. intros n r n' H. apply (getattr_spec _ _ _ _ H). Qed.

Lemma framed_but_out_set t : framed_but_out (set_out_tensor t).
Proof.
  intros n r n' [= <- <-]. exists n. split; [apply preserves_refl|].
  right. exists tt, t. split; reflexivity.
Qed.

Lemma infer_shape_framed : framed_but_out infer_shape.
Proof.
  unfold infer_shape.
  apply framed_but_out_bind; [apply framed_self_call | intros _].
  apply framed_but_out_bind; [apply framed_get_input_tensors | intros ins].
  apply framed_but_out_bind.
  { destruct (7 <=? length ins)%nat; [apply framed_mreturn|].
    apply framed_bind; [apply framed_getattr | intros; apply framed_mraise]. }
  intros _.
  repeat (apply framed_but_out_bind;
          [first [apply framed_getattr | apply framed_lift] | intros ?]).
  apply framed_but_out_set.
Qed.

(** X4. Whatever its outcome, [infer_shape] leaves the input tensors of the
    node and every value the attribute store holds as they are; the
    output tensor changes only at the end of a run that returns. *)
Theorem infer_shape_frame n r n' :
  infer_shape n = (r, n') ->
  inputs n' = inputs n /\
  (forall k v, stored n k v -> v <> PNone -> stored n' k v) /\
  (r <> Returns tt -> out_tensor n' = out_tensor n).
Proof.
  intros H. destruct (infer_shape_framed _ _ _ H) as (nf & (Hi & Ho & Hs) & Hn').
  destruct Hn' as [-> | (a & out & -> & ->)].
  - auto.
  - split; [exact Hi|]. split; [exact Hs|].
    intros Hne. destruct a. contradiction.
Qed.
End InferShapeMore.

(** Witness of X3: the scenario node. *)
Lemma infer_shape_output_witness :
  exists out Cz sg w,
    out_tensor (infer_shape (P := indefinite_platform) (B := plain_base)
                            scenario_node).2 = Some out /\
    stored (infer_shape (P := indefinite_platform) (B := plain_base)
                        scenario_node).2 "C_zero_point" (PArr Cz) /\
    dt Cz = DInt sg w /\
    dt out = DInt sg w /\ Forall (int_elem sg w) (data out).
Proof.
  apply (infer_shape_output (P := indefinite_platform) (B := plain_base)
           scenario_node).
  vm_compute. reflexivity.
Defined.

(** Witness of X4: the node with five inputs, on which [infer_shape]
    raises. *)
Lemma infer_shape_frame_witness :
  inputs (infer_shape (P := indefinite_platform) (B := plain_base)
                      five_inputs_node).2 = inputs five_inputs_node /\
  (forall k v, stored five_inputs_node k v -> v <> PNone ->
     stored (infer_shape (P := indefinite_platform) (B := plain_base)
                         five_inputs_node).2 k v) /\
  ((infer_shape (P := indefinite_platform) (B := plain_base)
                five_inputs_node).1 <> Returns tt ->
   out_tensor (infer_shape (P := indefinite_platform) (B := plain_base)
                           five_inputs_node).2 = out_tensor five_inputs_node).
Proof.
  apply (infer_shape_frame (P := indefinite_platform) (B := plain_base)
           five_inputs_node).
  apply surjective_pairing.
Defined.

(** * The logical conversions at run time *)

Section LogicalValues.
Import Torch.
Variable scalarType : value -> option string.
Variable tensor_sizes : value -> option (list (option Z)).

Lemma eval_nodes_app l1 l2 env :
  eval_nodes (l1 ++ l2) env = env' ← eval_nodes l1 env; eval_nodes l2 env'.
Proof.
  revert env. induction l1 as [|n l1 IH]; intros env; [reflexivity|].
  cbn [app eval_nodes].
  destruct (mapM (fun v => env !! v) (op_inputs n)) as [args|]; [|reflexivity].
  cbn [mbind option_bind].
  destruct (eval_op n args) as [t|]; [|reflexivity].
  cbn [mbind option_bind]. apply IH.
Qed.

Lemma negate_truthy z : negate (truthy z) = negate z.
Proof. unfold negate, truthy. destruct (z =? 0); reflexivity. Qed.

(** What [convert_to_bool] emits computes [as_bool] of the value of its
    argument, and keeps the values of the graph so far. *)
Lemma convert_to_bool_value input g env env0 x :
  eval_nodes (nodes g) env = Some env0 -> env0 !! input = Some x ->
  forall v g', convert_to_bool scalarType input g = (v, g') ->
  exists env1,
    eval_nodes (nodes g') env = Some env1 /\
    env1 !! v = Some (as_bool scalarType input x) /\
    (next_value g <= next_value g')%nat /\
    ((input < next_value g)%nat -> (v < next_value g')%nat) /\
    (forall u, (u < next_value g)%nat -> env1 !! u = env0 !! u).
Proof.
  intros He Hx v g' H. unfold convert_to_bool, as_bool in *.
  destruct (decide (scalarType input = Some "Bool"%string)) as [Eb|Eb].
  - rewrite bool_decide_eq_false_2 in H by (intros Hn; exact (Hn Eb)).
    rewrite bool_decide_eq_true_2 by exact Eb.
    injection H as <- <-. exists env0. auto 6.
  - rewrite bool_decide_eq_true_2 in H by exact Eb.
    rewrite bool_decide_eq_false_2 by exact Eb.
    unfold g_op in H. injection H as <- <-. cbn [nodes next_value].
    exists (<[next_value g := map truthy x]> env0).
    split; [|split; [apply lookup_insert_eq | split; [lia | split; [lia|]]]].
    + rewrite eval_nodes_app, He. cbn [mbind option_bind eval_nodes op_inputs].
      cbn [mapM]. rewrite Hx. reflexivity.
    + intros u Hu. apply lookup_insert_ne. lia.
Qed.

(** X9. [convert_logical_not] at run time: the returned value is the
    elementwise negation of the argument (1 where the argument is 0, and 0
    elsewhere), whether the argument is of static type Bool, and goes
    unchanged into [Not], or of another type, and goes through a [Cast]. *)
Theorem convert_logical_not_value input g env env0 x :
  eval_nodes (nodes g) env = Some env0 -> env0 !! input = Some x ->
  exists v g',
    convert_logical_not scalarType input g = Returns (v, g') /\
    eval_value g' env v = Some (map negate x).
Proof.
  intros He Hx. unfold convert_logical_not, convert_logical.
  cbn [String.length Nat.ltb Nat.leb].
  destruct (convert_to_bool scalarType input g) as [a g1] eqn:E1.
  destruct (convert_to_bool_value input g env env0 x He Hx a g1 E1)
    as (env1 & He1 & Ha & _).
  eexists _, _. split; [reflexivity|].
  unfold eval_value, g_op. cbn [nodes next_value].
  rewrite eval_nodes_app, He1.
  cbn [mbind option_bind eval_nodes op_inputs mapM]. rewrite Ha.
  cbn [mbind option_bind mret option_ret fmap option_map eval_op op_type op_attrs].
  rewrite lookup_insert_eq. f_equal.
  unfold as_bool. destruct (bool_decide _); [reflexivity|].
  rewrite map_map. apply map_ext. intros z. apply negate_truthy.
Qed.

Lemma differing_nonneg x y : 0 <= differing x y.
Proof.
  unfold differing. revert y. induction x as [|a x IH]; intros [|b y];
    cbn [zip_with map fold_right]; try lia.
  specialize (IH y). unfold negate at 1.
  destruct (a =? b); cbn; lia.
Qed.

Lemma differing_zero x y :
  length x = length y -> (differing x y = 0 <-> x = y).
Proof.
  revert y. induction x as [|a x IH]; intros [|b y] Hl; try discriminate Hl.
  - split; reflexivity.
  - injection Hl as Hl. specialize (IH y Hl).
    pose proof (differing_nonneg x y) as Hp.
    unfold differing in *. cbn [zip_with map fold_right].
    unfold negate at 1. destruct (Z.eqb_spec a b) as [->|Hab]; cbn [Z.eqb].
    + rewrite Z.add_0_l. rewrite IH. split; [intros ->; reflexivity|].
      intros [= ->]. reflexivity.
    + split; [lia | intros [= E _]; contradiction].
Qed.

(** X10. [convert_equal] at run time, for two values of the same static sizes
    that hold tensors of the same length: the returned value is true
    exactly when the two tensors agree after [convert_to_bool], that is,
    for values whose static type is not Bool, when they are zero at the
    same positions. *)
Theorem convert_equal_value input other g env env0 x y :
  tensor_sizes input = tensor_sizes other ->
  (input < next_value g)%nat -> (other < next_value g)%nat ->
  eval_nodes (nodes g) env = Some env0 ->
  env0 !! input = Some x -> env0 !! other = Some y ->
  length x = length y ->
  exists v g',
    convert_equal scalarType tensor_sizes input other g = Returns (v, g') /\
    eval_value g' env v =
    Some [if bool_decide (as_bool scalarType input x
                          = as_bool scalarType other y) then 1 else 0].
Proof.
  intros Hs Hi Ho He Hx Hy Hl. unfold convert_equal, convert_logical.
  rewrite bool_decide_eq_false_2 by (intros Hn; exact (Hn Hs)).
  cbn [String.length Nat.ltb Nat.leb].
  destruct (convert_to_bool scalarType input g) as [a g1] eqn:E1.
  destruct (convert_to_bool_value input g env env0 x He Hx a g1 E1)
    as (env1 & He1 & Ha & Hg1 & Hva & Hk1).
  destruct (convert_to_bool scalarType other g1) as [b g2] eqn:E2.
  assert (Hy1 : env1 !! other = Some y) by (rewrite Hk1; auto).
  destruct (convert_to_bool_value other g1 env env1 y He1 Hy1 b g2 E2)
    as (env2 & He2 & Hb & Hg2 & _ & Hk2).
  assert (Ha2 : env2 !! a = Some (as_bool scalarType input x))
    by (rewrite Hk2; auto).
  eexists _, _. split; [reflexivity|].
  set (X := as_bool scalarType input x) in *.
  set (Y := as_bool scalarType other y) in *.
  assert (HlXY : length X = length Y).
  { unfold X, Y, as_bool.
    destruct (bool_decide _), (bool_decide _); rewrite ?length_map; exact Hl. }
  unfold eval_value, g_op. cbn [nodes next_value].
  rewrite !eval_nodes_app, He2.
  cbn [mbind option_bind eval_nodes op_inputs mapM op_output].
  rewrite Ha2, Hb.
  cbn [mbind option_bind mret option_ret fmap option_map eval_op op_type op_attrs].
  apply Nat.eqb_eq in HlXY. rewrite HlXY. apply Nat.eqb_eq in HlXY.
  cbn [mbind option_bind]. rewrite lookup_insert_eq.
  cbn [mbind option_bind mret option_ret fmap option_map]. rewrite lookup_insert_eq.
  cbn [mbind option_bind mret option_ret fmap option_map]. rewrite lookup_insert_eq.
  cbn [mbind option_bind mret option_ret fmap option_map]. rewrite lookup_insert_eq.
  f_equal. cbn [map]. f_equal. fold (differing X Y).
  pose proof (differing_zero X Y HlXY) as Hz.
  unfold negate. destruct (Z.eqb_spec (differing X Y) 0) as [E|E].
  - rewrite bool_decide_eq_true_2 by (apply Hz; exact E). reflexivity.
  - rewrite bool_decide_eq_false_2 by (intros HXY; apply E, Hz, HXY).
    reflexivity.
Qed.
End LogicalValues.

(** Witness of X9: the int64 tensor [2]. *)
Lemma convert_logical_not_value_witness :
  exists v g',
    convert_logical_not long_type 0%nat two_args_graph = Returns (v, g') /\
    Torch.eval_value g' run_time_2_3 v = Some (map Torch.negate [2]).
Proof.
  apply (convert_logical_not_value long_type 0%nat two_args_graph
           run_time_2_3 run_time_2_3 [2]); reflexivity.
Defined.

(** Witness of X10: the int64 tensors [2] and [3]. *)
Lemma convert_equal_value_witness :
  exists v g',
    Torch.convert_equal long_type shape_1 0%nat 1%nat two_args_graph
    = Returns (v, g') /\
    Torch.eval_value g' run_time_2_3 v =
    Some [if bool_decide (as_bool long_type 0%nat [2]
                          = as_bool long_type 1%nat [3]) then 1 else 0].
Proof.
  apply (convert_equal_value long_type shape_1 0%nat 1%nat two_args_graph
           run_time_2_3 run_time_2_3 [2] [3]);
    try reflexivity; simpl; lia.
Defined.


(** * The conversions of additions, subtractions and convolutions *)

Section AddSubValues.
Import Symbolic.
Variable alpha_is_one : value -> result bool.

Lemma sym_eval_nodes_app l1 l2 env :
  eval_nodes (l1 ++ l2) env = env' ← eval_nodes l1 env; eval_nodes l2 env'.
Proof.
  revert env. induction l1 as [|n l1 IH]; intros env; [reflexivity|].
  cbn [app eval_nodes].
  destruct (mapM (fun v => env !! v) (op_inputs n)) as [args|]; [|reflexivity].
  cbn [mbind option_bind].
  destruct (eval_op n args) as [t|]; [|reflexivity].
  cbn [mbind option_bind]. apply IH.
Qed.

Lemma map_mul_one (y : tensor) : map (fun c => c * 1) y = y.
Proof.
  induction y as [|c y IH]; [reflexivity|].
  cbn [map]. rewrite IH, Z.mul_1_r. reflexivity.
Qed.

Lemma broadcast2_mul_scalar (y : tensor) a :
  broadcast2 Z.mul y [a] = Some (map (fun c => c * a) y).
Proof. destruct y as [|? [|? ?]]; reflexivity. Qed.

Lemma convert_add_sub_value op f (input other : value) alpha g env env0
      (x y : tensor) a :
  (op = "Add"%string /\ f = Z.add) \/ (op = "Sub"%string /\ f = Z.sub) ->
  eval_nodes (nodes g) env = Some env0 ->
  env0 !! input = Some x -> env0 !! other = Some y ->
  (input < next_value g)%nat ->
  alpha_value alpha_is_one env0 alpha a ->
  exists v g',
    convert_add_sub alpha_is_one input other alpha op g = Returns (v, g') /\
    eval_value g' env v = broadcast2 f x (map (fun c => c * a) y).
Proof.
  intros Hop He Hx Hy Hlt Ha.
  assert (Hplain : eval_value (g_op op [input; other] [] g).2 env
                              (g_op op [input; other] [] g).1
                   = broadcast2 f x y).
  { unfold eval_value, g_op. cbn [fst snd nodes].
    rewrite sym_eval_nodes_app, He.
    cbn [mbind option_bind eval_nodes op_inputs mapM op_output].
    rewrite Hx. cbn [mbind option_bind]. rewrite Hy.
    cbn [mbind option_bind mret option_ret fmap option_map].
    destruct Hop as [(-> & ->)|(-> & ->)]; cbn [eval_op op_type];
      (destruct (broadcast2 _ x y) as [t|]; [|reflexivity]);
      cbn [mbind option_bind]; apply lookup_insert_eq. }
  unfold convert_add_sub. destruct alpha as [al|]; cbn [alpha_value] in Ha.
  - destruct Ha as (Hal & b & Hb & Hone). rewrite Hb. cbn [mbind result_bind].
    destruct b; cbn [negb].
    + rewrite (Hone eq_refl), map_mul_one.
      eexists _, _. split; [reflexivity | exact Hplain].
    + eexists _, _. split; [reflexivity|].
      unfold eval_value, g_op. cbn [fst snd nodes next_value].
      rewrite !sym_eval_nodes_app, He.
      cbn [mbind option_bind eval_nodes op_inputs mapM op_output].
      rewrite Hy. cbn [mbind option_bind]. rewrite Hal.
      cbn [mbind option_bind mret option_ret fmap option_map].
      change (eval_op (mk_gnode "Mul" [other; al] [] (next_value g)) [y; [a]])
        with (broadcast2 Z.mul y [a]).
      rewrite broadcast2_mul_scalar. cbn [mbind option_bind].
      rewrite (lookup_insert_ne _ (next_value g) input)
        by (unfold value in *; lia).
      rewrite Hx. cbn [mbind option_bind]. rewrite lookup_insert_eq.
      cbn [mbind option_bind mret option_ret fmap option_map].
      destruct Hop as [(-> & ->)|(-> & ->)]; cbn [eval_op op_type];
        (destruct (broadcast2 _ x (map (fun c => c * a) y)) as [t|];
         [|reflexivity]);
        cbn [mbind option_bind]; apply lookup_insert_eq.
  - subst a. rewrite map_mul_one.
    eexists _, _. split; [reflexivity | exact Hplain].
Qed.

(** X11. At run time, the value returned by [convert_add] is
    [input + alpha * other], that of [convert_sub] is
    [input - alpha * other], and that of [convert_rsub] is
    [other - alpha * input], for operands known to the graph and a
    one-element [alpha]; [alpha] counts as 1 when it is absent, and has to
    be 1 where the conversion takes it to be one and leaves the
    multiplication out. *)
Theorem convert_add_sub_rsub_value (input other : value) alpha g env env0
        (x y : tensor) a :
  eval_nodes (nodes g) env = Some env0 ->
  env0 !! input = Some x -> env0 !! other = Some y ->
  (input < next_value g)%nat -> (other < next_value g)%nat ->
  alpha_value alpha_is_one env0 alpha a ->
  (exists v g',
     convert_add alpha_is_one input other alpha g = Returns (v, g') /\
     eval_value g' env v = broadcast2 Z.add x (map (fun c => c * a) y)) /\
  (exists v g',
     convert_sub alpha_is_one input other alpha g = Returns (v, g') /\
     eval_value g' env v = broadcast2 Z.sub x (map (fun c => c * a) y)) /\
  (exists v g',
     convert_rsub alpha_is_one input other alpha g = Returns (v, g') /\
     eval_value g' env v = broadcast2 Z.sub y (map (fun c => c * a) x)).
Proof.
  intros He Hx Hy Hi Ho Ha. unfold convert_add, convert_sub, convert_rsub.
  split; [|split].
  - apply (convert_add_sub_value "Add" Z.add input other alpha g env env0);
      auto.
  - apply (convert_add_sub_value "Sub" Z.sub input other alpha g env env0);
      auto.
  - apply (convert_add_sub_value "Sub" Z.sub other input alpha g env env0);
      auto.
Qed.
End AddSubValues.

(** Witness of X11: [1, 2] and [10, 20] with [alpha] = 3. *)
Lemma convert_add_sub_rsub_value_witness :
  (exists v g',
     Symbolic.convert_add (fun _ => Returns false) 0%nat 1%nat (Some 2%nat)
       Symbolic.three_values_graph = Returns (v, g') /\
     Symbolic.eval_value g' Symbolic.run_time_three v
     = Symbolic.broadcast2 Z.add [1; 2] (map (fun c => c * 3) [10; 20])) /\
  (exists v g',
     Symbolic.convert_sub (fun _ => Returns false) 0%nat 1%nat (Some 2%nat)
       Symbolic.three_values_graph = Returns (v, g') /\
     Symbolic.eval_value g' Symbolic.run_time_three v
     = Symbolic.broadcast2 Z.sub [1; 2] (map (fun c => c * 3) [10; 20])) /\
  (exists v g',
     Symbolic.convert_rsub (fun _ => Returns false) 0%nat 1%nat (Some 2%nat)
       Symbolic.three_values_graph = Returns (v, g') /\
     Symbolic.eval_value g' Symbolic.run_time_three v
     = Symbolic.broadcast2 Z.sub [10; 20] (map (fun c => c * 3) [1; 2])).
Proof.
  apply (convert_add_sub_rsub_value (fun _ => Returns false) 0%nat 1%nat
           (Some 2%nat) Symbolic.three_values_graph
           Symbolic.run_time_three Symbolic.run_time_three).
  - reflexivity.
  - reflexivity.
  - reflexivity.
  - simpl. lia.
  - simpl. lia.
  - split; [reflexivity|]. exists false. split; [reflexivity | discriminate].
Defined.

Section ConvFacts.
Import Symbolic.
Variable tensor_sizes : value -> option (list (option Z)).
Variable is_none : value -> bool.
Variable tensor_rank : value -> option Z.
Variable parse_arg_s : value -> result string.
Variable parse_arg_is : value -> result (list Z).

#[local] Abbreviation conv := (convert_conv tensor_sizes is_none tensor_rank
                                     parse_arg_s parse_arg_is).

Lemma existsb_is_None (l : list (option Z)) :
  existsb (fun d => bool_decide (d = None)) l = true <-> In None l.
Proof.
  rewrite existsb_exists. split.
  - intros (d & Hin & Hd). apply bool_decide_eq_true_1 in Hd. subst d.
    exact Hin.
  - intros Hin. exists None. split; [exact Hin | reflexivity].
Qed.

(** X12. [convert_conv] returns [None] exactly when the kernel shape is
    invalid; it has then emitted no node, and given one message to
    [ERROR]. *)
Theorem convert_conv_none input weight bias stride padding dilation groups
        g g' errs :
  conv input weight bias stride padding dilation groups g
  = Returns (None, g', errs)
  <-> invalid_kernel (tensor_sizes weight) /\ g' = g /\
      errs = [invalid_kernel_msg].
Proof.
  unfold convert_conv, invalid_kernel.
  destruct (tensor_sizes weight) as [dims|]; cbn [option_map].
  - destruct (existsb (fun d => bool_decide (d = None)) (drop 2 dims)) eqn:Ex.
    + apply existsb_is_None in Ex. split.
      * intros [= <- <-]. split; [right; eauto | auto].
      * intros (_ & -> & ->). reflexivity.
    + assert (Hno : ~ In None (drop 2 dims)).
      { intros Hin. apply existsb_is_None in Hin. congruence. }
      split.
      * intros H. exfalso. unfold g_op in H.
        destruct (negb (is_none bias));
          [destruct (bool_decide (tensor_rank bias = Some 1))|];
          (destruct (parse_arg_s padding) as [s|e]; [|discriminate H]);
          cbn [mbind result_bind] in H;
          (destruct (str_in s ["valid"; "same"]%string);
           [|destruct (parse_arg_is padding) as [p|e]; [|discriminate H]]);
          cbn in H; discriminate H.
      * intros ([Hn | (d & [= <-] & Hin)] & _); [discriminate | contradiction].
  - split.
    + intros [= <- <-]. auto.
    + intros (_ & -> & ->). reflexivity.
Qed.

(** X13. When [convert_conv] returns a value, it has emitted one [Conv] node
    on [input] and [weight], and has given no message to [ERROR].
    - A bias of rank 1 is the third input of the node, whose output is
      returned; a bias of another or of unknown rank is added by an [Add]
      node after it, whose output is returned.
    - The node has either the attribute [auto_pad], for a padding given as
      the string ['valid'] or ['same'], or the attribute [pads], which
      holds the padding twice (the same padding at the begin and at the
      end of each axis); never both. *)
Theorem convert_conv_emits input weight bias stride padding dilation groups
        g v g' errs :
  conv input weight bias stride padding dilation groups g
  = Returns (Some v, g', errs) ->
  errs = [] /\
  exists c,
    op_type c = "Conv"%string /\ op_output c = next_value g /\
    (if is_none bias then
       op_inputs c = [input; weight] /\ nodes g' = nodes g ++ [c] /\
       v = op_output c
     else if bool_decide (tensor_rank bias = Some 1) then
       op_inputs c = [input; weight; bias] /\ nodes g' = nodes g ++ [c] /\
       v = op_output c
     else
       op_inputs c = [input; weight] /\
       nodes g' = nodes g ++ [c; mk_gnode "Add" [op_output c; bias] []
                                          (S (next_value g))] /\
       v = S (next_value g)) /\
    (exists s, parse_arg_s padding = Returns s /\
       if str_in s ["valid"; "same"]%string then
         get_attr "auto_pad" c
         = Some (AStr (if String.eqb s "valid" then "VALID" else "SAME_UPPER")) /\
         get_attr "pads" c = None
       else
         exists p, parse_arg_is padding = Returns p /\
                   get_attr "pads" c = Some (AInts (p ++ p)) /\
                   get_attr "auto_pad" c = None).
Proof.
  unfold convert_conv, g_op. intros H.
  destruct (tensor_sizes weight) as [dims|]; cbn [option_map] in H;
    [|discriminate H].
  destruct (existsb (fun d => bool_decide (d = None)) (drop 2 dims));
    [discriminate H|].
  destruct (is_none bias); cbn [negb] in H;
    [|destruct (bool_decide (tensor_rank bias = Some 1))];
    (destruct (parse_arg_s padding) as [s|e]; [|discriminate H]);
    cbn [mbind result_bind] in H;
    (destruct (str_in s ["valid"; "same"]%string) eqn:Es;
     [|destruct (parse_arg_is padding) as [p|e] eqn:Ep; [|discriminate H]]);
    cbn in H; injection H as <- <- <-;
    (split; [reflexivity|]);
    eexists (mk_gnode _ _ _ _);
    (split; [reflexivity|]); (split; [reflexivity|]);
    (split;
     [ cbn [op_inputs op_output nodes];
       split; [reflexivity|];
       split; [rewrite <- ?app_assoc; reflexivity | reflexivity]
     | exists s; split; [reflexivity|]; rewrite Es;
       first [ split; reflexivity
             | exists p; split; [reflexivity|]; split; reflexivity ] ]).
Qed.
End ConvFacts.


(** Witness of X12: a weight of unknown sizes. *)
Lemma convert_conv_none_witness :
  Symbolic.convert_conv Symbolic.unknown_sizes Symbolic.never_none
    Symbolic.rank_two Symbolic.padding_string Symbolic.padding_ints
    0%nat 1%nat 2%nat [1; 1] 3%nat [1; 1] 1 Symbolic.three_values_graph
  = Returns (None, Symbolic.three_values_graph,
             [Symbolic.invalid_kernel_msg]).
Proof.
  apply (convert_conv_none Symbolic.unknown_sizes Symbolic.never_none
           Symbolic.rank_two Symbolic.padding_string Symbolic.padding_ints).
  split; [left; reflexivity | split; reflexivity].
Defined.

(** Witness of X13: a weight of sizes [8, 3, 3, 3], a bias of rank 2 and
    the padding [1, 1]. *)
Lemma convert_conv_emits_witness :
  exists v g',
    Symbolic.convert_conv Symbolic.weight_sizes Symbolic.never_none
      Symbolic.rank_two Symbolic.padding_string Symbolic.padding_ints
      0%nat 1%nat 2%nat [1; 1] 3%nat [1; 1] 1 Symbolic.three_values_graph
    = Returns (Some v, g', []) /\
    exists c,
      Symbolic.op_type c = "Conv"%string /\
      Symbolic.nodes g' =
      [c; Symbolic.mk_gnode "Add" [Symbolic.op_output c; 2%nat] [] 4%nat] /\
      Symbolic.get_attr "pads" c = Some (Symbolic.AInts [1; 1; 1; 1]).
Proof.
  eexists _, _. split; [reflexivity|].
  destruct (convert_conv_emits Symbolic.weight_sizes Symbolic.never_none
              Symbolic.rank_two Symbolic.padding_string Symbolic.padding_ints
              0%nat 1%nat 2%nat [1; 1] 3%nat [1; 1] 1
              Symbolic.three_values_graph _ _ _ eq_refl)
    as (_ & c & Hc & Ho & Hb & (s & Hs & Hp)).
  exists c. split; [exact Hc|].
  cbn in Hb. destruct Hb as (_ & Hn & _).
  injection Hs as <-. cbn in Hp. destruct Hp as (p & [= <-] & Hpads & _).
  split; [exact Hn | exact Hpads].
Defined.

(** * [convert_torch_to_onnx]: the opset and the names *)

Section OpsetFacts.
Import TorchExport.
Variable py_int : string -> result Z.
Variable helper_main_opset : result Z.
Variable helper_stable_opsets : result (list Z).
Variable constant_main_opset : result Z.
Variable constant_stable_opsets : result (list Z).

#[local] Abbreviation opsets :=
  (default_opsets helper_main_opset helper_stable_opsets
                  constant_main_opset constant_stable_opsets).
#[local] Abbreviation opset :=
  (onnx_opset_version py_int helper_main_opset helper_stable_opsets
                      constant_main_opset constant_stable_opsets).

End OpsetFacts.


Section InputNamesFacts.
Import TorchExport.
Variable torch_tensor : Type.
Variable new_tensor : string -> list Z -> result torch_tensor.

Lemma digit_test k :
  (1 <=? String.length k)%nat && starts_with_digit k = starts_with_digit k.
Proof. destruct k; reflexivity. Qed.

Lemma dict_pop_middle {V} k (v : V) pre post :
  ~ In k (map fst pre) ->
  dict_pop k (pre ++ (k, v) :: post) = Returns (pre ++ post).
Proof.
  induction pre as [|[k' v'] pre IH]; intros Hn; cbn [app dict_pop].
  - rewrite String.eqb_refl. reflexivity.
  - cbn [map fst In] in Hn.
    destruct (String.eqb_spec k k') as [->|_]; [tauto|].
    rewrite IH by tauto. reflexivity.
Qed.

Lemma dict_set_new {V} k (v : V) d :
  ~ In k (map fst d) -> dict_set k v d = d ++ [(k, v)].
Proof.
  induction d as [|[k' v'] d IH]; intros Hn; cbn [app dict_set];
    [reflexivity|].
  cbn [map fst In] in Hn.
  destruct (String.eqb_spec k k') as [->|_]; [tauto|].
  rewrite IH by tauto. reflexivity.
Qed.

Lemma input_prefix_inj a b :
  ("input_" +:+ a)%string = ("input_" +:+ b)%string -> a = b.
Proof. cbn. intros H. injection H. auto. Qed.

Lemma renamed_name_no_digit k : starts_with_digit (renamed_name k) = false.
Proof.
  unfold renamed_name. destruct (starts_with_digit k) eqn:E; [reflexivity|].
  exact E.
Qed.

Lemma input_loop_spec items :
  forall idx input_dtype st0 st pre post,
    input_loop torch_tensor new_tensor idx items input_dtype st0
    = (Returns tt, st) ->
    input_shapes _ st0 = pre ++ items ++ post ->
    NoDup (map fst (pre ++ items ++ post)) ->
    (forall k, In k (map fst items) -> starts_with_digit k = true ->
               ~ In ("input_" +:+ k)%string (map fst (pre ++ items ++ post))) ->
    input_shapes _ st = pre ++ kept_items items ++ post ++ renamed_items items /\
    input_names _ st = input_names _ st0 ++ map renamed_name (map fst items) /\
    length (tensor_list _ st)
    = (length (tensor_list _ st0) + length items)%nat.
Proof.
  induction items as [|[k s] rest IH];
    intros idx input_dtype st0 st pre post H Hd Hnd Hcol.
  - cbn in H. injection H as <-. cbn. rewrite !app_nil_r.
    split; [exact Hd|]. split; [reflexivity | lia].
  - cbn [input_loop] in H. rewrite digit_test in H.
    destruct (starts_with_digit k) eqn:Ek.
    + (* renamed *)
      assert (Hk : ~ In k (map fst pre)).
      { rewrite map_app in Hnd. apply NoDup_app in Hnd as (_ & Hdis & _).
        intros Hin. apply (Hdis k).
        - apply list_elem_of_In. exact Hin.
        - apply list_elem_of_In. cbn. left. reflexivity. }
      rewrite Hd in H. cbn [app] in H.
      rewrite (dict_pop_middle k s pre (rest ++ post) Hk) in H.
      assert (Hnew : ~ In ("input_" +:+ k)%string
                       (map fst (pre ++ rest ++ post))).
      { intros Hin. apply (Hcol k); [left; reflexivity | exact Ek |].
        rewrite !map_app in *. cbn [map fst].
        rewrite !in_app_iff in *. cbn [In]. tauto. }
      rewrite (dict_set_new _ s _ Hnew) in H.
      destruct (idx <? length input_dtype)%nat; [|discriminate H].
      destruct (new_tensor (nth idx input_dtype EmptyString) s) as [t|e];
        [|discriminate H].
      cbn [input_names tensor_list] in H.
      apply (IH _ _ _ _ pre (post ++ [(("input_" +:+ k)%string, s)])) in H.
      * destruct H as (Hs & Hn & Hl). cbn [input_names tensor_list] in Hn, Hl.
        unfold kept_items, renamed_items, renamed_name in *.
        cbn [List.filter map fst snd].
        destruct (starts_with_digit k); [|discriminate Ek].
        cbn [negb map fst snd]. rewrite Hs, Hn.
        rewrite length_app in Hl. cbn [length] in *.
        split; [rewrite <- !app_assoc; reflexivity|].
        split; [rewrite <- !app_assoc; reflexivity | lia].
      * cbn [input_shapes]. rewrite <- !app_assoc. reflexivity.
      * rewrite !app_assoc. rewrite map_app. cbn [map fst].
        apply NoDup_app. split; [|split].
        -- rewrite <- !app_assoc.
           rewrite !map_app in Hnd |- *. cbn [map fst] in Hnd.
           apply NoDup_app in Hnd as (N1 & N2 & N3).
           apply NoDup_cons in N3 as (_ & N3).
           apply NoDup_app. split; [exact N1|]. split; [|exact N3].
           intros x Hx Hx'. apply (N2 x Hx). right. exact Hx'.
        -- intros x Hx Hx'. apply list_elem_of_In in Hx.
           apply list_elem_of_In in Hx'. cbn [In] in Hx'.
           destruct Hx' as [<-|[]]. apply Hnew.
           rewrite <- !app_assoc in Hx. exact Hx.
        -- apply NoDup_singleton.
      * intros k' Hk' Ed Hin.
        rewrite !map_app in Hin. cbn [map fst] in Hin.
        rewrite !in_app_iff in Hin. cbn [In] in Hin.
        destruct Hin as [Hin|[Hin|[Hin|[Hin|[]]]]].
        -- apply (Hcol k'); [right; exact Hk' | exact Ed |].
           rewrite !map_app, !in_app_iff. tauto.
        -- apply (Hcol k'); [right; exact Hk' | exact Ed |].
           rewrite !map_app, !in_app_iff. cbn [map fst In]. tauto.
        -- apply (Hcol k'); [right; exact Hk' | exact Ed |].
           rewrite !map_app, !in_app_iff. cbn [map fst In]. tauto.
        -- apply input_prefix_inj in Hin. subst k'.
           rewrite !map_app in Hnd. cbn [map fst] in Hnd.
           apply NoDup_app in Hnd as (_ & _ & N3).
           apply NoDup_cons in N3 as (N3 & _). apply N3.
           apply list_elem_of_In. rewrite in_app_iff. left. exact Hk'.
    + (* kept *)
      destruct (idx <? length input_dtype)%nat; [|discriminate H].
      destruct (new_tensor (nth idx input_dtype EmptyString) s) as [t|e];
        [|discriminate H].
      cbn [input_names tensor_list] in H.
      apply (IH _ _ _ _ (pre ++ [(k, s)]) post) in H.
      * destruct H as (Hs & Hn & Hl). cbn [input_names tensor_list] in Hn, Hl.
        unfold kept_items, renamed_items, renamed_name in *.
        cbn [List.filter map fst snd].
        destruct (starts_with_digit k); [discriminate Ek|].
        cbn [negb map fst snd]. rewrite Hs, Hn.
        rewrite length_app in Hl. cbn [length] in *.
        split; [rewrite <- !app_assoc; reflexivity|].
        split; [rewrite <- !app_assoc; reflexivity | lia].
      * cbn [input_shapes]. rewrite Hd, <- !app_assoc. reflexivity.
      * rewrite <- !app_assoc. exact Hnd.
      * intros k' Hk' Ed. rewrite <- !app_assoc.
        apply (Hcol k'); [right; exact Hk' | exact Ed].
Qed.

(** X15. The loop over the inputs (lines 364 to 387), when it returns for a
    dict in which no new name collides with a name: [input_names] holds
    the names in the order of the dict, each name that starts with a digit
    with the prefix [input_], so that no name starts with a digit;
    [params['input_shapes']] holds the same names with their shapes, but
    with the renamed inputs moved behind the others; and there is one
    tensor per input. *)
Theorem get_input_names_renames shapes input_dtype st :
  get_input_names torch_tensor new_tensor shapes input_dtype
  = (Returns tt, st) ->
  NoDup (map fst shapes) -> no_collision shapes ->
  input_names _ st = map renamed_name (map fst shapes) /\
  Forall (fun s => starts_with_digit s = false) (input_names _ st) /\
  input_shapes _ st = kept_items shapes ++ renamed_items shapes /\
  length (tensor_list _ st) = length shapes.
Proof.
  unfold get_input_names. intros H Hnd Hcol.
  apply (input_loop_spec shapes _ _ _ _ [] []) in H.
  - destruct H as (Hs & Hn & Hl). cbn in Hs, Hn, Hl.
    split; [exact Hn|]. split; [|split; [exact Hs | exact Hl]].
    rewrite Hn. apply Forall_map, Forall_true. intros k.
    apply renamed_name_no_digit.
  - cbn. rewrite app_nil_r. reflexivity.
  - cbn. rewrite app_nil_r. exact Hnd.
  - cbn. rewrite app_nil_r. exact Hcol.
Qed.
End InputNamesFacts.

(** Witness of X15: the inputs [0a] and [b]. *)
Lemma get_input_names_renames_witness :
  let st := (TorchExport.get_input_names unit (fun _ _ => Returns tt)
               TorchExport.two_inputs ["float32"; "int32"]%string).2 in
  TorchExport.input_names _ st
  = map TorchExport.renamed_name (map fst TorchExport.two_inputs) /\
  Forall (fun s => TorchExport.starts_with_digit s = false)
         (TorchExport.input_names _ st) /\
  TorchExport.input_shapes _ st
  = TorchExport.kept_items TorchExport.two_inputs
    ++ TorchExport.renamed_items TorchExport.two_inputs /\
  length (TorchExport.tensor_list _ st) = length TorchExport.two_inputs.
Proof.
  apply (get_input_names_renames unit (fun _ _ => Returns tt)
           TorchExport.two_inputs ["float32"; "int32"]%string).
  - reflexivity.
  - cbn.
    apply NoDup_cons_2; [|apply NoDup_cons_2; [|apply NoDup_nil_2]].
    + intros H. apply list_elem_of_In in H. destruct H as [H|[]].
      discriminate H.
    + intros H. apply list_elem_of_In in H. destruct H.
  - unfold TorchExport.no_collision. cbn.
    intros k [<-|[<-|[]]] Hd; [|discriminate Hd].
    intros [H|[H|[]]]; discriminate H.
Defined.

(** * The names of the outputs *)

Section OutputNamesFacts.
Import TorchExport.

(** ** Decimal numerals *)

Definition chars (s : string) : list ascii := list_ascii_of_string s.

Lemma chars_app a b : chars (a +:+ b) = chars a ++ chars b.
Proof.
  unfold chars. induction a as [|c a IH]; [reflexivity|].
  cbn. rewrite <- IH. reflexivity.
Qed.

Lemma chars_inj a b : chars a = chars b -> a = b.
Proof.
  unfold chars. intros H.
  rewrite <- (string_of_list_ascii_of_string a),
          <- (string_of_list_ascii_of_string b), H.
  reflexivity.
Qed.

Lemma uint_digits d :
  Forall (fun c => isdigit c = true)
         (chars (DecimalString.NilEmpty.string_of_uint d)).
Proof.
  induction d; cbn; constructor; auto.
Qed.

Lemma str_nat_digits n : Forall (fun c => isdigit c = true) (chars (str_nat n)).
Proof. apply uint_digits. Qed.

Lemma str_nat_inj a b : str_nat a = str_nat b -> a = b.
Proof.
  unfold str_nat. intros H.
  apply (f_equal DecimalString.NilEmpty.uint_of_string) in H.
  rewrite !DecimalString.NilEmpty.usu in H. injection H as H.
  apply (f_equal Nat.of_uint) in H.
  rewrite !DecimalNat.Unsigned.of_to in H. exact H.
Qed.

(** ** The two numerals at the end of a name *)

Fixpoint take_digits (l : list ascii) : list ascii :=
  match l with
  | c :: r => if isdigit c then c :: take_digits r else []
  | [] => []
  end.

Fixpoint drop_digits (l : list ascii) : list ascii :=
  match l with
  | c :: r => if isdigit c then drop_digits r else l
  | [] => []
  end.

(** The numeral at the end of [s] and the numeral before the character
    in front of it, both read backwards. *)
Definition end_numerals (s : string) : list ascii * list ascii :=
  let r := rev (chars s) in
  (take_digits r, take_digits (drop 1 (drop_digits r))).

Lemma take_digits_app d c r :
  Forall (fun c => isdigit c = true) d -> isdigit c = false ->
  take_digits (d ++ c :: r) = d.
Proof.
  intros Hd Hc. induction Hd as [|x d Hx _ IH]; cbn.
  - rewrite Hc. reflexivity.
  - rewrite Hx, IH. reflexivity.
Qed.

Lemma drop_digits_app d c r :
  Forall (fun c => isdigit c = true) d -> isdigit c = false ->
  drop_digits (d ++ c :: r) = c :: r.
Proof.
  intros Hd Hc. induction Hd as [|x d Hx _ IH]; cbn.
  - rewrite Hc. reflexivity.
  - rewrite Hx, IH. reflexivity.
Qed.

Lemma Forall_rev_digits l :
  Forall (fun c => isdigit c = true) l ->
  Forall (fun c => isdigit c = true) (rev l).
Proof.
  intros H. apply List.Forall_forall. intros x Hx.
  apply in_rev in Hx. rewrite List.Forall_forall in H. auto.
Qed.

Lemma end_numerals_name p base i j :
  end_numerals (p +:+ (base +:+ "_" +:+ str_nat i +:+ "_") +:+ str_nat j)
  = (rev (chars (str_nat j)), rev (chars (str_nat i))).
Proof.
  unfold end_numerals. rewrite !chars_app. cbn [chars list_ascii_of_string].
  rewrite !rev_app_distr. cbn [rev app]. rewrite <- !app_assoc. cbn [app].
  pose proof (Forall_rev_digits _ (str_nat_digits j)) as Hj.
  pose proof (Forall_rev_digits _ (str_nat_digits i)) as Hi.
  rewrite (take_digits_app _ "_"%char _ Hj eq_refl).
  rewrite (drop_digits_app _ "_"%char _ Hj eq_refl).
  change (drop 1 ("_"%char :: ?l)) with l. rewrite <- ?app_assoc. cbn [app].
  rewrite (take_digits_app _ "_"%char _ Hi eq_refl). reflexivity.
Qed.

(** ** The names *)

(** The positions that [numbered_names] numbers: the output and the
    tensor within the output. *)
Fixpoint index_pairs (out_idx : nat) (outs : list graph_output)
  : list (nat * nat) :=
  match outs with
  | [] => []
  | out :: rest =>
      map (fun idx => (out_idx, idx)) (seq 0 (outputs_num out))
      ++ index_pairs (S out_idx) rest
  end.

Definition with_prefix (s : string) : string :=
  if starts_with_digit s then ("output_" +:+ s)%string else s.

Lemma index_pairs_ge i outs p :
  In p (index_pairs i outs) -> (i <= p.1)%nat.
Proof.
  revert i. induction outs as [|out rest IH]; intros i; cbn; [tauto|].
  rewrite in_app_iff, in_map_iff. intros [(j & <- & _)|H]; cbn; [lia|].
  apply IH in H. lia.
Qed.

Lemma index_pairs_NoDup i outs : List.NoDup (index_pairs i outs).
Proof.
  revert i. induction outs as [|out rest IH]; intros i; cbn;
    [constructor|].
  apply List.NoDup_app.
  - apply List.NoDup_map_NoDup_ForallPairs; [|apply List.seq_NoDup].
    intros a b _ _ [= ->]. reflexivity.
  - apply IH.
  - intros p Hp Hq. apply in_map_iff in Hp as (j & <- & _).
    apply index_pairs_ge in Hq. cbn in Hq. lia.
Qed.

Lemma end_numerals_numbered i outs :
  map end_numerals (map with_prefix (numbered_names i outs))
  = map (fun p => (rev (chars (str_nat p.2)), rev (chars (str_nat p.1))))
        (index_pairs i outs).
Proof.
  revert i. induction outs as [|out rest IH]; intros i; [reflexivity|].
  cbn [numbered_names index_pairs]. rewrite !map_app, IH. f_equal.
  rewrite !map_map. apply map_ext. intros j. cbn [fst snd].
  unfold with_prefix.
  destruct (starts_with_digit _).
  - apply (end_numerals_name "output_" (debugName out) i j).
  - apply (end_numerals_name "" (debugName out) i j).
Qed.

Lemma numbered_names_nonempty i outs :
  Forall (fun s => s <> EmptyString) (numbered_names i outs).
Proof.
  revert i. induction outs as [|out rest IH]; intros i; cbn; [constructor|].
  apply Forall_app. split; [|apply IH].
  apply Forall_map, Forall_true. intros j H.
  apply (f_equal chars) in H. rewrite !chars_app in H.
  cbn in H. apply (f_equal (@length ascii)) in H.
  rewrite !length_app in H. cbn in H. lia.
Qed.

Lemma prefix_digit_names_map names :
  Forall (fun s => s <> EmptyString) names ->
  prefix_digit_names names = Returns (map with_prefix names).
Proof.
  induction 1 as [|s names Hs _ IH]; [reflexivity|].
  cbn [prefix_digit_names map]. destruct s as [|c s]; [congruence|].
  rewrite IH. reflexivity.
Qed.

Lemma with_prefix_no_digit s : starts_with_digit (with_prefix s) = false.
Proof.
  unfold with_prefix. destruct (starts_with_digit s) eqn:E; [reflexivity|].
  exact E.
Qed.

Lemma numbered_names_length i outs :
  length (numbered_names i outs)
  = fold_right Nat.add 0%nat (map outputs_num outs).
Proof.
  revert i. induction outs as [|out rest IH]; intros i; [reflexivity|].
  cbn. rewrite length_app, length_map, length_seq, IH. reflexivity.
Qed.

(** X16. The names of the outputs (lines 396 to 408) are always made, one for
    each tensor of each output; they are pairwise distinct, whatever the
    debug names of the outputs are, and none of them starts with a
    digit. *)
Theorem get_output_names_distinct outs :
  exists names,
    get_output_names outs = Returns names /\
    List.NoDup names /\
    Forall (fun s => starts_with_digit s = false) names /\
    length names = fold_right Nat.add 0%nat (map outputs_num outs).
Proof.
  exists (map with_prefix (numbered_names 0 outs)).
  split; [apply prefix_digit_names_map, numbered_names_nonempty|].
  split; [|split].
  - apply (List.NoDup_map_inv end_numerals).
    rewrite end_numerals_numbered.
    apply List.NoDup_map_NoDup_ForallPairs; [|apply index_pairs_NoDup].
    intros [i j] [i' j'] _ _ [= Hj Hi]. cbn [fst snd] in *.
    apply (f_equal (@rev ascii)) in Hj, Hi.
    rewrite !rev_involutive in Hj, Hi.
    apply chars_inj, str_nat_inj in Hj. apply chars_inj, str_nat_inj in Hi.
    congruence.
  - apply Forall_map, Forall_true. intros s. apply with_prefix_no_digit.
  - rewrite length_map. apply numbered_names_length.
Qed.
End OutputNamesFacts.

Section FlattenFacts.
Import TorchExport.

Lemma torch_type_nested_ind (Q : torch_type -> Prop) :
  (forall els, Forall Q els -> Q (TupleType els)) ->
  Q DictType -> (forall id, Q (OtherType id)) ->
  forall t, Q t.
Proof.
  intros Ht Hd Ho.
  fix IH 1. intros [els| |id]; [|exact Hd|apply Ho].
  apply Ht. induction els as [|x els IHels].
  - apply List.Forall_nil.
  - apply List.Forall_cons; [apply IH | exact IHels].
Qed.

End FlattenFacts.
